(** * chrome-agent: a verification development

    A shallow embedding of the browser-automation agent: the protocol
    client ([cdp-client.ts]), the tab manager ([tab-manager.ts]), the
    accessibility snapshot builder ([accessibility.ts]), the action layer
    ([actions.ts]), the navigation controller ([navigation.ts]), the
    agent object ([index.ts]) and the web chat channel ([web.ts]).

    Conventions of the embedding.
    - A JavaScript string is a [string]: a sequence of code units, each
      below 256.  Trimming, lower-casing and digit tests are written out for
      that range.
    - A JavaScript integer is a [Z] (or [N] where the source only counts up).
      The command counter of a connection stays far below 2^53, where
      JavaScript numbers are exact.
    - [Map<K,V>] is a [gmap K V] where only lookups matter, and an
      insertion-ordered association list where the source iterates over it
      (the map [pending] of the client).
    - An [Error] thrown by the source is a constructor of [Error]; the comment
      at each constructor gives the message.

    Part I holds the embedding, one module per source file, each followed
    by the definitions that state its properties; Part II holds the
    properties. *)

From Stdlib Require Import ZArith NArith QArith List String Ascii Lia Bool.
From stdpp Require Import base strings gmap list pretty.
Import ListNotations.

Local Open Scope string_scope.
Local Open Scope list_scope.
Local Open Scope stdpp_scope.

(** * Part I: the embedding *)

(** ** JavaScript string primitives used by the sources *)

Module Js.

(** The quotation mark, a one-character string. *)
Definition dquote : string := String (ascii_of_nat 34) EmptyString.

(** White space and line terminators of ECMAScript among code units below
    256: TAB, LF, VT, FF, CR, SP and NBSP. *)
Definition isWhiteSpace (c : ascii) : bool :=
  let n := nat_of_ascii c in
  ((9 <=? n)%nat && (n <=? 13)%nat) || (n =? 32)%nat || (n =? 160)%nat.

(** [\d] of a regular expression without the unicode flag: 0-9. *)
Definition isDigit (c : ascii) : bool :=
  let n := nat_of_ascii c in (48 <=? n)%nat && (n <=? 57)%nat.

Fixpoint trimStart (s : string) : string :=
  match s with
  | EmptyString => EmptyString
  | String c s' => if isWhiteSpace c then trimStart s' else s
  end.

Fixpoint trimEnd (s : string) : string :=
  match s with
  | EmptyString => EmptyString
  | String c s' =>
      match trimEnd s' with
      | EmptyString => if isWhiteSpace c then EmptyString else String c EmptyString
      | t => String c t
      end
  end.

(** [String.prototype.trim]. *)
Definition trim (s : string) : string := trimEnd (trimStart s).

(** [String.prototype.toLowerCase] on one code unit below 256: A-Z and the
    Latin-1 capitals (0xC0-0xDE except the multiplication sign 0xD7). *)
Definition lowerChar (c : ascii) : ascii :=
  let n := nat_of_ascii c in
  if ((65 <=? n)%nat && (n <=? 90)%nat)
     || ((192 <=? n)%nat && (n <=? 222)%nat && negb (n =? 215)%nat)
  then ascii_of_nat (n + 32) else c.

Fixpoint toLowerCase (s : string) : string :=
  match s with
  | EmptyString => EmptyString
  | String c s' => String (lowerChar c) (toLowerCase s')
  end.

(** [String.prototype.repeat]. *)
Fixpoint repeat (s : string) (n : nat) : string :=
  match n with
  | O => EmptyString
  | S n' => s +:+ repeat s n'
  end.

(** [Array.prototype.join]. *)
Fixpoint join (sep : string) (l : list string) : string :=
  match l with
  | [] => EmptyString
  | [x] => x
  | x :: rest => x +:+ sep +:+ join sep rest
  end.

(** Truthiness of a string: the empty string is falsy. *)
Definition nonEmpty (s : string) : bool :=
  match s with EmptyString => false | String _ _ => true end.

(** Truthiness of an optional string: [undefined] and [""] are falsy. *)
Definition truthy (s : option string) : bool :=
  match s with Some s' => nonEmpty s' | None => false end.

Fixpoint allDigits (s : string) : bool :=
  match s with
  | EmptyString => true
  | String c s' => isDigit c && allDigits s'
  end.

End Js.


(** ** accessibility.ts: the snapshot builder and the reference parser *)

Module Accessibility.

(** What [axValue] finds under [value].  A number is represented by the text
    that [String] gives for it. *)
Inductive JsValue :=
| JsUndefined
| JsString (s : string)
| JsNumber (text : string)
| JsBoolean (b : bool)
| JsOther.                 (* null, an object, ... *)

(** The wrapper [{ value?: ... }] of a raw property. *)
Record AXValue := mkAXValue { ax_value : JsValue }.

Module RawAXNode.
Record t := mk {
  nodeId : option string;
  role : option AXValue;
  name : option AXValue;
  value : option AXValue;
  description : option AXValue;
  childIds : option (list string);
  backendDOMNodeId : option Z
}.
End RawAXNode.

Module AriaSnapshotNode.
Record t := mk {
  ref : string;
  role : string;
  name : string;
  value : option string;
  description : option string;
  backendDOMNodeId : option Z;
  depth : nat
}.
End AriaSnapshotNode.

Definition INTERACTIVE_ROLES : list string :=
  [ "button"; "link"; "textbox"; "checkbox"; "radio"; "combobox"; "listbox";
    "menuitem"; "menuitemcheckbox"; "menuitemradio"; "option"; "searchbox";
    "slider"; "spinbutton"; "switch"; "tab"; "treeitem" ].

Definition CONTENT_ROLES : list string :=
  [ "heading"; "cell"; "gridcell"; "columnheader"; "rowheader"; "listitem";
    "article"; "region"; "main"; "navigation" ].

Definition STRUCTURAL_ROLES : list string :=
  [ "generic"; "group"; "list"; "table"; "row"; "rowgroup"; "grid";
    "treegrid"; "menu"; "menubar"; "toolbar"; "tablist"; "tree"; "directory";
    "document"; "application"; "presentation"; "none" ].

(** [Set.prototype.has] on one of the role sets. *)
Definition has (roles : list string) (r : string) : bool :=
  bool_decide (r ∈ roles).

(** [RefMap = Map<string, number>]. *)
Abbreviation RefMap := (gmap string Z).

(** [axValue(v)]: a string as it is, a number or a boolean as text, and the
    empty string for an absent wrapper or any other value. *)
Definition axValue (v : option AXValue) : string :=
  match v with
  | Some (mkAXValue (JsString s)) => s
  | Some (mkAXValue (JsNumber text)) => text
  | Some (mkAXValue (JsBoolean true)) => "true"
  | Some (mkAXValue (JsBoolean false)) => "false"
  | _ => ""
  end.

(** [n.childIds ?? []]. *)
Definition children_of (n : RawAXNode.t) : list string :=
  match RawAXNode.childIds n with Some l => l | None => [] end.

(** The index [byId]: every node with a truthy id, a later node replacing an
    earlier one with the same id. *)
Definition index_nodes (nodes : list RawAXNode.t) : gmap string RawAXNode.t :=
  foldl (fun (m : gmap string RawAXNode.t) n =>
           match RawAXNode.nodeId n with
           | Some i => if Js.nonEmpty i then <[i := n]> m else m
           | None => m
           end) ∅ nodes.

(** The set [referenced]: every id listed as a child by any node. *)
Definition referenced_ids (nodes : list RawAXNode.t) : gset string :=
  foldl (fun (s : gset string) n =>
           foldl (fun (s' : gset string) c => {[ c ]} ∪ s') s (children_of n))
        ∅ nodes.

(** [nodes.find((n) => n.nodeId && !referenced.has(n.nodeId)) ?? nodes[0]]. *)
Definition find_root (nodes : list RawAXNode.t) : option RawAXNode.t :=
  let referenced := referenced_ids nodes in
  match List.find (fun n =>
                match RawAXNode.nodeId n with
                | Some i => Js.nonEmpty i && negb (bool_decide (i ∈ referenced))
                | None => false
                end) nodes with
  | Some r => Some r
  | None => head nodes
  end.

(** An entry of the explicit stack. *)
Record StackEntry := mkEntry { entry_id : string; entry_depth : nat }.

(** The object pushed on [out] for raw node [n], when [out] holds [len]
    nodes. *)
Definition flatten_node (len : nat) (n : RawAXNode.t) (depth : nat)
  : AriaSnapshotNode.t :=
  let role := axValue (RawAXNode.role n) in
  let name := axValue (RawAXNode.name n) in
  let value := axValue (RawAXNode.value n) in
  let description := axValue (RawAXNode.description n) in
  AriaSnapshotNode.mk
    ("ax" +:+ pretty (len + 1)%nat)
    (if Js.nonEmpty role then role else "unknown")
    name
    (if Js.nonEmpty value then Some value else None)
    (if Js.nonEmpty description then Some description else None)
    (RawAXNode.backendDOMNodeId n)
    depth.

(** The [for] loop that pushes the children, last child first, so that the
    first child is on top.  The head of the list is the top of the stack. *)
Definition push_children (children : list string) (depth : nat)
    (stack : list StackEntry) : list StackEntry :=
  fold_right (fun child st =>
                if Js.nonEmpty child then mkEntry child (depth + 1) :: st else st)
             stack children.

(** The [while] loop of [formatAriaSnapshot].  [fuel] bounds the number of
    iterations; [None] means the bound was reached before the loop ended. *)
Fixpoint dfs_loop (fuel : nat) (byId : gmap string RawAXNode.t) (limit : Z)
    (stack : list StackEntry) (out : list AriaSnapshotNode.t)
  : option (list AriaSnapshotNode.t) :=
  match fuel with
  | O => None
  | S fuel' =>
      match stack with
      | [] => Some out
      | popped :: stack' =>
          if negb (Z.of_nat (length out) <? limit)%Z then Some out
          else
            match byId !! entry_id popped with
            | None => dfs_loop fuel' byId limit stack' out
            | Some n =>
                let out' := out ++ [flatten_node (length out) n (entry_depth popped)] in
                let children :=
                  List.filter (fun c => bool_decide (is_Some (byId !! c))) (children_of n) in
                dfs_loop fuel' byId limit
                         (push_children children (entry_depth popped) stack') out'
            end
      end
  end.

(** [formatAriaSnapshot(nodes, limit)], run with [fuel] loop iterations. *)
Definition formatAriaSnapshot_fuel (fuel : nat) (nodes : list RawAXNode.t)
    (limit : Z) : option (list AriaSnapshotNode.t) :=
  let byId := index_nodes nodes in
  match find_root nodes with
  | None => Some []
  | Some root =>
      match RawAXNode.nodeId root with
      | Some i =>
          if Js.nonEmpty i then dfs_loop fuel byId limit [mkEntry i 0] [] else Some []
      | None => Some []
      end
  end.

(** [formatAriaSnapshot(nodes, limit)] for an integer [limit]: the loop is
    given one iteration per output node and one for the exit test. *)
Definition formatAriaSnapshot (nodes : list RawAXNode.t) (limit : Z)
  : option (list AriaSnapshotNode.t) :=
  formatAriaSnapshot_fuel (S (Z.to_nat limit)) nodes limit.

(** [Math.max(1, Math.min(2000, Math.floor(opts?.limit ?? 500)))] of
    [snapshot], for an integer option. *)
Definition snapshot_limit (opt : option Z) : Z :=
  Z.max 1 (Z.min 2000 (match opt with Some l => l | None => 500 end)).

(** The state of the loop of [buildSnapshot]. *)
Record BuildState := mkBuild {
  refs : RefMap;
  lines : list string;
  refCounter : nat
}.

(** The four [continue] tests of the loop, on the lower-cased role. *)
Definition skipped (node : AriaSnapshotNode.t) : bool :=
  let role := Js.toLowerCase (AriaSnapshotNode.role node) in
  let isStructural := has STRUCTURAL_ROLES role in
  (isStructural && negb (Js.nonEmpty (AriaSnapshotNode.name node)))
  || (String.eqb role "unknown" && negb (Js.nonEmpty (AriaSnapshotNode.name node)))
  || (String.eqb role "none" || String.eqb role "presentation")
  || (String.eqb role "statictext" || String.eqb role "InlineTextBox").

(** The line before a reference is appended. *)
Definition base_line (node : AriaSnapshotNode.t) : string :=
  let role := Js.toLowerCase (AriaSnapshotNode.role node) in
  let line := Js.repeat "  " (AriaSnapshotNode.depth node) +:+ "- " +:+ role in
  let line :=
    if Js.nonEmpty (AriaSnapshotNode.name node)
    then line +:+ " " +:+ Js.dquote +:+ AriaSnapshotNode.name node +:+ Js.dquote
    else line in
  match AriaSnapshotNode.value node with
  | Some v =>
      if Js.nonEmpty v then line +:+ ": " +:+ Js.dquote +:+ v +:+ Js.dquote else line
  | None => line
  end.

(** [shouldHaveRef]. *)
Definition shouldHaveRef (node : AriaSnapshotNode.t) : bool :=
  let role := Js.toLowerCase (AriaSnapshotNode.role node) in
  has INTERACTIVE_ROLES role
  || (has CONTENT_ROLES role && Js.nonEmpty (AriaSnapshotNode.name node)).

(** One iteration of the loop of [buildSnapshot]. *)
Definition build_step (st : BuildState) (node : AriaSnapshotNode.t) : BuildState :=
  if skipped node then st
  else
    let line := base_line node in
    match shouldHaveRef node, AriaSnapshotNode.backendDOMNodeId node with
    | true, Some handle =>
        let counter := S (refCounter st) in
        let ref := "e" +:+ pretty counter in
        mkBuild (<[ref := handle]> (refs st))
                (lines st ++ [line +:+ " [@" +:+ ref +:+ "]"])
                counter
    | _, _ => mkBuild (refs st) (lines st ++ [line]) (refCounter st)
    end.

Definition build_loop (axNodes : list AriaSnapshotNode.t) : BuildState :=
  foldl build_step (mkBuild ∅ [] 0) axNodes.

(** [buildSnapshot(axNodes)]: the text and the reference map. *)
Definition buildSnapshot (axNodes : list AriaSnapshotNode.t) : string * RefMap :=
  let st := build_loop axNodes in
  let text := Js.join (String (ascii_of_nat 10) EmptyString) (lines st) in
  (if Js.nonEmpty text then text else "(empty page)", refs st).

(** [/^e\d+$/.test(s)]. *)
Definition matches_ref (s : string) : bool :=
  match s with
  | String c ds => Ascii.eqb c "e"%char && Js.nonEmpty ds && Js.allDigits ds
  | EmptyString => false
  end.

(** [parseRef(raw)]. *)
Definition parseRef (raw : string) : option string :=
  let trimmed := Js.trim raw in
  if negb (Js.nonEmpty trimmed) then None
  else
    let normalized :=
      match trimmed with
      | String c rest => if Ascii.eqb c "@"%char then rest else trimmed
      | EmptyString => trimmed
      end in
    if matches_ref normalized then Some normalized else None.

End Accessibility.


(** ** The rendered snapshot, in the words of the specification *)

Module SnapshotSpec.
Import Accessibility.

(** The role of a node as the renderer reads it: lower-cased. *)
Definition role_of (nd : AriaSnapshotNode.t) : string :=
  Js.toLowerCase (AriaSnapshotNode.role nd).

Definition interactive (nd : AriaSnapshotNode.t) : Prop :=
  role_of nd ∈ INTERACTIVE_ROLES.

Definition content (nd : AriaSnapshotNode.t) : Prop :=
  role_of nd ∈ CONTENT_ROLES.

Definition structural (nd : AriaSnapshotNode.t) : Prop :=
  role_of nd ∈ STRUCTURAL_ROLES.

(** The node carries a DOM handle and has an interactive role, or a content
    role with a non-empty name. *)
Definition eligible (nd : AriaSnapshotNode.t) : Prop :=
  is_Some (AriaSnapshotNode.backendDOMNodeId nd)
  ∧ (interactive nd ∨ (content nd ∧ AriaSnapshotNode.name nd ≠ "")).

#[global] Instance eligible_dec nd : Decision (eligible nd).
Proof. unfold eligible, interactive, content. apply _. Defined.

(** The nodes that survive the filters of the renderer, in order. *)
Definition emitted (axNodes : list AriaSnapshotNode.t) : list AriaSnapshotNode.t :=
  List.filter (fun nd => negb (skipped nd)) axNodes.

(** The token [e<k>]. *)
Definition token (k : nat) : string := "e" +:+ pretty k.

(** The number of the token of the [i]-th emitted node: one more than the
    number of eligible nodes emitted before it. *)
Definition token_number (em : list AriaSnapshotNode.t) (i : nat) : nat :=
  S (length (filter eligible (take i em))).

(** [lines.join("\n") || "(empty page)"]. *)
Definition render_text (ls : list string) : string :=
  let text := Js.join (String (ascii_of_nat 10) EmptyString) ls in
  if Js.nonEmpty text then text else "(empty page)".

(** The invariant of the loop of [buildSnapshot] after the nodes whose
    emitted part is [em]. *)
Record build_inv (em : list AriaSnapshotNode.t) (st : BuildState) : Prop := {
  inv_counter : refCounter st = length (filter eligible em);
  inv_length : length (lines st) = length em;
  inv_line : ∀ (i : nat) nd, em !! i = Some nd →
    lines st !! i =
      Some (if decide (eligible nd)
            then base_line nd +:+ " [@" +:+ token (token_number em i) +:+ "]"
            else base_line nd);
  inv_ref : ∀ (i : nat) nd, em !! i = Some nd → eligible nd →
    refs st !! token (token_number em i) = AriaSnapshotNode.backendDOMNodeId nd;
  inv_dom : ∀ key h, refs st !! key = Some h →
    ∃ (i : nat) nd, em !! i = Some nd ∧ eligible nd
            ∧ AriaSnapshotNode.backendDOMNodeId nd = Some h
            ∧ key = token (token_number em i)
}.

End SnapshotSpec.

(** ** The traversal of the raw tree, in the words of the specification *)

Module TraversalSpec.
Import Accessibility.

(** The id [i] is listed among the children of a node of the list (any node,
    the one that carries [i] included). *)
Definition listed (nodes : list RawAXNode.t) (i : string) : Prop :=
  Exists (fun n => i ∈ children_of n) nodes.

(** A node that can be the root: it has a non-empty id that no node lists. *)
Definition unlisted (nodes : list RawAXNode.t) (n : RawAXNode.t) : Prop :=
  ∃ i, RawAXNode.nodeId n = Some i ∧ i ≠ "" ∧ ¬ listed nodes i.

#[global] Instance listed_dec nodes i : Decision (listed nodes i).
Proof. unfold listed. apply _. Defined.

#[global] Instance unlisted_dec nodes n : Decision (unlisted nodes n).
Proof.
  unfold unlisted. destruct (RawAXNode.nodeId n) as [i |].
  - destruct (decide (i ≠ "" ∧ ¬ listed nodes i)) as [H | H].
    + left. by exists i.
    + right. intros (j & [= <-] & H1 & H2). by apply H.
  - right. by intros (j & [=] & _).
Defined.

(** The root: the first unlisted node, else the first node of the list. *)
Definition root_node (nodes : list RawAXNode.t) : option RawAXNode.t :=
  match filter (unlisted nodes) nodes with
  | r :: _ => Some r
  | [] => head nodes
  end.

(** The id the traversal starts from: none when the list is empty or the root
    has no id (or the empty id). *)
Definition root_id (nodes : list RawAXNode.t) : option string :=
  match root_node nodes with
  | Some r =>
      match RawAXNode.nodeId r with
      | Some i => if decide (i = "") then None else Some i
      | None => None
      end
  | None => None
  end.

(** The node an id stands for: the last node of the list that carries it.
    The empty id stands for no node. *)
Definition node_by_id (nodes : list RawAXNode.t) (i : string) : option RawAXNode.t :=
  if decide (i = "") then None
  else last (filter (fun n => RawAXNode.nodeId n = Some i) nodes).

(** The pre-order depth-first visit from id [i] at depth [depth], children in
    declared order, cut below [h] levels.  An id that stands for no node
    contributes nothing. *)
Fixpoint preorder (h : nat) (nodes : list RawAXNode.t) (i : string) (depth : nat)
  : list (RawAXNode.t * nat) :=
  match h with
  | O => []
  | S h' =>
      match node_by_id nodes i with
      | None => []
      | Some n =>
          (n, depth)
            :: flat_map (fun c => preorder h' nodes c (depth + 1)) (children_of n)
      end
  end.

(** The flattened nodes of a visit, numbered from [len]. *)
Fixpoint number (len : nat) (visit : list (RawAXNode.t * nat))
  : list AriaSnapshotNode.t :=
  match visit with
  | [] => []
  | (n, d) :: rest => flatten_node len n d :: number (S len) rest
  end.

(** The visit of every entry of a stack, top first. *)
Definition stack_preorder (h : nat) (nodes : list RawAXNode.t)
    (stack : list StackEntry) : list (RawAXNode.t * nat) :=
  flat_map (fun e => preorder h nodes (entry_id e) (entry_depth e)) stack.

(** The id of a stack entry stands for a node. *)
Definition resolves (nodes : list RawAXNode.t) (e : StackEntry) : Prop :=
  is_Some (node_by_id nodes (entry_id e)).

(** Nodes of the examples: [B] and [K] have no children, [A] lists itself
    and [B], [X] has no id and lists [K]. *)
Definition node_B : RawAXNode.t :=
  RawAXNode.mk (Some "b") None None None None None None.
Definition node_A : RawAXNode.t :=
  RawAXNode.mk (Some "a") None None None None (Some ["a"; "b"]) None.
Definition node_X : RawAXNode.t :=
  RawAXNode.mk None None None None None (Some ["k"]) None.
Definition node_K : RawAXNode.t :=
  RawAXNode.mk (Some "k") None None None None None None.

End TraversalSpec.

(** ** Operations that await protocol commands

    Every asynchronous function of the agent is a sequence of
    [await cdp.send(method, params, sessionId)] with pure code in between;
    none of them catches a rejection.  Such a function is embedded as a
    [Proc]: a tree that sends a command and continues with its result.  The
    browser side is an environment that answers each command (or not), says
    whether an awaited event arrives, and delivers events to the registered
    listeners while the function is suspended. *)

Module Cdp.

(** The errors the agent throws, and those the client rejects a command
    with. *)
Inductive Error :=
| SocketNotOpen                    (* "CDP socket not open" *)
| SocketClosed                     (* "CDP socket closed" *)
| SocketError (err : string)       (* the error of a socket error event *)
| ProtocolError (message : string) (* msg.error.message *)
| InvalidRef (ref : string)        (* Invalid ref: "<ref>" *)
| RefNotFound (ref : string)       (* Ref "<ref>" not found - run snapshot() first *)
| NoQuads                          (* "Could not get element position (no quads returned)" *)
| NoObject                         (* "Could not resolve node to JS object" *)
| NavigationFailed (errorText : string) (* Navigation failed: <errorText> *)
| TabNotFound (tabId : string)     (* Tab "<tabId>" not found *)
| NoTabToClose                     (* "No tab to close" *)
| NoTargetId                       (* "Target.createTarget returned no targetId" *)
| NoSessionId.                     (* "Target.attachToTarget returned no sessionId" *)

(** A JavaScript number used as a coordinate: a rational, or NaN.  (The
    rounding of doubles is not modelled.) *)
Inductive Num := Finite (q : Q) | NaN.

(** The result of [Page.getNavigationHistory] as the source reads it:
    [{ currentIndex?: number; entries?: Array<{ id: number }> }]; an entry is
    represented by its id. *)
Record NavigationHistory := mkHistory {
  currentIndex : option Z;
  entries : option (list Z)
}.

(** The commands the agent sends.  The index is the part of the result that
    the source reads ([unit] when it reads none); an absent result or field
    is [None]. *)
Inductive Command : Type → Type :=
| Page_enable : Command unit
| Page_navigate (url : string) : Command (option string)           (* errorText *)
| Page_bringToFront : Command unit
| Page_reload : Command unit
| Page_getNavigationHistory : Command NavigationHistory
| Page_navigateToHistoryEntry (entryId : Z) : Command unit
| Network_enable : Command unit
| Target_createTarget (url : string) : Command (option string)     (* targetId *)
| Target_attachToTarget (targetId : string) : Command (option string) (* sessionId *)
| Target_closeTarget (targetId : string) : Command unit
| Accessibility_enable : Command unit
| Accessibility_getFullAXTree : Command (option (list Accessibility.RawAXNode.t))
| DOM_scrollIntoViewIfNeeded (backendNodeId : Z) : Command unit
| DOM_getContentQuads (backendNodeId : Z) : Command (option (list (list Num)))
| DOM_resolveNode (backendNodeId : Z) : Command (option string)    (* object.objectId *)
| DOM_focus (backendNodeId : Z) : Command unit
| Runtime_clearValue (objectId : string) : Command unit     (* callFunctionOn: this.value = '' *)
| Runtime_selectValues (objectId : string) (values : list string) : Command unit
| Runtime_readChecked (objectId : string) : Command (option bool)  (* result.value *)
| Input_dispatchMouseEvent (type : string) (x y : Num) : Command unit
| Input_insertText (text : string) : Command unit.

(** An asynchronous function over the mutable state [St] with result [R]. *)
Inductive Proc (St R : Type) : Type :=
| Ret (r : R)
| Throw (e : Error)
| Send {A : Type} (sessionId : option string) (c : Command A) (k : A → Proc St R)
| WaitEvent (event : string) (k : Proc St R)
| Get (k : St → Proc St R)
| Put (s : St) (k : Proc St R).

Arguments Ret {St R} r.
Arguments Throw {St R} e.
Arguments Send {St R A} sessionId c k.
Arguments WaitEvent {St R} event k.
Arguments Get {St R} k.
Arguments Put {St R} s k.

Fixpoint bind {St A B} (p : Proc St A) (f : A → Proc St B) : Proc St B :=
  match p with
  | Ret r => f r
  | Throw e => Throw e
  | Send ses c k => Send ses c (fun a => bind (k a) f)
  | WaitEvent ev k => WaitEvent ev (bind k f)
  | Get k => Get (fun s => bind (k s) f)
  | Put s k => Put s (bind k f)
  end.

#[global] Instance proc_ret {St} : MRet (Proc St) := fun A r => Ret r.
#[global] Instance proc_bind {St} : MBind (Proc St) := fun A B f p => bind p f.

(** [await cdp.send(...)]. *)
Definition send {St A} (c : Command A) (sessionId : option string) : Proc St A :=
  Send sessionId c Ret.

(** Awaiting a promise that a one-shot listener of [event] resolves. *)
Definition waitEvent {St} (event : string) : Proc St unit :=
  WaitEvent event (Ret tt).

Definition get {St} : Proc St St := Get Ret.
Definition put {St} (s : St) : Proc St unit := Put s (Ret tt).

(** An operation of a component that owns the part [T] of the state [St]. *)
Fixpoint zoom {St T R} (view : St → T) (update : T → St → St) (p : Proc T R)
  : Proc St R :=
  match p with
  | Ret r => Ret r
  | Throw e => Throw e
  | Send ses c k => Send ses c (fun a => zoom view update (k a))
  | WaitEvent ev k => WaitEvent ev (zoom view update k)
  | Get k => Get (fun s => zoom view update (k (view s)))
  | Put t k => Get (fun s => Put (update t s) (zoom view update k))
  end.

(** What the browser does with a command. *)
Inductive Reply (A : Type) :=
| Resolved (a : A)
| Rejected (e : Error)
| Unanswered.

Arguments Resolved {A} a.
Arguments Rejected {A} e.
Arguments Unanswered {A}.

(** The events the tab manager listens to, with the fields it reads. *)
Inductive TargetEvent :=
| TargetDestroyed (targetId : option string)
| TargetInfoChanged (targetInfo : option (option string * option string * option string)).

(** The environment of a run, by suspension: the answer to the command sent
    there, whether the event awaited there arrives, and the events delivered
    to the listeners while the function is suspended there. *)
Record Env := mkEnv {
  reply : nat → ∀ A, Command A → Reply A;
  fires : nat → bool;
  events : nat → list TargetEvent
}.

(** A command as sent. *)
Inductive Sent :=
| sent_command {A : Type} (sessionId : option string) (c : Command A).

Inductive Outcome (R : Type) :=
| Done (r : R)        (* the promise is fulfilled *)
| Failed (e : Error)  (* the promise is rejected *)
| Pending.            (* the promise is never settled *)

Arguments Done {R} r.
Arguments Failed {R} e.
Arguments Pending {R}.

Record Result (St R : Type) := mkResult {
  outcome : Outcome R;
  final : St;
  sent : list Sent
}.

Arguments mkResult {St R} outcome final sent.
Arguments outcome {St R} r.
Arguments final {St R} r.
Arguments sent {St R} r.

(** The run of [p] from state [s] at suspension [n], with [log] already sent.
    [deliver] is what the listeners do to the state. *)
Fixpoint run_from {St R} (deliver : list TargetEvent → St → St) (env : Env)
    (p : Proc St R) (n : nat) (s : St) (log : list Sent) : Result St R :=
  match p with
  | Ret r => mkResult (Done r) s log
  | Throw e => mkResult (Failed e) s log
  | Send ses c k =>
      let log' := log ++ [sent_command ses c] in
      let s' := deliver (events env n) s in
      match reply env n _ c with
      | Resolved a => run_from deliver env (k a) (S n) s' log'
      | Rejected e => mkResult (Failed e) s' log'
      | Unanswered => mkResult Pending s' log'
      end
  | WaitEvent ev k =>
      let s' := deliver (events env n) s in
      if fires env n then run_from deliver env k (S n) s' log
      else mkResult Pending s' log
  | Get k => run_from deliver env (k s) n s log
  | Put s' k => run_from deliver env k n s' log
  end.

Definition run {St R} (deliver : list TargetEvent → St → St) (env : Env)
    (p : Proc St R) (s : St) : Result St R :=
  run_from deliver env p 0 s [].

(** The listeners of a function that owns no state. *)
Definition no_state (evs : list TargetEvent) (s : unit) : unit := s.

(** A browser that answers every command, with a result that holds nothing. *)
Definition empty_result {A} (c : Command A) : A :=
  match c in Command T return T with
  | Page_enable | Page_bringToFront | Page_reload | Network_enable
  | Accessibility_enable => tt
  | Page_navigate _ => None
  | Page_getNavigationHistory => mkHistory None None
  | Page_navigateToHistoryEntry _ => tt
  | Target_createTarget _ => None
  | Target_attachToTarget _ => None
  | Target_closeTarget _ => tt
  | Accessibility_getFullAXTree => None
  | DOM_scrollIntoViewIfNeeded _ => tt
  | DOM_getContentQuads _ => None
  | DOM_resolveNode _ => None
  | DOM_focus _ => tt
  | Runtime_clearValue _ => tt
  | Runtime_selectValues _ _ => tt
  | Runtime_readChecked _ => None
  | Input_dispatchMouseEvent _ _ _ => tt
  | Input_insertText _ => tt
  end.

Definition quiet : Env :=
  mkEnv (fun _ A c => Resolved (empty_result c)) (fun _ => true) (fun _ => []).

(** A browser that rejects every command with [e]. *)
Definition rejecting (e : Error) : Env :=
  mkEnv (fun _ A c => Rejected e) (fun _ => true) (fun _ => []).

End Cdp.


(** ** tab-manager.ts *)

Module TabManager.
Import Cdp.

Record TabInfo := mkTab {
  tabId : string;
  sessionId : string;
  url : string;
  title : string
}.

(** The table [tabs = new Map<string, TabInfo>()]. *)
Abbreviation Tabs := (gmap string TabInfo).

(** The listener of [Target.targetDestroyed]. *)
Definition onTargetDestroyed (targetId : option string) (tabs : Tabs) : Tabs :=
  match targetId with
  | Some i => if Js.nonEmpty i then delete i tabs else tabs
  | None => tabs
  end.

(** The listener of [Target.targetInfoChanged]; [targetInfo] holds
    [targetId], [url] and [title]. *)
Definition onTargetInfoChanged
    (targetInfo : option (option string * option string * option string))
    (tabs : Tabs) : Tabs :=
  match targetInfo with
  | Some (Some i, newUrl, newTitle) =>
      if Js.nonEmpty i then
        match tabs !! i with
        | Some tab =>
            let tab1 :=
              match newUrl with
              | Some u => mkTab (tabId tab) (sessionId tab) u (title tab)
              | None => tab
              end in
            let tab2 :=
              match newTitle with
              | Some t => mkTab (tabId tab1) (sessionId tab1) (url tab1) t
              | None => tab1
              end in
            <[i := tab2]> tabs
        | None => tabs
        end
      else tabs
  | _ => tabs
  end.

Definition handle (ev : TargetEvent) (tabs : Tabs) : Tabs :=
  match ev with
  | TargetDestroyed i => onTargetDestroyed i tabs
  | TargetInfoChanged info => onTargetInfoChanged info tabs
  end.

(** The events delivered to the two listeners, in order. *)
Definition deliver (evs : list TargetEvent) (tabs : Tabs) : Tabs :=
  foldl (fun t ev => handle ev t) tabs evs.

Definition attach (targetId : string) : Proc Tabs string :=
  result ← send (Target_attachToTarget targetId) None;
  match result with
  | Some sessionId =>
      if Js.nonEmpty sessionId then
        tabs ← get;
        put (<[targetId := mkTab targetId sessionId "" ""]> tabs);;
        mret sessionId
      else Throw NoSessionId
  | None => Throw NoSessionId
  end.

Definition createTab (url : option string) : Proc Tabs string :=
  let url' := match url with Some u => u | None => "about:blank" end in
  result ← send (Target_createTarget url') None;
  match result with
  | Some targetId =>
      if Js.nonEmpty targetId then
        attach targetId;;
        tabs ← get;
        match tabs !! targetId with
        | Some tab =>
            put (<[targetId := mkTab (tabId tab) (sessionId tab) url' (title tab)]> tabs)
        | None => mret tt
        end;;
        mret targetId
      else Throw NoTargetId
  | None => Throw NoTargetId
  end.

Definition closeTab (tabId : string) : Proc Tabs unit :=
  send (Target_closeTarget tabId) None;;
  tabs ← get;
  put (delete tabId tabs).

Definition getTab (tabs : Tabs) (tabId : string) : option TabInfo := tabs !! tabId.

End TabManager.

(** ** navigation.ts *)

Module Navigation.
Import Cdp.

(** [a[i]] for an integer [i]: undefined outside the array. *)
Definition js_index {A} (a : list A) (i : Z) : option A :=
  if (i <? 0)%Z then None else a !! Z.to_nat i.

Definition navigate {St} (url : string) (sessionId : option string) : Proc St unit :=
  send Page_enable sessionId;;
  (* the one-shot listener of Page.loadEventFired is registered here *)
  errorText ← send (Page_navigate url) sessionId;
  if Js.truthy errorText
  then Throw (NavigationFailed (match errorText with Some text => text | None => "" end))
  else
    waitEvent "Page.loadEventFired";;
    send Page_bringToFront sessionId.

Definition goBack {St} (sessionId : option string) : Proc St unit :=
  history ← send Page_getNavigationHistory sessionId;
  let idx := match currentIndex history with Some i => i | None => 0%Z end in
  let entries := match entries history with Some l => l | None => [] end in
  if (0 <? idx)%Z then
    match js_index entries (idx - 1) with
    | Some entry => send (Page_navigateToHistoryEntry entry) sessionId
    | None => mret tt
    end
  else mret tt.

Definition goForward {St} (sessionId : option string) : Proc St unit :=
  history ← send Page_getNavigationHistory sessionId;
  let idx := match currentIndex history with Some i => i | None => 0%Z end in
  let entries := match entries history with Some l => l | None => [] end in
  if (idx <? Z.of_nat (length entries) - 1)%Z then
    match js_index entries (idx + 1) with
    | Some entry => send (Page_navigateToHistoryEntry entry) sessionId
    | None => mret tt
    end
  else mret tt.

Definition reload {St} (sessionId : option string) : Proc St unit :=
  send Page_enable sessionId;;
  (* the one-shot listener of Page.loadEventFired is registered here *)
  send Page_reload sessionId;;
  waitEvent "Page.loadEventFired".

(** *** waitForNetworkIdle

    The promise of [waitForNetworkIdle] is a machine over the counter
    [inflight] and two timers.  Time is a count of milliseconds; a timer set
    at time [t] with delay [d] is due at [t + d] and fires when the clock
    reaches that time, unless it was cleared (the runtime takes a delay as
    given from 1 to 2^31 - 1 ms).  Clearing a timer that has
    fired or was cleared does nothing, so the variable [timer] is represented
    by the time the idle timer is due, [None] when none is armed. *)

Inductive NetEvent :=
| RequestWillBeSent   (* Network.requestWillBeSent *)
| LoadingFinished     (* Network.loadingFinished *)
| LoadingFailed.      (* Network.loadingFailed *)

Record Wait := mkWait {
  now : N;                 (* the clock *)
  inflight : Z;
  timer : option N;        (* when the idle timer is due *)
  timeout : N;             (* when the overall timer is due *)
  resolved : option N      (* when the promise was resolved; the listeners
                              and timers are released then *)
}.

(** [checkIdle]. *)
Definition checkIdle (idleMs : N) (w : Wait) : Wait :=
  if (inflight w <=? 0)%Z
  then mkWait (now w) (inflight w) (Some (now w + idleMs)%N) (timeout w) (resolved w)
  else mkWait (now w) (inflight w) None (timeout w) (resolved w).

(** [onRequest]. *)
Definition onRequest (w : Wait) : Wait :=
  mkWait (now w) (inflight w + 1)%Z None (timeout w) (resolved w).

(** [onFinish]. *)
Definition onFinish (idleMs : N) (w : Wait) : Wait :=
  checkIdle idleMs
    (mkWait (now w) (Z.max 0 (inflight w - 1)) (timer w) (timeout w) (resolved w)).

(** The executor of the promise, run at time [t0]: the overall timer is set,
    the listeners are registered and [checkIdle] is called. *)
Definition start (idleMs timeoutMs : N) (t0 : N) : Wait :=
  checkIdle idleMs (mkWait t0 0%Z None (t0 + timeoutMs)%N None).

(** The first timer due at or before time [t], if any. *)
Definition due (w : Wait) (t : N) : option N :=
  let first :=
    match timer w with
    | Some d => N.min d (timeout w)
    | None => timeout w
    end in
  if (first <=? t)%N then Some first else None.

(** The clock advances by [dt]; a timer that becomes due fires: [cleanup()]
    and [resolve()]. *)
Definition elapse (dt : N) (w : Wait) : Wait :=
  let t := (now w + dt)%N in
  match resolved w with
  | Some _ => mkWait t (inflight w) (timer w) (timeout w) (resolved w)
  | None =>
      match due w t with
      | Some d => mkWait t (inflight w) None (timeout w) (Some d)
      | None => mkWait t (inflight w) (timer w) (timeout w) None
      end
  end.

(** An event is dispatched to its listener, unless [cleanup] removed it. *)
Definition dispatch (idleMs : N) (ev : NetEvent) (w : Wait) : Wait :=
  match resolved w with
  | Some _ => w
  | None =>
      match ev with
      | RequestWillBeSent => onRequest w
      | LoadingFinished | LoadingFailed => onFinish idleMs w
      end
  end.

(** An event that arrives [dt] after the previous one. *)
Definition step (idleMs : N) (w : Wait) (e : N * NetEvent) : Wait :=
  dispatch idleMs (snd e) (elapse (fst e) w).

Definition run_wait (idleMs : N) (trace : list (N * NetEvent)) (w : Wait) : Wait :=
  foldl (step idleMs) w trace.

(** [waitForNetworkIdle(cdp, idleMs = 500, timeoutMs = 30000, sessionId)]:
    [enable] is the answer to [Network.enable], received at time [t0];
    [trace] are the network events after it and [rest] the time observed
    after the last of them. *)
Definition waitForNetworkIdle (idleMs timeoutMs : option N) (enable : Reply unit)
    (t0 : N) (trace : list (N * NetEvent)) (rest : N) : Outcome N :=
  let idle := match idleMs with Some i => i | None => 500%N end in
  let tmo := match timeoutMs with Some t => t | None => 30000%N end in
  match enable with
  | Rejected e => Failed e
  | Unanswered => Pending
  | Resolved _ =>
      match resolved (elapse rest (run_wait idle trace (start idle tmo t0))) with
      | Some t => Done t
      | None => Pending
      end
  end.

End Navigation.

(** ** Runs of the network-idle wait *)

Module IdleSpec.
Import Navigation.

(** The time a trace of events takes. *)
Definition duration (trace : list (N * NetEvent)) : N :=
  foldl (fun acc e => (acc + fst e)%N) 0%N trace.

(** A finish or a failure of a request. *)
Definition finishes (ev : NetEvent) : Prop :=
  ev = LoadingFinished ∨ ev = LoadingFailed.

(** A resolution is never later than the overall timer. *)
Definition timely (w : Wait) : Prop :=
  ∀ t, resolved w = Some t → (t ≤ timeout w)%N.

End IdleSpec.

(** ** actions.ts *)

Module Actions.
Import Cdp.

(** [resolveRef(ref, refs)]: the handle, or the error thrown. *)
Definition resolveRef (ref : string) (refs : Accessibility.RefMap) : Error + Z :=
  match Accessibility.parseRef ref with
  | None => inl (InvalidRef ref)
  | Some parsed =>
      match refs !! parsed with
      | None => inl (RefNotFound ref)
      | Some nodeId => inr nodeId
      end
  end.

(** A synchronous call that may throw, inside an asynchronous function. *)
Definition lift_throw {St A} (r : Error + A) : Proc St A :=
  match r with
  | inl e => Throw e
  | inr a => mret a
  end.

(** [q[i]!] in an arithmetic expression: an absent element is NaN. *)
Definition coord (q : list Num) (i : nat) : Num :=
  match q !! i with Some x => x | None => NaN end.

Definition num_add (a b : Num) : Num :=
  match a, b with
  | Finite x, Finite y => Finite (x + y)
  | _, _ => NaN
  end.

Definition num_div4 (a : Num) : Num :=
  match a with
  | Finite x => Finite (x / 4)
  | NaN => NaN
  end.

Definition getClickPoint {St} (backendNodeId : Z) (sessionId : option string)
  : Proc St (Num * Num) :=
  send (DOM_scrollIntoViewIfNeeded backendNodeId) sessionId;;
  quads ← send (DOM_getContentQuads backendNodeId) sessionId;
  match quads with
  | Some (q :: _) =>
      match q with
      | [] => Throw NoQuads
      | _ =>
          let x := num_div4 (num_add (num_add (num_add (coord q 0) (coord q 2)) (coord q 4)) (coord q 6)) in
          let y := num_div4 (num_add (num_add (num_add (coord q 1) (coord q 3)) (coord q 5)) (coord q 7)) in
          mret (x, y)
      end
  | _ => Throw NoQuads
  end.

Definition clickRef {St} (ref : string) (refs : Accessibility.RefMap)
    (sessionId : option string) : Proc St unit :=
  backendNodeId ← lift_throw (resolveRef ref refs);
  point ← getClickPoint backendNodeId sessionId;
  send (Input_dispatchMouseEvent "mousePressed" (fst point) (snd point)) sessionId;;
  send (Input_dispatchMouseEvent "mouseReleased" (fst point) (snd point)) sessionId.

(** [DOM.resolveNode] and the test of [object.objectId]. *)
Definition resolveObject {St} (backendNodeId : Z) (sessionId : option string)
  : Proc St string :=
  objectId ← send (DOM_resolveNode backendNodeId) sessionId;
  match objectId with
  | Some o => if Js.nonEmpty o then mret o else Throw NoObject
  | None => Throw NoObject
  end.

Definition typeIntoRef {St} (ref text : string) (refs : Accessibility.RefMap)
    (sessionId : option string) : Proc St unit :=
  backendNodeId ← lift_throw (resolveRef ref refs);
  objectId ← resolveObject backendNodeId sessionId;
  send (DOM_focus backendNodeId) sessionId;;
  send (Runtime_clearValue objectId) sessionId;;
  send (Input_insertText text) sessionId.

Definition selectOption {St} (ref : string) (values : list string)
    (refs : Accessibility.RefMap) (sessionId : option string) : Proc St unit :=
  backendNodeId ← lift_throw (resolveRef ref refs);
  objectId ← resolveObject backendNodeId sessionId;
  send (Runtime_selectValues objectId values) sessionId.

Definition checkRef {St} (ref : string) (checked : bool)
    (refs : Accessibility.RefMap) (sessionId : option string) : Proc St unit :=
  backendNodeId ← lift_throw (resolveRef ref refs);
  objectId ← resolveObject backendNodeId sessionId;
  value ← send (Runtime_readChecked objectId) sessionId;
  let currentChecked := match value with Some b => b | None => false end in
  if negb (Bool.eqb currentChecked checked)
  then clickRef ref refs sessionId
  else mret tt.

End Actions.

(** ** Reference tokens, in the words of the specification *)

Module RefSpec.

(** A decimal digit. *)
Definition digit (c : ascii) : Prop :=
  (48 ≤ nat_of_ascii c)%nat ∧ (nat_of_ascii c ≤ 57)%nat.

(** A non-empty string of digits follows the letter e. *)
Definition is_token (t : string) : Prop :=
  ∃ ds, t = String "e"%char ds ∧ ds ≠ ""
        ∧ Forall digit (list_ascii_of_string ds).

(** One leading [@] is dropped. *)
Definition strip_marker (s : string) : string :=
  match s with
  | String c rest => if decide (c = "@"%char) then rest else s
  | EmptyString => s
  end.

(** What the parser looks at: the text trimmed, then without its marker. *)
Definition normalize (raw : string) : string := strip_marker (Js.trim raw).

End RefSpec.

(** ** index.ts: the agent *)

Module ChromeAgent.
Import Cdp.

Record Agent := mkAgent {
  tabs : TabManager.Tabs;                (* the table owned by this.tabs *)
  currentSessionId : option string;
  currentTabId : option string;
  refs : Accessibility.RefMap
}.

Definition set_tabs (t : TabManager.Tabs) (a : Agent) : Agent :=
  mkAgent t (currentSessionId a) (currentTabId a) (refs a).

Definition set_refs (r : Accessibility.RefMap) (a : Agent) : Agent :=
  mkAgent (tabs a) (currentSessionId a) (currentTabId a) r.

Definition set_current (tabId sessionId : option string) (a : Agent) : Agent :=
  mkAgent (tabs a) sessionId tabId (refs a).

(** The listeners of the tab manager act on its table. *)
Definition deliver (evs : list TargetEvent) (a : Agent) : Agent :=
  set_tabs (TabManager.deliver evs (tabs a)) a.

(** A method of [this.tabs]. *)
Definition on_tabs {R} (p : Proc TabManager.Tabs R) : Proc Agent R :=
  zoom tabs set_tabs p.

(** [this.refs.clear()]. *)
Definition clear_refs : Proc Agent unit :=
  a ← get; put (set_refs ∅ a).

(** [snapshot(cdp, sessionId, opts)] of accessibility.ts.  The loop of
    [formatAriaSnapshot] always ends ([formatAriaSnapshot] is never [None]). *)
Definition axSnapshot {St} (sessionId : option string) (limit : option Z)
  : Proc St (string * Accessibility.RefMap) :=
  let limit := Accessibility.snapshot_limit limit in
  send Accessibility_enable sessionId;;
  nodes ← send Accessibility_getFullAXTree sessionId;
  let rawNodes := match nodes with Some l => l | None => [] end in
  let axNodes :=
    match Accessibility.formatAriaSnapshot rawNodes limit with
    | Some l => l
    | None => []
    end in
  mret (Accessibility.buildSnapshot axNodes).

Definition navigate (url : string) : Proc Agent unit :=
  a ← get;
  Navigation.navigate url (currentSessionId a);;
  clear_refs.

Definition snapshot : Proc Agent string :=
  a ← get;
  result ← axSnapshot (currentSessionId a) None;
  a' ← get;
  put (set_refs (snd result) a');;
  mret (fst result).

Definition click (ref : string) : Proc Agent unit :=
  a ← get; Actions.clickRef ref (refs a) (currentSessionId a).

Definition type (ref text : string) : Proc Agent unit :=
  a ← get; Actions.typeIntoRef ref text (refs a) (currentSessionId a).

Definition select (ref : string) (values : list string) : Proc Agent unit :=
  a ← get; Actions.selectOption ref values (refs a) (currentSessionId a).

Definition check (ref : string) (checked : bool) : Proc Agent unit :=
  a ← get; Actions.checkRef ref checked (refs a) (currentSessionId a).

Definition newTab (url : option string) : Proc Agent string :=
  tabId ← on_tabs (TabManager.createTab url);
  a ← get;
  match TabManager.getTab (tabs a) tabId with
  | Some tab =>
      put (set_refs ∅ (set_current (Some tabId) (Some (TabManager.sessionId tab)) a))
  | None => mret tt
  end;;
  mret tabId.

Definition switchTab (tabId : string) : Proc Agent unit :=
  a ← get;
  match TabManager.getTab (tabs a) tabId with
  | None => Throw (TabNotFound tabId)
  | Some tab =>
      put (set_refs ∅ (set_current (Some tabId) (Some (TabManager.sessionId tab)) a))
  end.

Definition closeTab (tabId : option string) : Proc Agent unit :=
  a ← get;
  let target := match tabId with Some t => Some t | None => currentTabId a end in
  match target with
  | Some t =>
      if Js.nonEmpty t then
        on_tabs (TabManager.closeTab t);;
        a' ← get;
        if bool_decide (Some t = currentTabId a')
        then put (set_refs ∅ (set_current None None a'))
        else mret tt
      else Throw NoTabToClose
  | None => Throw NoTabToClose
  end.

Definition back : Proc Agent unit :=
  a ← get;
  Navigation.goBack (currentSessionId a);;
  clear_refs.

Definition forward : Proc Agent unit :=
  a ← get;
  Navigation.goForward (currentSessionId a);;
  clear_refs.

Definition reload : Proc Agent unit :=
  a ← get;
  Navigation.reload (currentSessionId a);;
  clear_refs.

(** The operations that can change the identity of the page of the current
    tab.  [CloseCurrentTab explicit] is [closeTab()] when [explicit] is
    [false] and [closeTab(this.currentTabId)] when it is [true]. *)
Inductive NavigationOp :=
| Navigate (url : string)
| Back
| Forward
| Reload
| SwitchTab (tabId : string)
| CloseCurrentTab (explicit : bool).

Definition perform (op : NavigationOp) (a : Agent) : Proc Agent unit :=
  match op with
  | Navigate url => navigate url
  | Back => back
  | Forward => forward
  | Reload => reload
  | SwitchTab tabId => switchTab tabId
  | CloseCurrentTab explicit => closeTab (if explicit then currentTabId a else None)
  end.

(** The four actions on a reference. *)
Inductive Action :=
| DoClick
| DoType (text : string)
| DoSelect (values : list string)
| DoCheck (checked : bool).

Definition act (action : Action) (ref : string) : Proc Agent unit :=
  match action with
  | DoClick => click ref
  | DoType text => type ref text
  | DoSelect values => select ref values
  | DoCheck checked => check ref checked
  end.

End ChromeAgent.

(** ** Runs of the navigation operations *)

Module AgentSpec.
Import Cdp ChromeAgent.

(** After a run from state [a]: the reference map is empty when the run
    completed, and the map of [a] otherwise. *)
Definition cleared_or_kept (a : Agent) (r : Result Agent unit) : Prop :=
  match outcome r with
  | Done _ => refs (final r) = ∅
  | Failed _ | Pending => refs (final r) = refs a
  end.

(** A browser that answers every navigation with an error text. *)
Definition navigate_error : Env :=
  mkEnv (fun n A c =>
           match c in Command T return Reply T with
           | Page_navigate _ => Resolved (Some "net::ERR_NAME_NOT_RESOLVED")
           | c' => Resolved (empty_result c')
           end)
        (fun _ => true) (fun _ => []).

End AgentSpec.

(** ** cdp-client.ts: the transport and the correlator

    The client is a state machine.  Its state holds the variables of the
    closure of [createCdpClient] ([nextId], [pending], [listeners]) and, to
    observe what the client does, the ready state of the socket, the frames
    handed to [ws.send], the promises returned by [send] and the calls made
    to event handlers.  A promise is identified by its position in the order
    of creation; a continuation [{ resolve, reject }] is represented by the
    promise it settles. *)

Module CdpClient.
Import Cdp.

Inductive ReadyState := CONNECTING | OPEN | CLOSING | CLOSED.

#[global] Instance ReadyState_eq_dec : EqDecision ReadyState.
Proof. solve_decision. Defined.

(** A JSON value carried through unread: its text. *)
Definition Json := string.

Inductive Promise :=
| Waiting
| Fulfilled (result : option Json)
| RejectedWith (e : Error).

(** The frame [{ id, method, params?, sessionId? }]. *)
Record Frame := mkFrame {
  frame_id : Z;
  frame_method : string;
  frame_params : option Json;
  frame_sessionId : option string
}.

(** A parsed inbound message; [msg_id] is present when [typeof msg.id] is
    ["number"].  (An id that is a number but no integer matches no pending
    command, as an integer that was never assigned does.) *)
Record CdpMessage := mkMessage {
  msg_id : option Z;
  msg_method : option string;
  msg_params : option Json;
  msg_sessionId : option string;
  msg_result : option Json;
  msg_error : option (option string)   (* error?: { message?: string } *)
}.

(** A call [h(params, sessionId)] of handler [h] for an event. *)
Record Call := mkCall {
  call_handler : nat;
  call_method : string;
  call_params : option Json;
  call_sessionId : option string
}.

Record Client := mkClient {
  readyState : ReadyState;
  nextId : Z;
  pending : list (Z * nat);            (* Map<number, Pending>, in insertion order *)
  listeners : gmap string (list nat);  (* Map<string, Set<CdpEventHandler>> *)
  promises : list Promise;
  transmitted : list Frame;
  calls : list Call
}.

(** [createCdpClient(ws)] on a socket in state [rs]. *)
Definition create (rs : ReadyState) : Client :=
  mkClient rs 1 [] ∅ [] [] [].

(** *** [Map] operations on [pending] *)

Definition map_get (k : Z) (m : list (Z * nat)) : option nat :=
  snd <$> List.find (fun e => (fst e =? k)%Z) m.

(** [Map.prototype.set]: the value of a present key is replaced in place, a
    new key goes last. *)
Fixpoint map_set (k : Z) (v : nat) (m : list (Z * nat)) : list (Z * nat) :=
  match m with
  | [] => [(k, v)]
  | e :: m' => if (fst e =? k)%Z then (k, v) :: m' else e :: map_set k v m'
  end.

Definition map_delete (k : Z) (m : list (Z * nat)) : list (Z * nat) :=
  List.filter (fun e => negb (fst e =? k)%Z) m.

(** *** Promises *)

(** Settling a promise: only a waiting promise changes. *)
Definition settle (p : nat) (v : Promise) (ps : list Promise) : list Promise :=
  match ps !! p with
  | Some Waiting => <[p := v]> ps
  | _ => ps
  end.

(** [for (const [, p] of pending) p.reject(err)]. *)
Definition reject_all (err : Error) (m : list (Z * nat)) (ps : list Promise)
  : list Promise :=
  foldl (fun ps' e => settle (snd e) (RejectedWith err) ps') ps m.

(** *** The socket *)

(** [ws.close()]: a socket that is not closed starts closing. *)
Definition ws_close (rs : ReadyState) : ReadyState :=
  match rs with
  | CLOSED => CLOSED
  | _ => CLOSING
  end.

(** *** The client *)

(** [send(method, params, sessionId)]: the new state; the promise returned
    is the last of [promises]. *)
Definition send (c : Client) (method : string) (params : option Json)
    (sessionId : option string) : Client :=
  if negb (bool_decide (readyState c = OPEN)) then
    mkClient (readyState c) (nextId c) (pending c) (listeners c)
             (promises c ++ [RejectedWith SocketNotOpen]) (transmitted c) (calls c)
  else
    let id := nextId c in
    let frame :=
      mkFrame id method params (if Js.truthy sessionId then sessionId else None) in
    mkClient (readyState c) (id + 1)
             (map_set id (length (promises c)) (pending c))
             (listeners c)
             (promises c ++ [Waiting])
             (transmitted c ++ [frame])
             (calls c).

(** [dispatchEvent(method, params, sessionId)].  What a handler does, and
    whether it throws, is outside the client: the client swallows the
    exception, and a handler that calls the client is a later event of the
    trace. *)
Definition dispatchEvent (c : Client) (method : string) (params : option Json)
    (sessionId : option string) : Client :=
  match listeners c !! method with
  | None => c
  | Some handlers =>
      mkClient (readyState c) (nextId c) (pending c) (listeners c) (promises c)
               (transmitted c)
               (calls c ++ map (fun h => mkCall h method params sessionId) handlers)
  end.

(** [closeWithError(err)]. *)
Definition closeWithError (c : Client) (err : Error) : Client :=
  mkClient (ws_close (readyState c)) (nextId c) [] (listeners c)
           (reject_all err (pending c) (promises c)) (transmitted c) (calls c).

(** The listener of ["message"]; [None] is a text that [JSON.parse] refuses
    or a value without properties: the handler catches the exception. *)
Definition onMessage (c : Client) (data : option CdpMessage) : Client :=
  match data with
  | None => c
  | Some msg =>
      match msg_id msg with
      | Some id =>
          match map_get id (pending c) with
          | Some p =>
              let outcome :=
                match msg_error msg with
                | Some (Some message) =>
                    if Js.nonEmpty message
                    then RejectedWith (ProtocolError message)
                    else Fulfilled (msg_result msg)
                | _ => Fulfilled (msg_result msg)
                end in
              mkClient (readyState c) (nextId c) (map_delete id (pending c))
                       (listeners c) (settle p outcome (promises c))
                       (transmitted c) (calls c)
          | None => c
          end
      | None =>
          match msg_method msg with
          | Some method =>
              if Js.nonEmpty method
              then dispatchEvent c method (msg_params msg) (msg_sessionId msg)
              else c
          | None => c
          end
      end
  end.

(** [on(event, handler)]: [Set.prototype.add]. *)
Definition on (c : Client) (event : string) (handler : nat) : Client :=
  let set := match listeners c !! event with Some s => s | None => [] end in
  let set' := if bool_decide (handler ∈ set) then set else set ++ [handler] in
  mkClient (readyState c) (nextId c) (pending c) (<[event := set']> (listeners c))
           (promises c) (transmitted c) (calls c).

(** [off(event, handler)]. *)
Definition off (c : Client) (event : string) (handler : nat) : Client :=
  match listeners c !! event with
  | Some set =>
      mkClient (readyState c) (nextId c) (pending c)
               (<[event := List.filter (fun h => negb (h =? handler)%nat) set]> (listeners c))
               (promises c) (transmitted c) (calls c)
  | None => c
  end.

(** [close()]. *)
Definition close (c : Client) : Client :=
  mkClient (ws_close (readyState c)) (nextId c) [] (listeners c) (promises c)
           (transmitted c) (calls c).

(** What happens to a client: calls of its interface and events of its
    socket.  The socket is closed when it reports a close. *)
Inductive Event :=
| CallSend (method : string) (params : option Json) (sessionId : option string)
| CallOn (event : string) (handler : nat)
| CallOff (event : string) (handler : nat)
| CallClose
| SocketOpen
| SocketMessage (data : option CdpMessage)
| SocketErrorEvent (err : string)
| SocketCloseEvent.

Definition set_readyState (rs : ReadyState) (c : Client) : Client :=
  mkClient rs (nextId c) (pending c) (listeners c) (promises c) (transmitted c)
           (calls c).

Definition step (c : Client) (ev : Event) : Client :=
  match ev with
  | CallSend method params sessionId => send c method params sessionId
  | CallOn event handler => on c event handler
  | CallOff event handler => off c event handler
  | CallClose => close c
  | SocketOpen =>
      if bool_decide (readyState c = CONNECTING) then set_readyState OPEN c else c
  | SocketMessage data => onMessage c data
  | SocketErrorEvent err => closeWithError c (SocketError err)
  | SocketCloseEvent => closeWithError (set_readyState CLOSED c) SocketClosed
  end.

Definition run (c : Client) (evs : list Event) : Client := foldl step c evs.

(** The three ways the transport is torn down. *)
Definition teardown (ev : Event) : Prop :=
  match ev with
  | CallClose | SocketErrorEvent _ | SocketCloseEvent => True
  | _ => False
  end.

(** A response to the command with id [n]. *)
Definition response_to (n : Z) (ev : Event) : Prop :=
  match ev with
  | SocketMessage (Some msg) => msg_id msg = Some n
  | _ => False
  end.

(** What a response does to the promise of its command. *)
Definition outcome_of (msg : CdpMessage) : Promise :=
  match msg_error msg with
  | Some (Some message) =>
      if decide (message = "") then Fulfilled (msg_result msg)
      else RejectedWith (ProtocolError message)
  | _ => Fulfilled (msg_result msg)
  end.

End CdpClient.

(** ** Invariants of the client *)

Module ClientInv.
Import CdpClient.

(** Every pending id was assigned, every pending promise exists and waits,
    and two pending ids never share a promise. *)
Record wf (c : Client) : Prop := {
  wf_ids : ∀ k p, map_get k (pending c) = Some p →
                  (k < nextId c)%Z ∧ (p < length (promises c))%nat;
  wf_waiting : ∀ k p, map_get k (pending c) = Some p →
                      promises c !! p = Some Waiting;
  wf_inj : ∀ k1 k2 p, map_get k1 (pending c) = Some p →
                      map_get k2 (pending c) = Some p → k1 = k2
}.

(** The socket is closing or closed. *)
Definition closed (c : Client) : Prop :=
  readyState c = CLOSING ∨ readyState c = CLOSED.

(** The state after a call of [send] that found the socket not open: one
    more promise, rejected, and nothing else. *)
Definition rejected_send (c : Client) : Client :=
  mkClient (readyState c) (nextId c) (pending c) (listeners c)
           (promises c ++ [RejectedWith Cdp.SocketNotOpen]) (transmitted c) (calls c).

End ClientInv.

(** ** Further properties of the client: vocabulary *)

Module ClientProps.
Import CdpClient.

(** Handler [h] is registered for the event [method]. *)
Definition registered (c : Client) (method : string) (h : nat) : Prop :=
  ∃ hs, listeners c !! method = Some hs ∧ h ∈ hs.



(** After a teardown: the socket is closing or closed and nothing is
    pending. *)
Definition torn_down (c : Client) : Prop :=
  ClientInv.closed c ∧ pending c = [].

(** The ids of the frames sent so far are 1, 2, 3, ... in the order of
    sending, and the next id is one more than their number. *)
Definition numbered (c : Client) : Prop :=
  map frame_id (transmitted c)
  = map Z.of_nat (seq 1 (length (transmitted c)))
  ∧ nextId c = (Z.of_nat (length (transmitted c)) + 1)%Z.

End ClientProps.

(** ** Further properties of the tab manager: vocabulary *)

Module TabProps.
Import Cdp TabManager.

(** Every record is stored under its own tab id. *)
Definition keyed (tabs : Tabs) : Prop :=
  ∀ k t, tabs !! k = Some t → tabId t = k.

(** [url ?? "about:blank"]. *)
Definition url_or_blank (url : option string) : string :=
  match url with Some u => u | None => "about:blank" end.

(** A browser that creates the target T7 and attaches it as session S7. *)
Definition creating : Env :=
  mkEnv (fun n A c =>
           match c in Command T return Reply T with
           | Target_createTarget _ => Resolved (Some "T7")
           | Target_attachToTarget _ => Resolved (Some "S7")
           | c' => Resolved (empty_result c')
           end)
        (fun _ => true) (fun _ => []).

End TabProps.

(** ** Further properties of the snapshot: vocabulary *)

Module SnapshotProps.
Import Accessibility.

(** No code unit of the string is white space. *)
Fixpoint solid (s : string) : bool :=
  match s with
  | EmptyString => true
  | String c s' => negb (Js.isWhiteSpace c) && solid s'
  end.

(** The first code unit of a string. *)
Definition first_char (s : string) : option ascii :=
  match s with
  | EmptyString => None
  | String c _ => Some c
  end.

(** Each depth is at most one more than the depth before it; [prev] is the
    depth before the first. *)
Fixpoint steps (prev : nat) (depths : list nat) : Prop :=
  match depths with
  | [] => True
  | d :: rest => (d ≤ S prev)%nat ∧ steps d rest
  end.

(** The depths of an outline: the first is 0 and each of the others is at
    most one more than the depth before it. *)
Definition outline (depths : list nat) : Prop :=
  match depths with
  | [] => True
  | d :: rest => d = 0%nat ∧ steps 0 rest
  end.

(** The depths of a visit. *)
Definition visit_depths (visit : list (RawAXNode.t * nat)) : list nat :=
  map snd visit.

(** Three raw nodes: a page with a link that has a DOM handle and a text
    without one. *)
Definition sample_page : RawAXNode.t :=
  RawAXNode.mk (Some "1") (Some (mkAXValue (JsString "RootWebArea")))
    (Some (mkAXValue (JsString "Home"))) None None (Some ["2"; "3"]) (Some 10%Z).
Definition sample_link : RawAXNode.t :=
  RawAXNode.mk (Some "2") (Some (mkAXValue (JsString "link")))
    (Some (mkAXValue (JsString "About"))) None None None (Some 11%Z).
Definition sample_text : RawAXNode.t :=
  RawAXNode.mk (Some "3") (Some (mkAXValue (JsString "StaticText")))
    (Some (mkAXValue (JsString "hello"))) None None None None.
Definition sample_tree : list RawAXNode.t :=
  [sample_page; sample_link; sample_text].

End SnapshotProps.

(** ** Further properties of the network-idle wait: vocabulary *)

Module IdleProps.
Import Navigation.

(** The number of request-start events of a trace. *)
Definition requests (trace : list (N * NetEvent)) : nat :=
  length (List.filter (fun e => match snd e with
                                | RequestWillBeSent => true
                                | _ => false
                                end) trace).

(** What holds of the machine of a wait started at [t0], at any time. *)
Record reachable (idle tmo t0 : N) (w : Wait) : Prop := {
  reach_timeout : timeout w = (t0 + tmo)%N;
  reach_clock : (t0 ≤ now w)%N;
  reach_count : (0 ≤ inflight w)%Z;
  reach_timer : ∀ d, timer w = Some d → inflight w = 0%Z ∧ (t0 + idle ≤ d)%N;
  reach_resolved : ∀ t, resolved w = Some t →
    (t ≤ now w)%N ∧ (t ≤ t0 + tmo)%N ∧ (t0 + N.min idle tmo ≤ t)%N
    ∧ ((t < t0 + tmo)%N → inflight w = 0%Z ∧ (t0 + idle ≤ t)%N)
}.

End IdleProps.

(** ** Further properties of the actions and of the agent: vocabulary *)

Module ProcProps.
Import Cdp.

(** The session a command was sent to. *)
Definition sent_session (s : Sent) : option string :=
  match s with sent_command sessionId _ => sessionId end.

(** Every command the function can send satisfies [P], whatever the answers
    it gets and whatever state it reads. *)
Inductive sends {St R} (P : Sent → Prop) : Proc St R → Prop :=
| sends_ret r : sends P (Ret r)
| sends_throw e : sends P (Throw e)
| sends_send A sessionId (c : Command A) k :
    P (sent_command sessionId c) → (∀ a, sends P (k a)) →
    sends P (Send sessionId c k)
| sends_wait event k : sends P k → sends P (WaitEvent event k)
| sends_get k : (∀ s, sends P (k s)) → sends P (Get k)
| sends_put s k : sends P k → sends P (Put s k).

(** The function never writes the state. *)
Inductive reads_only {St R} : Proc St R → Prop :=
| reads_ret r : reads_only (Ret r)
| reads_throw e : reads_only (Throw e)
| reads_send A sessionId (c : Command A) k :
    (∀ a, reads_only (k a)) → reads_only (Send sessionId c k)
| reads_wait event k : reads_only k → reads_only (WaitEvent event k)
| reads_get k : (∀ s, reads_only (k s)) → reads_only (Get k).

(** The command is one an action sends, and when it names a DOM node, the
    node is [h]. *)
Definition about (h : Z) (s : Sent) : Prop :=
  match s with
  | sent_command _ c =>
      match c with
      | DOM_scrollIntoViewIfNeeded b | DOM_getContentQuads b
      | DOM_resolveNode b | DOM_focus b => b = h
      | Runtime_clearValue _ | Runtime_selectValues _ _ | Runtime_readChecked _
      | Input_dispatchMouseEvent _ _ _ | Input_insertText _ => True
      | _ => False
      end
  end.

(** The command is a mouse event. *)
Definition is_mouse_event (s : Sent) : Prop :=
  match s with
  | sent_command _ c =>
      match c with
      | Input_dispatchMouseEvent _ _ _ => True
      | _ => False
      end
  end.

(** The environment seen from suspension [k] on. *)
Definition shift (k : nat) (env : Env) : Env :=
  mkEnv (fun n => reply env (k + n)) (fun n => fires env (k + n))
        (fun n => events env (k + n)).

End ProcProps.

Module AgentProps.
Import Cdp ChromeAgent.

(** The methods of the agent that drive the browser. *)
Inductive Call :=
| CallNavigate (url : string)
| CallSnapshot
| CallAct (action : Action) (ref : string)
| CallNewTab (url : option string)
| CallSwitchTab (tabId : string)
| CallCloseTab (tabId : option string)
| CallBack
| CallForward
| CallReload.

(** A call of a method, its result dropped. *)
Definition call (c : Call) : Proc Agent unit :=
  match c with
  | CallNavigate url => navigate url
  | CallSnapshot => snapshot ≫= fun _ => mret tt
  | CallAct action ref => act action ref
  | CallNewTab url => newTab url ≫= fun _ => mret tt
  | CallSwitchTab tabId => switchTab tabId
  | CallCloseTab tabId => closeTab tabId
  | CallBack => back
  | CallForward => forward
  | CallReload => reload
  end.

(** The session the commands of a call are meant for: the methods on tabs
    talk to the browser, the others to the page of the current tab. *)
Definition session_of (a : Agent) (c : Call) : option string :=
  match c with
  | CallNewTab _ | CallSwitchTab _ | CallCloseTab _ => None
  | _ => currentSessionId a
  end.

(** The current session is that of the current tab: there is a current
    session exactly when there is a current tab, and while the table holds a
    record for the current tab, the session of the record is the current
    session. *)
Definition coherent (a : Agent) : Prop :=
  match currentTabId a with
  | None => currentSessionId a = None
  | Some t =>
      ∃ s, currentSessionId a = Some s
           ∧ ∀ tab, tabs a !! t = Some tab → TabManager.sessionId tab = s
  end.

(** Every record of [tabs'] is in [tabs] under the same key, with the same
    session. *)
Definition descends (tabs tabs' : TabManager.Tabs) : Prop :=
  ∀ k t', tabs' !! k = Some t' →
    ∃ t, tabs !! k = Some t ∧ TabManager.sessionId t' = TabManager.sessionId t.

(** An agent on its first tab. *)
Definition on_first_tab : Agent :=
  mkAgent {[ "T1" := TabManager.mkTab "T1" "S1" "about:blank" "" ]}
          (Some "S1") (Some "T1") {[ "e1" := 7%Z ]}.

(** A browser that creates the target T2 and attaches it as session S2. *)
Definition opening : Env :=
  mkEnv (fun n A c =>
           match c in Command T return Reply T with
           | Target_createTarget _ => Resolved (Some "T2")
           | Target_attachToTarget _ => Resolved (Some "S2")
           | c' => Resolved (empty_result c')
           end)
        (fun _ => true) (fun _ => []).

(** A browser that finds the node of every handle at the same place, and
    reports [state] for a checkbox. *)
Definition clickable (state : bool) : Env :=
  mkEnv (fun n A c =>
           match c in Command T return Reply T with
           | DOM_getContentQuads _ =>
               Resolved (Some [[Finite 0; Finite 0; Finite 8; Finite 0;
                                Finite 8; Finite 4; Finite 0; Finite 4]])
           | DOM_resolveNode _ => Resolved (Some "obj-1")
           | Runtime_readChecked _ => Resolved (Some state)
           | c' => Resolved (empty_result c')
           end)
        (fun _ => true) (fun _ => []).

(** A browser whose accessibility tree is the sample tree. *)
Definition showing_sample : Env :=
  mkEnv (fun n A c =>
           match c in Command T return Reply T with
           | Accessibility_getFullAXTree => Resolved (Some SnapshotProps.sample_tree)
           | c' => Resolved (empty_result c')
           end)
        (fun _ => true) (fun _ => []).

End AgentProps.

(** ** web.ts: the web chat channel

    The handlers that [WebChannel.connect] registers and the methods of the
    channel, over the set [clients] of sockets.  A socket is represented by a
    number; [JSON.parse], the clock and [Math.random] are inputs of the
    handler that reads them. *)

Module WebChannel.

Definition WEB_JID : string := "web@web.nanoclaw".

(** [String.prototype.endsWith]. *)
Definition endsWith (s search : string) : bool :=
  let len := String.length s in
  let searchLength := String.length search in
  if (len <? searchLength)%nat then false
  else String.eqb (substring (len - searchLength) searchLength s) search.

(** [ownsJid(jid)]. *)
Definition ownsJid (jid : string) : bool := endsWith jid "@web.nanoclaw".

(** What [JSON.parse(String(data))] gives, as the handler reads it: the field
    [type] when it is a string and the field [text] when [typeof] says it is
    a string. *)
Inductive ParseResult :=
| Unparsable                                            (* JSON.parse throws *)
| Parsed (type : option string) (text : option string).

(** The message handed to [opts.onMessage]. *)
Record NewMessage := mkInbound {
  id : string;
  chat_jid : string;
  sender : string;
  sender_name : string;
  content : string;
  timestamp : string;
  is_from_me : bool;
  is_bot_message : bool
}.

(** What the handler reads from its environment: [new Date().toISOString()],
    [Date.now()] and [Math.random().toString(36).slice(2, 8)]. *)
Record Ambient := mkAmbient {
  isoNow : string;
  dateNow : N;
  randomTail : string
}.

(** The handler of [message] on a socket: the call of [opts.onMessage] it
    makes, if any. *)
Definition onSocketMessage (parsed : ParseResult) (amb : Ambient)
  : option NewMessage :=
  match parsed with
  | Parsed (Some type) (Some text) =>
      if String.eqb type "message" && Js.nonEmpty (Js.trim text)
      then Some (mkInbound ("web-" +:+ pretty (dateNow amb) +:+ "-" +:+ randomTail amb)
                           WEB_JID "user@web.nanoclaw" "User" (Js.trim text)
                           (isoNow amb) false false)
      else None
  | _ => None
  end.

(** [readyState] of a socket. *)
Inductive ReadyState := CONNECTING | OPEN | CLOSING | CLOSED.

#[global] Instance ReadyState_eq_dec : EqDecision ReadyState.
Proof. solve_decision. Defined.

(** The set [clients], in insertion order. *)
Abbreviation Clients := (list nat).

(** [clients.add(ws)]. *)
Definition add (ws : nat) (clients : Clients) : Clients :=
  if bool_decide (ws ∈ clients) then clients else clients ++ [ws].

(** [clients.delete(ws)]. *)
Definition delete (ws : nat) (clients : Clients) : Clients :=
  filter (fun c => c ≠ ws) clients.

(** The events of the socket server that change the set. *)
Inductive SocketEvent :=
| Connection (ws : nat)   (* wss.on('connection') *)
| Close (ws : nat).       (* ws.on('close') *)

Definition subject (ev : SocketEvent) : nat :=
  match ev with Connection ws | Close ws => ws end.

Definition onSocketEvent (clients : Clients) (ev : SocketEvent) : Clients :=
  match ev with
  | Connection ws => add ws clients
  | Close ws => delete ws clients
  end.

Definition after (evs : list SocketEvent) : Clients :=
  foldl onSocketEvent [] evs.

(** What is sent on the sockets: [JSON.stringify] of one of two objects. *)
Inductive Payload :=
| MessagePayload (text : string)     (* { type: 'message', text } *)
| TypingPayload (isTyping : bool).   (* { type: 'typing', isTyping } *)

(** The loop of [sendMessage] and [setTyping]: the frames sent. *)
Definition broadcast (readyState : nat → ReadyState) (payload : Payload)
    (clients : Clients) : list (nat * Payload) :=
  map (fun ws => (ws, payload))
      (filter (fun ws => readyState ws = OPEN) clients).

Definition sendMessage (readyState : nat → ReadyState) (jid text : string)
    (clients : Clients) : list (nat * Payload) :=
  broadcast readyState (MessagePayload text) clients.

Definition setTyping (readyState : nat → ReadyState) (jid : string)
    (isTyping : bool) (clients : Clients) : list (nat * Payload) :=
  broadcast readyState (TypingPayload isTyping) clients.

(** The count that [/health] reports. *)
Definition health (clients : Clients) : nat := length clients.

End WebChannel.

Module WebProps.
Import WebChannel.

(** The socket is connected after the events: the last event about it is a
    connection. *)
Definition connected_after (evs : list SocketEvent) (ws : nat) : Prop :=
  match last (filter (fun ev => subject ev = ws) evs) with
  | Some (Connection _) => True
  | _ => False
  end.

End WebProps.

(** * Part II: properties *)

(** ** Sanity checks of the embedding against the documented examples *)

Example parseRef_accepts :
  Accessibility.parseRef "@e12" = Some "e12"
  ∧ Accessibility.parseRef "e12" = Some "e12".
Proof. split; reflexivity. Qed.

Example parseRef_refuses :
  Accessibility.parseRef "" = None
  ∧ Accessibility.parseRef "x1" = None
  ∧ Accessibility.parseRef "e" = None
  ∧ Accessibility.parseRef "@@e1" = None
  ∧ Accessibility.parseRef "e1x" = None.
Proof. repeat split; reflexivity. Qed.

(** An interactive node named Submit with a DOM handle renders with the
    first reference and is recorded in the reference map. *)
Example buildSnapshot_submit :
  Accessibility.buildSnapshot
    [Accessibility.AriaSnapshotNode.mk "ax1" "button" "Submit" None None (Some 42%Z) 0]
  = ("- button " +:+ Js.dquote +:+ "Submit" +:+ Js.dquote +:+ " [@e1]", {[ "e1" := 42%Z ]}).
Proof. vm_compute. reflexivity. Qed.

(** The documented traversal: [A] lists [B] and [C], [B] lists [D], and no
    node lists [A]; the visit is [A], [B], [D], [C], with depths 0, 1, 2, 1. *)
Example formatAriaSnapshot_preorder :
  let nd i cs := Accessibility.RawAXNode.mk (Some i) None None None None cs None in
  option_map (map (fun n => (Accessibility.AriaSnapshotNode.ref n,
                             Accessibility.AriaSnapshotNode.depth n)))
    (Accessibility.formatAriaSnapshot
       [nd "B" (Some ["D"]); nd "C" None; nd "A" (Some ["B"; "C"]); nd "D" None] 10)
  = Some [("ax1", 0%nat); ("ax2", 1%nat); ("ax3", 2%nat); ("ax4", 1%nat)].
Proof. vm_compute. reflexivity. Qed.

(** A node that lists itself is visited again and again, until the limit. *)
Example formatAriaSnapshot_cycle :
  let A := Accessibility.RawAXNode.mk (Some "a") None None None None (Some ["a"]) None in
  option_map (map Accessibility.AriaSnapshotNode.depth)
    (Accessibility.formatAriaSnapshot [A] 3)
  = Some [0%nat; 1%nat; 2%nat].
Proof. vm_compute. reflexivity. Qed.

(** The network-idle wait with the default delays: a request that starts at
    100 ms and finishes at 200 ms lets the wait resolve at 700 ms; a request
    that never finishes lets it resolve at 30000 ms. *)
Example waitForNetworkIdle_idle :
  Navigation.waitForNetworkIdle None None (Cdp.Resolved tt) 0
    [(100%N, Navigation.RequestWillBeSent); (100%N, Navigation.LoadingFinished)] 1000
  = Cdp.Done 700%N.
Proof. reflexivity. Qed.

Example waitForNetworkIdle_timeout :
  Navigation.waitForNetworkIdle None None (Cdp.Resolved tt) 0
    [(100%N, Navigation.RequestWillBeSent)] 40000
  = Cdp.Done 30000%N.
Proof. reflexivity. Qed.

(** [back] on the second of two history entries navigates to the first. *)
Example goBack_navigates :
  let env :=
    Cdp.mkEnv (fun n A c =>
                 match c in Cdp.Command T return Cdp.Reply T with
                 | Cdp.Page_getNavigationHistory =>
                     Cdp.Resolved (Cdp.mkHistory (Some 1%Z) (Some [11%Z; 12%Z]))
                 | c' => Cdp.Resolved (Cdp.empty_result c')
                 end)
              (fun _ => true) (fun _ => []) in
  Cdp.sent (Cdp.run Cdp.no_state env (Navigation.goBack (Some "S1")) tt)
  = [Cdp.sent_command (Some "S1") Cdp.Page_getNavigationHistory;
     Cdp.sent_command (Some "S1") (Cdp.Page_navigateToHistoryEntry 11%Z)].
Proof. reflexivity. Qed.

(** ** C3: reference tokens of the rendered snapshot *)

Section BuildSnapshot.
Import Accessibility SnapshotSpec.

Lemma build_loop_snoc l x : build_loop (l ++ [x]) = build_step (build_loop l) x.
Proof. unfold build_loop. by rewrite foldl_app. Qed.

Lemma emitted_snoc l x :
  emitted (l ++ [x]) = emitted l ++ (if skipped x then [] else [x]).
Proof.
  unfold emitted. rewrite List.filter_app. simpl. by destruct (skipped x).
Qed.

Lemma token_inj : Inj (=) (=) token.
Proof.
  intros a b H. unfold token in H.
  apply (inj (String.app "e")) in H. by apply (inj pretty) in H.
Qed.

Lemma nonEmpty_true s : Js.nonEmpty s = true ↔ s ≠ "".
Proof. destruct s; simpl; split; congruence. Qed.

Lemma has_true roles r : has roles r = true ↔ r ∈ roles.
Proof. unfold has. by rewrite bool_decide_eq_true. Qed.

(** The test of the source, [shouldHaveRef] and a numeric handle, decides
    eligibility. *)
Lemma eligible_code nd :
  eligible nd ↔
  ∃ h, AriaSnapshotNode.backendDOMNodeId nd = Some h ∧ shouldHaveRef nd = true.
Proof.
  assert (Hs : shouldHaveRef nd = true ↔
               interactive nd ∨ (content nd ∧ AriaSnapshotNode.name nd ≠ "")).
  { unfold shouldHaveRef, interactive, content, role_of. cbv zeta.
    by rewrite orb_true_iff, andb_true_iff, !has_true, nonEmpty_true. }
  unfold eligible. split.
  - intros [[h Hh] H]. exists h. by rewrite Hs.
  - intros (h & Hh & H). split; [by exists h | by apply Hs].
Qed.

Lemma token_number_app_l (em x : list AriaSnapshotNode.t) (i : nat) :
  (i ≤ length em)%nat → token_number (em ++ x) i = token_number em i.
Proof. intros Hi. unfold token_number. by rewrite take_app_le. Qed.

Lemma token_number_bound (em : list AriaSnapshotNode.t) (i : nat) nd :
  em !! i = Some nd → eligible nd →
  (token_number em i ≤ length (filter eligible em))%nat.
Proof.
  intros Hi He. unfold token_number.
  rewrite <- (take_drop_middle em i nd Hi) at 2.
  rewrite filter_app, filter_cons_True by done.
  rewrite length_app. simpl. lia.
Qed.

Lemma build_inv_step em st x :
  build_inv em st → skipped x = false →
  build_inv (em ++ [x]) (build_step st x).
Proof.
  intros [Hc Hl Hline Href Hdom] Hx.
  assert (Hlast : token_number (em ++ [x]) (length em) = S (length (filter eligible em))).
  { unfold token_number. by rewrite take_app_length. }
  unfold build_step. rewrite Hx.
  destruct (decide (eligible x)) as [He | He].
  - destruct (proj1 (eligible_code x) He) as (h & Hh & Hs). rewrite Hs, Hh.
    split; simpl.
    + rewrite filter_app, length_app, filter_cons_True by done. simpl. lia.
    + rewrite !length_app. simpl. lia.
    + intros i nd Hi. apply lookup_app_Some in Hi as [Hi | [Hge Hi]].
      * rewrite lookup_app_l by (rewrite Hl; by eapply lookup_lt_Some).
        rewrite token_number_app_l by (apply Nat.lt_le_incl; by eapply lookup_lt_Some).
        by apply Hline.
      * apply list_lookup_singleton_Some in Hi as [Hi ->].
        assert (i = length em) as -> by lia.
        rewrite lookup_app_r by lia. rewrite Hl, Nat.sub_diag. simpl.
        rewrite decide_True by done. rewrite Hlast, Hc. done.
    + intros i nd Hi Hnd. apply lookup_app_Some in Hi as [Hi | [Hge Hi]].
      * rewrite token_number_app_l by (apply Nat.lt_le_incl; by eapply lookup_lt_Some).
        rewrite lookup_insert_ne; [by apply Href |].
        fold (token (S (refCounter st))). intros Heq%token_inj.
        pose proof (token_number_bound em i nd Hi Hnd). lia.
      * apply list_lookup_singleton_Some in Hi as [Hi ->].
        assert (i = length em) as -> by lia.
        rewrite Hlast, Hc. fold (token (S (length (filter eligible em)))).
        rewrite <- Hc. by rewrite lookup_insert_eq.
    + intros key h' Hk. fold (token (S (refCounter st))) in Hk.
      destruct (decide (token (S (refCounter st)) = key)) as [<- | Hne].
      * rewrite lookup_insert_eq in Hk. injection Hk as <-.
        exists (length em), x. rewrite Hlast, Hc.
        split; [| done]. rewrite lookup_app_r by lia. by rewrite Nat.sub_diag.
      * rewrite lookup_insert_ne in Hk by done.
        destruct (Hdom key h' Hk) as (i & nd & Hi & Hnd & Hh' & ->).
        exists i, nd. split; [by apply lookup_app_l_Some |].
        rewrite token_number_app_l by (apply Nat.lt_le_incl; by eapply lookup_lt_Some).
        done.
  - assert (Hgo : match shouldHaveRef x, AriaSnapshotNode.backendDOMNodeId x with
                  | true, Some handle =>
                      mkBuild (<[ "e" +:+ pretty (S (refCounter st)) := handle]> (refs st))
                              (lines st ++ [base_line x +:+ " [@" +:+ ("e" +:+ pretty (S (refCounter st))) +:+ "]"])
                              (S (refCounter st))
                  | _, _ => mkBuild (refs st) (lines st ++ [base_line x]) (refCounter st)
                  end = mkBuild (refs st) (lines st ++ [base_line x]) (refCounter st)).
    { destruct (shouldHaveRef x) eqn:Hs; [| done].
      destruct (AriaSnapshotNode.backendDOMNodeId x) as [h |] eqn:Hh; [| done].
      exfalso. apply He, eligible_code. eauto. }
    rewrite Hgo. clear Hgo. split; simpl.
    + rewrite filter_app, length_app, filter_cons_False by done. simpl. lia.
    + rewrite !length_app. simpl. lia.
    + intros i nd Hi. apply lookup_app_Some in Hi as [Hi | [Hge Hi]].
      * rewrite lookup_app_l by (rewrite Hl; by eapply lookup_lt_Some).
        rewrite token_number_app_l by (apply Nat.lt_le_incl; by eapply lookup_lt_Some).
        by apply Hline.
      * apply list_lookup_singleton_Some in Hi as [Hi ->].
        assert (i = length em) as -> by lia.
        rewrite lookup_app_r by lia. rewrite Hl, Nat.sub_diag. simpl.
        by rewrite decide_False.
    + intros i nd Hi Hnd. apply lookup_app_Some in Hi as [Hi | [Hge Hi]].
      * rewrite token_number_app_l by (apply Nat.lt_le_incl; by eapply lookup_lt_Some).
        by apply Href.
      * apply list_lookup_singleton_Some in Hi as [Hi ->]. done.
    + intros key h' Hk.
      destruct (Hdom key h' Hk) as (i & nd & Hi & Hnd & Hh' & ->).
      exists i, nd. split; [by apply lookup_app_l_Some |].
      rewrite token_number_app_l by (apply Nat.lt_le_incl; by eapply lookup_lt_Some).
      done.
Qed.

Lemma build_loop_inv axNodes : build_inv (emitted axNodes) (build_loop axNodes).
Proof.
  induction axNodes as [| x l IH] using rev_ind.
  - split; simpl; try done.
  - rewrite build_loop_snoc, emitted_snoc.
    destruct (skipped x) eqn:Hx.
    + rewrite app_nil_r. unfold build_step. by rewrite Hx.
    + by apply build_inv_step.
Qed.

End BuildSnapshot.

Section ReferenceTokens.
Import Accessibility SnapshotSpec.

Lemma structural_roles_disjoint :
  Forall (fun r => (r ∉ INTERACTIVE_ROLES) ∧ (r ∉ CONTENT_ROLES)) STRUCTURAL_ROLES.
Proof.
  apply (bool_decide_unpack
           (Forall (fun r => (r ∉ INTERACTIVE_ROLES) ∧ (r ∉ CONTENT_ROLES))
                   STRUCTURAL_ROLES)).
  vm_compute. exact I.
Qed.

Lemma structural_not_eligible nd : structural nd → ¬ eligible nd.
Proof.
  unfold structural, eligible, interactive, content. intros Hs [_ H].
  pose proof (proj1 (Forall_forall _ _) structural_roles_disjoint _ Hs) as [Hi Hc].
  destruct H as [H | [H _]]; contradiction.
Qed.

Lemma structural_unnamed_skipped nd :
  structural nd → AriaSnapshotNode.name nd = "" → skipped nd = true.
Proof.
  unfold structural, role_of, skipped. cbv zeta. intros Hs ->.
  apply has_true in Hs. rewrite Hs. done.
Qed.

Lemma emitted_not_skipped nd axNodes : nd ∈ emitted axNodes → skipped nd = false.
Proof.
  unfold emitted. rewrite list_elem_of_In, List.filter_In.
  intros [_ H]. by apply negb_true_iff.
Qed.

(** C3.  In the snapshot built from any flattened node list, the lines are
    those of the emitted nodes, in order.  An emitted node carries a
    reference token exactly when it is eligible, that is, when it has a DOM
    handle and an interactive role, or a content role with a non-empty name:
    the token of the [i]-th emitted node is [e<k>] with [k] one more than the
    number of eligible nodes emitted before it, the line ends in [ [@e<k>]],
    and the reference map sends [e<k>] to the handle of the node; a node that
    is not eligible gets its plain line; the reference map holds nothing else.
    A node with a structural role is never eligible, and one with a structural
    role and an empty name is not emitted. *)
Theorem C3_reference_tokens (axNodes : list AriaSnapshotNode.t) :
  let em := emitted axNodes in
  ∃ (ls : list string) (refs : RefMap),
    buildSnapshot axNodes = (render_text ls, refs)
    ∧ length ls = length em
    ∧ (∀ (i : nat) nd, em !! i = Some nd →
         (eligible nd →
            ∃ h, AriaSnapshotNode.backendDOMNodeId nd = Some h
                 ∧ ls !! i = Some (base_line nd +:+ " [@" +:+ token (token_number em i) +:+ "]")
                 ∧ refs !! token (token_number em i) = Some h)
         ∧ (¬ eligible nd → ls !! i = Some (base_line nd)))
    ∧ (∀ key h, refs !! key = Some h →
         ∃ (i : nat) nd, em !! i = Some nd ∧ eligible nd
                         ∧ AriaSnapshotNode.backendDOMNodeId nd = Some h
                         ∧ key = token (token_number em i))
    ∧ (∀ nd, structural nd → ¬ eligible nd)
    ∧ (∀ nd, structural nd → AriaSnapshotNode.name nd = "" → nd ∉ em).
Proof.
  intros em. destruct (build_loop_inv axNodes) as [Hc Hl Hline Href Hdom].
  fold em in Hc, Hl, Hline, Href, Hdom.
  exists (lines (build_loop axNodes)), (Accessibility.refs (build_loop axNodes)).
  split; [reflexivity |]. split; [exact Hl |].
  split; [| split; [exact Hdom | split]].
  - intros i nd Hi. split.
    + intros He. destruct He as [[h Hh] Hrole].
      assert (He : eligible nd) by (split; [by exists h | done]).
      exists h. split; [done |]. split.
      * rewrite (Hline i nd Hi). by rewrite decide_True.
      * rewrite (Href i nd Hi He). done.
    + intros He. rewrite (Hline i nd Hi). by rewrite decide_False.
  - apply structural_not_eligible.
  - intros nd Hs Hn Hin. apply emitted_not_skipped in Hin.
    rewrite structural_unnamed_skipped in Hin; done.
Qed.

End ReferenceTokens.

(** ** C4 and C10: the explicit-stack traversal *)

Section Traversal.
Import Accessibility TraversalSpec.

Lemma nonEmpty_false s : Js.nonEmpty s = false ↔ s = "".
Proof. destruct s; simpl; split; congruence. Qed.

Lemma index_nodes_snoc l x :
  index_nodes (l ++ [x]) =
  match RawAXNode.nodeId x with
  | Some i => if Js.nonEmpty i then <[i := x]> (index_nodes l) else index_nodes l
  | None => index_nodes l
  end.
Proof. unfold index_nodes. by rewrite foldl_app. Qed.

(** The index built by the source answers as [node_by_id]. *)
Lemma index_nodes_lookup nodes i : index_nodes nodes !! i = node_by_id nodes i.
Proof.
  induction nodes as [| x l IH] using rev_ind.
  - unfold node_by_id. simpl. by destruct (decide (i = "")).
  - rewrite index_nodes_snoc. unfold node_by_id in *.
    rewrite filter_app.
    destruct (RawAXNode.nodeId x) as [j |] eqn:Hx.
    + destruct (Js.nonEmpty j) eqn:Hj.
      * apply nonEmpty_true in Hj. destruct (decide (j = i)) as [-> | Hne].
        -- rewrite lookup_insert_eq. rewrite decide_False by done.
           rewrite filter_cons_True by done. rewrite filter_nil. by rewrite last_snoc.
        -- rewrite lookup_insert_ne by done. rewrite IH.
           rewrite filter_cons_False by congruence. rewrite filter_nil. by rewrite app_nil_r.
      * apply nonEmpty_false in Hj. subst j. rewrite IH.
        destruct (decide (i = "")) as [-> | Hi]; [done |].
        rewrite filter_cons_False by congruence. rewrite filter_nil. by rewrite app_nil_r.
    + rewrite IH. destruct (decide (i = "")) as [-> | Hi]; [done |].
      rewrite filter_cons_False by congruence. rewrite filter_nil. by rewrite app_nil_r.
Qed.

Lemma add_children_elem (cs : list string) (s : gset string) i :
  i ∈ foldl (fun (s' : gset string) c => {[ c ]} ∪ s') s cs ↔ i ∈ s ∨ i ∈ cs.
Proof.
  revert s. induction cs as [| c cs IH]; intros s; simpl.
  - rewrite elem_of_nil. tauto.
  - rewrite IH, elem_of_union, elem_of_singleton, elem_of_cons. tauto.
Qed.

Lemma referenced_from_elem nodes (s : gset string) i :
  i ∈ foldl (fun (s : gset string) n =>
               foldl (fun (s' : gset string) c => {[ c ]} ∪ s') s (children_of n))
            s nodes
  ↔ i ∈ s ∨ listed nodes i.
Proof.
  unfold listed. revert s. induction nodes as [| n l IH]; intros s; simpl.
  - rewrite Exists_nil. tauto.
  - rewrite IH, add_children_elem, Exists_cons. tauto.
Qed.

(** The set built by the source holds the listed ids. *)
Lemma referenced_ids_elem nodes i : i ∈ referenced_ids nodes ↔ listed nodes i.
Proof.
  unfold referenced_ids. rewrite referenced_from_elem, elem_of_empty. tauto.
Qed.

Lemma find_filter {A} (f : A → bool) (P : A → Prop) `{!∀ x, Decision (P x)}
    (l : list A) :
  (∀ x, f x = true ↔ P x) →
  List.find f l = head (filter P l).
Proof.
  intros Hf. induction l as [| x l IH]; [done |]. simpl.
  destruct (f x) eqn:Hx.
  - rewrite filter_cons_True by by apply Hf. done.
  - rewrite filter_cons_False; [done |]. rewrite <- Hf. congruence.
Qed.

(** The root found by the source is [root_node]. *)
Lemma find_root_spec nodes : find_root nodes = root_node nodes.
Proof.
  unfold find_root, root_node. cbv zeta.
  rewrite (find_filter _ (unlisted nodes)).
  - by destruct (filter (unlisted nodes) nodes).
  - intros n. unfold unlisted. destruct (RawAXNode.nodeId n) as [i |].
    + rewrite andb_true_iff, negb_true_iff, bool_decide_eq_false,
        nonEmpty_true, referenced_ids_elem.
      split; [intros [H1 H2]; by exists i | intros (j & [= <-] & H1 & H2); done].
    + split; [done | by intros (j & [=] & _)].
Qed.

Lemma push_children_spec cs d st :
  push_children cs d st =
  map (fun c => mkEntry c (d + 1)) (List.filter Js.nonEmpty cs) ++ st.
Proof.
  unfold push_children. induction cs as [| c cs IH]; [done |]. simpl.
  rewrite IH. by destruct (Js.nonEmpty c).
Qed.

Lemma preorder_missing h nodes i d :
  node_by_id nodes i = None → preorder h nodes i d = [].
Proof. intros H. destruct h; simpl; [done |]. by rewrite H. Qed.

Lemma agree_app {A} (k : nat) (a1 a2 b1 b2 : list A) :
  take k a1 = take k a2 → take k b1 = take k b2 →
  take k (a1 ++ b1) = take k (a2 ++ b2).
Proof.
  revert a1 a2 b1 b2. induction k as [| k IH]; intros a1 a2 b1 b2 Ha Hb; [done |].
  destruct a1 as [| x a1], a2 as [| y a2]; simpl in *; try done.
  injection Ha as -> Ha. f_equal. apply IH; [done |].
  apply (f_equal (take k)) in Hb. rewrite !take_take in Hb.
  by rewrite Nat.min_l in Hb by lia.
Qed.

Lemma agree_flat_map {A B} (k : nat) (f g : A → list B) (l : list A) :
  (∀ x, take k (f x) = take k (g x)) →
  take k (flat_map f l) = take k (flat_map g l).
Proof.
  intros H. induction l as [| x l IH]; [done |]. simpl. by apply agree_app.
Qed.

(** The first [k] nodes of a visit do not depend on the cut, once the cut is
    at [k] levels or more: the node at position [j] of a pre-order visit is
    preceded by its ancestors, so it lies less than [j + 1] levels deep. *)
Lemma preorder_stable nodes (k : nat) :
  ∀ (h1 h2 : nat) i d, (k ≤ h1)%nat → (k ≤ h2)%nat →
    take k (preorder h1 nodes i d) = take k (preorder h2 nodes i d).
Proof.
  induction k as [| k IH]; intros h1 h2 i d H1 H2; [done |].
  destruct h1 as [| h1]; [lia |]. destruct h2 as [| h2]; [lia |]. simpl.
  destruct (node_by_id nodes i) as [n |]; [| done]. simpl. f_equal.
  apply agree_flat_map. intros c. apply IH; lia.
Qed.

Lemma stack_preorder_stable nodes (k h1 h2 : nat) stack :
  (k ≤ h1)%nat → (k ≤ h2)%nat →
  take k (stack_preorder h1 nodes stack) = take k (stack_preorder h2 nodes stack).
Proof.
  intros H1 H2. unfold stack_preorder. apply agree_flat_map.
  intros e. by apply preorder_stable.
Qed.

Lemma flat_map_filter_children h nodes d (cs : list string) :
  flat_map (fun e => preorder h nodes (entry_id e) (entry_depth e))
    (map (fun c => mkEntry c (d + 1))
       (List.filter Js.nonEmpty
          (List.filter (fun c => bool_decide (is_Some (index_nodes nodes !! c))) cs)))
  = flat_map (fun c => preorder h nodes c (d + 1)) cs.
Proof.
  induction cs as [| c cs IH]; [done |]. simpl.
  destruct (bool_decide (is_Some (index_nodes nodes !! c))) eqn:Hc.
  - simpl. destruct (Js.nonEmpty c) eqn:Hn.
    + simpl. by rewrite IH.
    + rewrite IH. apply nonEmpty_false in Hn. subst c.
      rewrite preorder_missing; [done |]. unfold node_by_id. by rewrite decide_True.
  - rewrite IH. apply bool_decide_eq_false in Hc.
    rewrite preorder_missing; [done |].
    rewrite <- index_nodes_lookup. by apply eq_None_not_Some.
Qed.

Lemma length_number len a : length (number len a) = length a.
Proof. revert len. induction a as [| [n d] a IH]; intros len; simpl; [done |]. by rewrite IH. Qed.

Lemma number_cons len n d rest :
  number len ((n, d) :: rest) = flatten_node len n d :: number (S len) rest.
Proof. done. Qed.

Lemma stack_preorder_cons_hit h nodes e st n :
  node_by_id nodes (entry_id e) = Some n →
  stack_preorder (S h) nodes (e :: st) =
  (n, entry_depth e)
    :: flat_map (fun c => preorder h nodes c (entry_depth e + 1)) (children_of n)
    ++ stack_preorder (S h) nodes st.
Proof. intros H. unfold stack_preorder. simpl. by rewrite H. Qed.

(** The loop of the source computes the visit of its stack, cut at the room
    left in [out]; it ends within one iteration per node added and one for
    the exit test. *)
Lemma dfs_loop_spec nodes limit :
  ∀ (fuel : nat) stack out (h : nat),
    (Z.to_nat limit - length out < fuel)%nat →
    (Z.to_nat limit - length out ≤ h)%nat →
    Forall (resolves nodes) stack →
    dfs_loop fuel (index_nodes nodes) limit stack out =
    Some (out ++ number (length out)
                   (take (Z.to_nat limit - length out) (stack_preorder h nodes stack))).
Proof.
  induction fuel as [| fuel IH]; intros stack out h Hfuel Hh Hres; [lia |].
  cbn [dfs_loop]. destruct stack as [| e stack'].
  { unfold stack_preorder. cbn [flat_map]. rewrite take_nil. cbn [number].
    by rewrite app_nil_r. }
  destruct (Z.of_nat (length out) <? limit)%Z eqn:Hlim; cbn [negb].
  2: { apply Z.ltb_ge in Hlim.
       replace (Z.to_nat limit - length out)%nat with 0%nat by lia.
       rewrite take_0. cbn [number]. by rewrite app_nil_r. }
  apply Z.ltb_lt in Hlim.
  apply Forall_cons in Hres as [He Hres]. unfold resolves in He.
  rewrite index_nodes_lookup. destruct He as [n Hn]. rewrite Hn.
  destruct h as [| h]; [lia |].
  remember (Z.to_nat limit - length out)%nat as r eqn:Hr.
  destruct r as [| r]; [lia |]. cbv zeta.
  rewrite push_children_spec.
  rewrite (IH _ _ h).
  - rewrite length_app, Nat.add_1_r. simpl length.
    replace (Z.to_nat limit - S (length out))%nat with r by lia.
    rewrite (stack_preorder_cons_hit h nodes e stack' n Hn).
    rewrite firstn_cons, number_cons, <- app_assoc.
    change ([flatten_node (length out) n (entry_depth e)] ++ ?l)
      with (flatten_node (length out) n (entry_depth e) :: l).
    do 4 f_equal.
    unfold stack_preorder at 1. rewrite flat_map_app.
    rewrite flat_map_filter_children.
    apply agree_app; [done |].
    apply stack_preorder_stable; lia.
  - rewrite length_app. simpl. lia.
  - rewrite length_app. simpl. lia.
  - apply Forall_app. split; [| done].
    apply Forall_forall. intros e' He'.
    apply list_elem_of_fmap in He' as (c & -> & Hc).
    apply list_elem_of_In, List.filter_In in Hc as [Hc _].
    apply List.filter_In in Hc as [_ Hc]. apply bool_decide_eq_true in Hc.
    unfold resolves. simpl. by rewrite <- index_nodes_lookup.
Qed.

(** The id the source starts from stands for a node. *)
Lemma root_id_resolves nodes i : root_id nodes = Some i → is_Some (node_by_id nodes i).
Proof.
  unfold root_id. destruct (root_node nodes) as [r |] eqn:Hr; [| done].
  destruct (RawAXNode.nodeId r) as [j |] eqn:Hj; [| done].
  destruct (decide (j = "")) as [| Hne]; [done |]. intros [= <-].
  assert (Hin : r ∈ nodes).
  { unfold root_node in Hr. destruct (filter (unlisted nodes) nodes) as [| r' l] eqn:Hf.
    - by apply head_Some_elem_of.
    - injection Hr as ->. assert (Hm : r ∈ filter (unlisted nodes) nodes) by (rewrite Hf; left).
      by apply list_elem_of_filter in Hm as [_ Hm]. }
  unfold node_by_id. rewrite decide_False by done.
  assert (Hm : r ∈ filter (fun n => RawAXNode.nodeId n = Some j) nodes)
    by (apply list_elem_of_filter; done).
  destruct (filter (fun n => RawAXNode.nodeId n = Some j) nodes) as [| a l] using rev_ind.
  - by apply not_elem_of_nil in Hm.
  - rewrite last_snoc. by eexists.
Qed.

(** The source in terms of the visit: for every fuel above the limit. *)
Lemma formatAriaSnapshot_fuel_spec nodes limit (fuel h : nat) :
  (Z.to_nat limit < fuel)%nat → (Z.to_nat limit ≤ h)%nat →
  formatAriaSnapshot_fuel fuel nodes limit =
  Some (number 0 (take (Z.to_nat limit)
                    (match root_id nodes with
                     | Some i => preorder h nodes i 0
                     | None => []
                     end))).
Proof.
  intros Hfuel Hh. unfold formatAriaSnapshot_fuel. cbv zeta.
  rewrite find_root_spec.
  pose proof (root_id_resolves nodes) as Hres. unfold root_id in *.
  destruct (root_node nodes) as [r |]; [| by rewrite take_nil].
  destruct (RawAXNode.nodeId r) as [i |]; [| by rewrite take_nil].
  destruct (decide (i = "")) as [-> | Hi]; [by rewrite take_nil |].
  apply nonEmpty_true in Hi. rewrite Hi.
  rewrite (dfs_loop_spec nodes limit fuel _ _ h); simpl; try lia.
  - unfold stack_preorder. simpl. rewrite app_nil_r. by rewrite Nat.sub_0_r.
  - apply Forall_cons. split; [| done]. unfold resolves. simpl. by apply Hres.
Qed.

End Traversal.

Section TraversalClaims.
Import Accessibility TraversalSpec.

Lemma filter_none {A} (P : A → Prop) `{!∀ x, Decision (P x)} (l : list A) :
  Forall (fun x => ¬ P x) l → filter P l = [].
Proof.
  induction l as [| a l IH]; intros Hl; [done |].
  apply Forall_cons in Hl as [Ha Hl].
  rewrite filter_cons_False by done. by apply IH.
Qed.

Lemma filter_first {A} (P : A → Prop) `{!∀ x, Decision (P x)} (pre post : list A) r :
  P r → Forall (fun x => ¬ P x) pre →
  filter P (pre ++ r :: post) = r :: filter P post.
Proof.
  intros Hr Hpre. rewrite filter_app, filter_cons_True by done.
  by rewrite (filter_none P pre Hpre).
Qed.

Lemma root_node_first nodes pre r post :
  nodes = pre ++ r :: post → unlisted nodes r →
  Forall (fun n => ¬ unlisted nodes n) pre →
  root_node nodes = Some r.
Proof.
  intros Hn Hr Hpre. unfold root_node.
  assert (Hf : filter (unlisted nodes) nodes = r :: filter (unlisted nodes) post).
  { revert Hr Hpre. generalize (unlisted_dec nodes). generalize (unlisted nodes).
    intros P HP Hr Hpre. subst nodes. by apply filter_first. }
  by rewrite Hf.
Qed.

Lemma root_node_fallback nodes :
  Forall (fun n => ¬ unlisted nodes n) nodes → root_node nodes = head nodes.
Proof.
  intros H. unfold root_node. by rewrite (filter_none _ _ H).
Qed.

(** C4 (amended).  For every raw node list and integer limit:
    the root is the first node of the list that has a non-empty id listed
    among the children of no node of the list (its own children included);
    when the list has no such node the root is the first node of the list.
    The flattened output is the first [limit] nodes of the pre-order
    depth-first visit that starts from the id of the root (it is empty when
    the list is empty or the root has no id), where an id stands for the last
    node of the list that carries it, the children of a node are visited in
    declared order, and a child id that stands for no node is passed over.
    The nodes of the output are numbered in order.  The visit is cut
    [limit + k] levels deep, for any [k]: the output does not depend on it. *)
Theorem C4_traversal (nodes : list RawAXNode.t) (limit : Z) (k : nat) :
  (∀ pre r post, nodes = pre ++ r :: post → unlisted nodes r →
     Forall (fun n => ¬ unlisted nodes n) pre → root_node nodes = Some r)
  ∧ (Forall (fun n => ¬ unlisted nodes n) nodes → root_node nodes = head nodes)
  ∧ formatAriaSnapshot nodes limit =
    Some (number 0 (take (Z.to_nat limit)
                      (match root_id nodes with
                       | Some i => preorder (Z.to_nat limit + k) nodes i 0
                       | None => []
                       end))).
Proof.
  split; [apply root_node_first |]. split; [apply root_node_fallback |].
  unfold formatAriaSnapshot. apply formatAriaSnapshot_fuel_spec; lia.
Qed.

(** C10.  [formatAriaSnapshot] is total: for every raw node list (cyclic,
    with missing ids or with several unlisted nodes) and every integer limit
    the loop ends, within one iteration per output node and one for the exit
    test, and the list returned holds at most [limit] nodes (none for a limit
    below one); with the limit that [snapshot] passes, at most 2000. *)
Theorem C10_total_bounded (nodes : list RawAXNode.t) (limit : Z) :
  ∃ out,
    formatAriaSnapshot nodes limit = Some out
    ∧ (∀ fuel : nat, (Z.to_nat limit < fuel)%nat →
         formatAriaSnapshot_fuel fuel nodes limit = Some out)
    ∧ (Z.of_nat (length out) ≤ Z.max 0 limit)%Z
    ∧ (∀ opt, limit = snapshot_limit opt → (length out ≤ 2000)%nat).
Proof.
  eexists. split; [| split; [| split]].
  - unfold formatAriaSnapshot.
    apply (formatAriaSnapshot_fuel_spec nodes limit _ (Z.to_nat limit)); lia.
  - intros fuel Hfuel.
    apply (formatAriaSnapshot_fuel_spec nodes limit _ (Z.to_nat limit)); lia.
  - rewrite length_number, length_take.
    match goal with |- context [length ?l] => generalize (length l) end. lia.
  - intros opt ->. rewrite length_number, length_take.
    match goal with |- context [length ?l] => generalize (length l) end.
    unfold snapshot_limit. destruct opt as [l |]; lia.
Qed.

(** C4 fails as stated.  In the list [B; A], where [A] lists itself and [B],
    the id of [A] is listed among the children of no other node and the id of
    [B] is listed by another node, [A]; yet the visit starts from [B] and the
    output is [B] alone.  In the list [X; K], where [X] has no id and lists
    [K], the first node is [X] and the output is empty: neither [X] nor [K]
    is visited. *)
Lemma C4_counterexample :
  (node_A ∈ [node_B; node_A]
   ∧ (∀ m, m ∈ [node_B; node_A] → "a" ∈ children_of m → m = node_A)
   ∧ "b" ∈ children_of node_A
   ∧ node_A ≠ node_B
   ∧ formatAriaSnapshot [node_B; node_A] 10 = Some [flatten_node 0 node_B 0])
  ∧ (head [node_X; node_K] = Some node_X
     ∧ RawAXNode.nodeId node_X = None
     ∧ children_of node_X = ["k"]
     ∧ formatAriaSnapshot [node_X; node_K] 10 = Some []).
Proof.
  split; [split; [| split; [| split; [| split]]] | repeat split].
  - apply elem_of_cons. right. apply elem_of_cons. by left.
  - intros m Hm Ha. apply list_elem_of_In in Hm. simpl in Hm.
    destruct Hm as [<- | [<- | []]]; [| done].
    simpl in Ha. by apply elem_of_nil in Ha.
  - simpl. apply elem_of_cons. right. apply elem_of_cons. by left.
  - done.
  - vm_compute. reflexivity.
Qed.

End TraversalClaims.

(** ** C8: closeTab of the tab manager *)

Section CloseTab.
Import Cdp TabManager.

(** C8 (amended).  For every table of tabs and tab id, [closeTab] sends one
    close-target command.  When the command is answered, whatever the answer
    holds, [closeTab] completes and the record of the tab is gone from the
    table.  When the command fails, [closeTab] fails with the same error, and
    when it is never answered [closeTab] never completes: in both cases
    [closeTab] removes nothing, and the table is as the listeners left it
    while the command was awaited. *)
Theorem C8_closeTab (env : Env) (tabs : Tabs) (tabId : string) :
  let r := Cdp.run TabManager.deliver env (closeTab tabId) tabs in
  let awaited := TabManager.deliver (events env 0) tabs in
  sent r = [sent_command None (Target_closeTarget tabId)]
  ∧ match reply env 0 unit (Target_closeTarget tabId) with
    | Resolved _ =>
        outcome r = Done tt ∧ final r = delete tabId awaited
        ∧ getTab (final r) tabId = None
    | Rejected e => outcome r = Failed e ∧ final r = awaited
    | Unanswered => outcome r = Pending ∧ final r = awaited
    end.
Proof.
  intros r awaited. unfold r, Cdp.run, closeTab. cbn.
  destruct (reply env 0 unit (Target_closeTarget tabId)) as [[] | e |]; cbn.
  - split; [done |]. split; [done |]. split; [done |].
    unfold getTab. apply lookup_delete_eq.
  - done.
  - done.
Qed.

(** C8 fails as stated: when the close-target command fails, the record of
    the tab stays in the table. *)
Lemma C8_counterexample :
  let tab := mkTab "T1" "S1" "about:blank" "" in
  let r := Cdp.run TabManager.deliver
             (rejecting (ProtocolError "No target with given id found"))
             (closeTab "T1") {[ "T1" := tab ]} in
  outcome r = Failed (ProtocolError "No target with given id found")
  ∧ getTab (final r) "T1" = Some tab.
Proof. split; reflexivity. Qed.

End CloseTab.

(** ** C9: back and forward *)

Section History.
Import Cdp Navigation.

Lemma js_index_back {A} (l : list A) (idx : Z) (x : A) :
  js_index l (idx - 1) = Some x → (0 <? idx)%Z = true.
Proof.
  unfold js_index. destruct (idx - 1 <? 0)%Z eqn:H; [done |].
  intros _. apply Z.ltb_ge in H. apply Z.ltb_lt. lia.
Qed.

Lemma js_index_forward {A} (l : list A) (idx : Z) (x : A) :
  js_index l (idx + 1) = Some x → (idx <? Z.of_nat (length l) - 1)%Z = true.
Proof.
  unfold js_index. destruct (idx + 1 <? 0)%Z eqn:H; [done |].
  intros Hx. apply Z.ltb_ge in H. apply lookup_lt_Some in Hx.
  apply Z.ltb_lt. lia.
Qed.

(** C9.  [goBack] (respectively [goForward]) sends the command that fetches
    the navigation history.  When it is answered with a history whose entry
    list has an entry at [currentIndex - 1] (respectively
    [currentIndex + 1]), an absent index counting as 0 and an absent list as
    empty, the function sends the navigate-to-history-entry command with the
    id of that entry, and nothing else; it completes when that command is
    answered.  When the list has no entry there, the function sends nothing
    more and completes without an error. *)
Theorem C9_history_navigation (env : Env) (sessionId : option string) (back : bool) :
  let r := Cdp.run no_state env
             (if back then goBack sessionId else goForward sessionId) tt in
  match reply env 0 _ Page_getNavigationHistory with
  | Resolved history =>
      let idx := match currentIndex history with Some i => i | None => 0%Z end in
      let entries := match entries history with Some l => l | None => [] end in
      match js_index entries (if back then idx - 1 else idx + 1)%Z with
      | Some entry =>
          sent r = [sent_command sessionId Page_getNavigationHistory;
                    sent_command sessionId (Page_navigateToHistoryEntry entry)]
          ∧ (∀ u, reply env 1 _ (Page_navigateToHistoryEntry entry) = Resolved u →
                  outcome r = Done tt)
      | None =>
          sent r = [sent_command sessionId Page_getNavigationHistory]
          ∧ outcome r = Done tt
      end
  | Rejected e =>
      sent r = [sent_command sessionId Page_getNavigationHistory]
      ∧ outcome r = Failed e
  | Unanswered =>
      sent r = [sent_command sessionId Page_getNavigationHistory]
      ∧ outcome r = Pending
  end.
Proof.
  intros r. unfold r, Cdp.run. destruct back.
  - unfold goBack. cbn -[js_index Z.ltb].
    destruct (reply env 0 _ Page_getNavigationHistory) as [h | e |]; [| done | done].
    cbn -[js_index Z.ltb].
    set (idx := match currentIndex h with Some i => i | None => 0%Z end).
    set (es := match entries h with Some l => l | None => [] end).
    destruct (js_index es (idx - 1)) as [entry |] eqn:He.
    + rewrite (js_index_back _ _ _ He). cbn -[js_index Z.ltb].
      split.
      * by destruct (reply env 1 unit (Page_navigateToHistoryEntry entry)).
      * intros u ->. by destruct u.
    + by destruct (0 <? idx)%Z.
  - unfold goForward. cbn -[js_index Z.ltb].
    destruct (reply env 0 _ Page_getNavigationHistory) as [h | e |]; [| done | done].
    cbn -[js_index Z.ltb].
    set (idx := match currentIndex h with Some i => i | None => 0%Z end).
    set (es := match entries h with Some l => l | None => [] end).
    destruct (js_index es (idx + 1)) as [entry |] eqn:He.
    + rewrite (js_index_forward _ _ _ He). cbn -[js_index Z.ltb].
      split.
      * by destruct (reply env 1 unit (Page_navigateToHistoryEntry entry)).
      * intros u ->. by destruct u.
    + by destruct (idx <? Z.of_nat (length es) - 1)%Z.
Qed.

End History.

(** ** C6: waitForNetworkIdle *)

Section NetworkIdle.
Import Cdp Navigation IdleSpec.

Lemma run_wait_snoc idle trace e w :
  run_wait idle (trace ++ [e]) w = step idle (run_wait idle trace w) e.
Proof. unfold run_wait. by rewrite foldl_app. Qed.

Lemma duration_snoc trace e : duration (trace ++ [e]) = (duration trace + fst e)%N.
Proof. unfold duration. by rewrite foldl_app. Qed.

Lemma checkIdle_fields idle w :
  now (checkIdle idle w) = now w ∧ timeout (checkIdle idle w) = timeout w
  ∧ resolved (checkIdle idle w) = resolved w
  ∧ inflight (checkIdle idle w) = inflight w.
Proof. unfold checkIdle. by destruct (inflight w <=? 0)%Z. Qed.

Lemma dispatch_fields idle ev w :
  now (dispatch idle ev w) = now w ∧ timeout (dispatch idle ev w) = timeout w
  ∧ resolved (dispatch idle ev w) = resolved w.
Proof.
  unfold dispatch. destruct (resolved w) eqn:Hr; [done |].
  destruct ev; simpl; try done;
    unfold onFinish; destruct (checkIdle_fields idle
      (mkWait (now w) (Z.max 0 (inflight w - 1)) (timer w) (timeout w) (resolved w)))
      as (-> & -> & -> & _); done.
Qed.

Lemma due_bound w t d : due w t = Some d → (d ≤ timeout w)%N ∧ (d ≤ t)%N.
Proof.
  unfold due. destruct (timer w) as [i |].
  - destruct (N.min i (timeout w) <=? t)%N eqn:H; [| done].
    intros [= <-]. apply N.leb_le in H. lia.
  - destruct (timeout w <=? t)%N eqn:H; [| done].
    intros [= <-]. apply N.leb_le in H. lia.
Qed.

Lemma due_timeout w t : (timeout w ≤ t)%N → is_Some (due w t).
Proof.
  intros H. unfold due. destruct (timer w) as [i |].
  - rewrite (proj2 (N.leb_le _ _)) by lia. by eexists.
  - rewrite (proj2 (N.leb_le _ _)) by lia. by eexists.
Qed.

Lemma elapse_fields dt w :
  now (elapse dt w) = (now w + dt)%N ∧ timeout (elapse dt w) = timeout w
  ∧ inflight (elapse dt w) = inflight w.
Proof.
  unfold elapse. destruct (resolved w); [done |].
  by destruct (due w (now w + dt)).
Qed.

Lemma elapse_timely dt w : timely w → timely (elapse dt w).
Proof.
  unfold timely, elapse. intros H t.
  destruct (resolved w) as [t' |] eqn:Hr; simpl; [by apply H |].
  destruct (due w (now w + dt)) as [d |] eqn:Hd; simpl; [| done].
  intros [= <-]. by apply due_bound in Hd as [? _].
Qed.

Lemma step_fields idle w e :
  now (step idle w e) = (now w + fst e)%N ∧ timeout (step idle w e) = timeout w
  ∧ (timely w → timely (step idle w e)).
Proof.
  unfold step.
  destruct (dispatch_fields idle (snd e) (elapse (fst e) w)) as (Hn & Ht & Hr).
  destruct (elapse_fields (fst e) w) as (Hn' & Ht' & _).
  split; [congruence |]. split; [congruence |].
  intros H t. rewrite Hr, Ht. by apply elapse_timely.
Qed.

Lemma run_wait_fields idle trace w :
  now (run_wait idle trace w) = (now w + duration trace)%N
  ∧ timeout (run_wait idle trace w) = timeout w
  ∧ (timely w → timely (run_wait idle trace w)).
Proof.
  induction trace as [| e trace (IH1 & IH2 & IH3)] using rev_ind.
  - unfold duration. simpl. split; [lia | done].
  - rewrite run_wait_snoc, duration_snoc.
    destruct (step_fields idle (run_wait idle trace w) e) as (-> & -> & H).
    rewrite IH1, IH2. split; [lia |]. split; [done |]. auto.
Qed.

Lemma start_fields idle tmo t0 :
  now (start idle tmo t0) = t0 ∧ timeout (start idle tmo t0) = (t0 + tmo)%N
  ∧ resolved (start idle tmo t0) = None ∧ inflight (start idle tmo t0) = 0%Z
  ∧ timer (start idle tmo t0) = Some (t0 + idle)%N.
Proof. done. Qed.

(** Once the clock has reached the overall timer, the wait is resolved, no
    later than that timer. *)
Lemma elapse_timeout dt w :
  timely w → (timeout w ≤ now w + dt)%N →
  ∃ t, resolved (elapse dt w) = Some t ∧ (t ≤ timeout w)%N.
Proof.
  intros Hw Ht. unfold elapse.
  destruct (resolved w) as [t |] eqn:Hr; simpl.
  - exists t. split; [done | by apply Hw].
  - destruct (due_timeout w (now w + dt) Ht) as [d Hd]. rewrite Hd. simpl.
    exists d. split; [done |]. by apply due_bound in Hd as [? _].
Qed.

(** An armed idle timer fires when nothing happens for its delay. *)
Lemma elapse_idle dt w d :
  resolved w = None → timer w = Some d → (d ≤ now w + dt)%N →
  ∃ t, resolved (elapse dt w) = Some t ∧ (t ≤ d)%N.
Proof.
  intros Hr Ht Hd. unfold elapse, due. rewrite Hr, Ht.
  rewrite (proj2 (N.leb_le _ _)) by lia. simpl.
  eexists. split; [done | lia].
Qed.

(** C6 (amended).  [waitForNetworkIdle] rejects exactly when its
    [Network.enable] command is rejected, with the error of that command;
    once the command is answered it never rejects.  From then on: the wait is
    resolved no later than [timeoutMs] (default 30000) after it started,
    whatever the network does; it is resolved within [idleMs] (default 500)
    of its start, and of every finish or failure event that leaves
    the counter at zero, provided no event of any kind arrives in that
    window; a request-start event adds one to the counter and cancels the idle
    timer; a finish or failure event takes one from the counter, not below
    zero. *)
Theorem C6_network_idle (idleMs timeoutMs : option N) (enable : Reply unit)
    (t0 : N) (trace : list (N * NetEvent)) (rest : N) :
  let idle := match idleMs with Some i => i | None => 500%N end in
  let tmo := match timeoutMs with Some t => t | None => 30000%N end in
  let result := waitForNetworkIdle idleMs timeoutMs enable t0 trace rest in
  (∀ e, result = Failed e ↔ enable = Rejected e)
  ∧ (∀ u, enable = Resolved u → (tmo ≤ duration trace + rest)%N →
       ∃ t, result = Done t ∧ (t ≤ t0 + tmo)%N)
  ∧ (∀ dt, (idle ≤ dt)%N →
       ∃ t, resolved (elapse dt (start idle tmo t0)) = Some t ∧ (t ≤ t0 + idle)%N)
  ∧ (∀ w ev dt, resolved w = None → finishes ev →
       inflight (dispatch idle ev w) = 0%Z → (idle ≤ dt)%N →
       ∃ t, resolved (elapse dt (dispatch idle ev w)) = Some t
            ∧ (t ≤ now w + idle)%N)
  ∧ (∀ w, resolved w = None →
       inflight (dispatch idle RequestWillBeSent w) = (inflight w + 1)%Z
       ∧ timer (dispatch idle RequestWillBeSent w) = None)
  ∧ (∀ w ev, resolved w = None → finishes ev →
       inflight (dispatch idle ev w) = Z.max 0 (inflight w - 1)).
Proof.
  intros idle tmo result.
  split; [| split; [| split; [| split; [| split]]]].
  - intros e. unfold result, waitForNetworkIdle. fold idle tmo.
    destruct enable as [u | e' |].
    + destruct (resolved _); split; done.
    + split; congruence.
    + split; done.
  - intros u -> Hlate. unfold result, waitForNetworkIdle. fold idle tmo.
    destruct (run_wait_fields idle trace (start idle tmo t0)) as (Hnow & Htmo & Htimely).
    destruct (start_fields idle tmo t0) as (Hn0 & Ht0 & Hr0 & _).
    destruct (elapse_timeout rest (run_wait idle trace (start idle tmo t0)))
      as (t & Ht & Hle).
    + apply Htimely. intros t. by rewrite Hr0.
    + rewrite Hnow, Htmo, Hn0, Ht0. lia.
    + rewrite Ht. exists t. split; [done |]. rewrite Htmo, Ht0 in Hle. done.
  - intros dt Hdt.
    destruct (start_fields idle tmo t0) as (Hn0 & _ & Hr0 & _ & Hi0).
    destruct (elapse_idle dt (start idle tmo t0) (t0 + idle)%N Hr0 Hi0) as (t & Ht & Hle).
    + rewrite Hn0. lia.
    + by exists t.
  - intros w ev dt Hr Hev Hzero Hdt.
    assert (Hd : dispatch idle ev w = onFinish idle w).
    { unfold dispatch. rewrite Hr. by destruct Hev as [-> | ->]. }
    rewrite Hd in *.
    assert (Hi : inflight (onFinish idle w) = Z.max 0 (inflight w - 1)).
    { unfold onFinish, checkIdle. simpl. by destruct (_ <=? 0)%Z. }
    assert (Ht : timer (onFinish idle w) = Some (now w + idle)%N).
    { unfold onFinish, checkIdle. simpl. rewrite Hi in Hzero. rewrite Hzero. done. }
    assert (Hr' : resolved (onFinish idle w) = None).
    { unfold onFinish, checkIdle. simpl. by destruct (_ <=? 0)%Z. }
    assert (Hn : now (onFinish idle w) = now w).
    { unfold onFinish, checkIdle. simpl. by destruct (_ <=? 0)%Z. }
    destruct (elapse_idle dt (onFinish idle w) _ Hr' Ht) as (t & Hres & Hle).
    + rewrite Hn. lia.
    + by exists t.
  - intros w Hr. unfold dispatch. by rewrite Hr.
  - intros w ev Hr Hev. unfold dispatch. rewrite Hr.
    destruct Hev as [-> | ->]; unfold onFinish, checkIdle; simpl;
      by destruct (_ <=? 0)%Z.
Qed.

(** C6 fails as stated.  When [Network.enable] is rejected, the wait rejects.
    And with the default delays: a request starts at 100 ms and finishes at
    200 ms, so that the counter reaches zero, and no request starts after
    that; a failure event arrives at 600 ms; the wait is not resolved at
    700 ms, 500 ms after the counter reached zero: it is resolved at
    1100 ms. *)
Lemma C6_counterexample :
  let trace := [(100%N, RequestWillBeSent); (100%N, LoadingFinished);
                (400%N, LoadingFailed)] in
  waitForNetworkIdle None None (Rejected SocketNotOpen) 0 [] 30000 = Failed SocketNotOpen
  ∧ inflight (run_wait 500 (take 2 trace) (start 500 30000 0)) = 0%Z
  ∧ waitForNetworkIdle None None (Resolved tt) 0 trace 100 = Pending
  ∧ waitForNetworkIdle None None (Resolved tt) 0 trace 500 = Done 1100%N.
Proof. repeat split. Qed.

End NetworkIdle.

(** ** C7: the errors of reference resolution *)

Section References.
Import Cdp Accessibility RefSpec.

Lemma isDigit_spec c : Js.isDigit c = true ↔ digit c.
Proof.
  unfold Js.isDigit, digit. cbv zeta.
  by rewrite andb_true_iff, !Nat.leb_le.
Qed.

Lemma allDigits_spec ds :
  Js.allDigits ds = true ↔ Forall digit (list_ascii_of_string ds).
Proof.
  induction ds as [| c ds IH]; simpl.
  - split; [constructor | done].
  - rewrite andb_true_iff, Forall_cons, isDigit_spec, IH. done.
Qed.

Lemma matches_ref_spec s : matches_ref s = true ↔ is_token s.
Proof.
  unfold matches_ref, is_token. destruct s as [| c ds].
  - split; [done | by intros (ds & [=] & _)].
  - rewrite !andb_true_iff, Ascii.eqb_eq, nonEmpty_true, allDigits_spec. split.
    + intros [[-> Hne] Hd]. by exists ds.
    + intros (ds' & [= -> ->] & Hne & Hd). done.
Qed.

(** [parseRef] accepts exactly the texts whose normal form is a token, and
    returns that normal form. *)
Lemma parseRef_spec raw t :
  parseRef raw = Some t ↔ t = normalize raw ∧ is_token t.
Proof.
  unfold parseRef, normalize, strip_marker. cbv zeta.
  destruct (Js.trim raw) as [| c rest] eqn:Htrim; simpl.
  - split; [done |]. intros [-> (ds & [=] & _)].
  - assert (Hn : (if Ascii.eqb c "@" then rest else String c rest)
                 = (if decide (c = "@"%char) then rest else String c rest)).
    { destruct (Ascii.eqb_spec c "@"%char) as [-> | Hne].
      - by rewrite decide_True.
      - by rewrite decide_False. }
    rewrite Hn.
    destruct (matches_ref (if decide (c = "@"%char) then rest else String c rest)) eqn:Hm.
    + apply matches_ref_spec in Hm. split; [by intros [= <-] | by intros [-> _]].
    + split; [done |]. intros [-> Ht]. apply matches_ref_spec in Ht. congruence.
Qed.

Lemma parseRef_none raw : parseRef raw = None ↔ ¬ is_token (normalize raw).
Proof.
  split.
  - intros H Ht. assert (parseRef raw = Some (normalize raw)) by by apply parseRef_spec.
    congruence.
  - intros H. destruct (parseRef raw) as [t |] eqn:Hp; [| done].
    apply parseRef_spec in Hp as [-> Ht]. done.
Qed.

Lemma resolveRef_invalid ref refs :
  ¬ is_token (normalize ref) → Actions.resolveRef ref refs = inl (InvalidRef ref).
Proof. intros H. unfold Actions.resolveRef. by rewrite (proj2 (parseRef_none ref) H). Qed.

Lemma resolveRef_not_found ref (refs : RefMap) :
  is_token (normalize ref) → refs !! normalize ref = None →
  Actions.resolveRef ref refs = inl (RefNotFound ref).
Proof.
  intros H Hr. unfold Actions.resolveRef.
  rewrite (proj2 (parseRef_spec ref (normalize ref))) by done. by rewrite Hr.
Qed.

Lemma resolveRef_found ref (refs : RefMap) h :
  is_token (normalize ref) → refs !! normalize ref = Some h →
  Actions.resolveRef ref refs = inr h.
Proof.
  intros H Hr. unfold Actions.resolveRef.
  rewrite (proj2 (parseRef_spec ref (normalize ref))) by done. by rewrite Hr.
Qed.

(** An action whose reference does not resolve throws before it sends a
    command. *)
Lemma act_throws env a action ref e :
  Actions.resolveRef ref (ChromeAgent.refs a) = inl e →
  Cdp.run ChromeAgent.deliver env (ChromeAgent.act action ref) a
  = mkResult (Failed e) a [].
Proof.
  intros H.
  destruct action;
    unfold Cdp.run, ChromeAgent.act, ChromeAgent.click, ChromeAgent.type,
      ChromeAgent.select, ChromeAgent.check, Actions.clickRef,
      Actions.typeIntoRef, Actions.selectOption, Actions.checkRef;
    cbn -[Actions.resolveRef]; rewrite H; reflexivity.
Qed.

(** [snapshot] replaces the reference map: what the map held before plays no
    part in the state after a snapshot that completes. *)
Lemma snapshot_replaces env (b : ChromeAgent.Agent) (old1 old2 : RefMap) :
  let r1 := Cdp.run ChromeAgent.deliver env ChromeAgent.snapshot
              (ChromeAgent.set_refs old1 b) in
  let r2 := Cdp.run ChromeAgent.deliver env ChromeAgent.snapshot
              (ChromeAgent.set_refs old2 b) in
  outcome r1 = outcome r2
  ∧ (∀ text, outcome r1 = Done text → final r1 = final r2).
Proof.
  unfold Cdp.run, ChromeAgent.snapshot, ChromeAgent.axSnapshot.
  cbn -[Accessibility.formatAriaSnapshot Accessibility.buildSnapshot].
  destruct (reply env 0 unit Accessibility_enable) as [[] | e |];
    cbn -[Accessibility.formatAriaSnapshot Accessibility.buildSnapshot];
    [| by split | by split].
  destruct (reply env 1 _ Accessibility_getFullAXTree) as [nodes | e |];
    cbn -[Accessibility.formatAriaSnapshot Accessibility.buildSnapshot];
    by split.
Qed.

(** C7 (amended).  For every agent state, action (click, type, select,
    check) and reference string: the string is normalized by trimming
    surrounding white space and then dropping one leading [@]; the parser
    accepts it exactly when the normal form is the letter e followed by one or
    more digits.  When the normal form is not of that shape the action fails
    with the invalid-reference error; when it is, and is no key of the current
    reference map, the action fails with the reference-not-found error, a
    different error.  In both cases no command is sent and the state is
    unchanged.  The state holds one reference map, the current one, and a
    snapshot that completes replaces it whatever it held: a token that was a
    key of an earlier map makes no difference. *)
Theorem C7_reference_errors (env : Env) (a : ChromeAgent.Agent)
    (action : ChromeAgent.Action) (ref : string) :
  let r := Cdp.run ChromeAgent.deliver env (ChromeAgent.act action ref) a in
  (parseRef ref = None ↔ ¬ is_token (normalize ref))
  ∧ (∀ t, parseRef ref = Some t ↔ t = normalize ref ∧ is_token t)
  ∧ (¬ is_token (normalize ref) →
       r = mkResult (Failed (InvalidRef ref)) a [])
  ∧ (is_token (normalize ref) → ChromeAgent.refs a !! normalize ref = None →
       r = mkResult (Failed (RefNotFound ref)) a [])
  ∧ InvalidRef ref ≠ RefNotFound ref
  ∧ (∀ env0 (old1 old2 : RefMap),
       let r1 := Cdp.run ChromeAgent.deliver env0 ChromeAgent.snapshot
                   (ChromeAgent.set_refs old1 a) in
       let r2 := Cdp.run ChromeAgent.deliver env0 ChromeAgent.snapshot
                   (ChromeAgent.set_refs old2 a) in
       outcome r1 = outcome r2
       ∧ (∀ text, outcome r1 = Done text → final r1 = final r2)).
Proof.
  intros r. split; [apply parseRef_none |]. split; [apply parseRef_spec |].
  split; [| split; [| split; [done |]]].
  - intros H. apply act_throws. by apply resolveRef_invalid.
  - intros H Hr. apply act_throws. by apply resolveRef_not_found.
  - intros env0 old1 old2. apply snapshot_replaces.
Qed.

(** C7 fails as stated: the text of a token with a space before it does not
    have the shape e-digits, with or without a leading [@] dropped, yet it
    resolves when the token is a key of the map, and fails with the
    reference-not-found error, not the invalid-reference error, when it is
    not. *)
Lemma C7_counterexample :
  ¬ is_token (strip_marker " e1")
  ∧ Actions.resolveRef " e1" {[ "e1" := 7%Z ]} = inr 7%Z
  ∧ Actions.resolveRef " e1" ∅ = inl (RefNotFound " e1").
Proof.
  split; [| split; reflexivity].
  intros (ds & H & _). simpl in H. discriminate H.
Qed.

End References.

(** ** C5: navigation and the reference map *)

(** One step of a run: compute up to the next command or event, and close
    the goal if the run has ended. *)
Ltac run_on :=
  cbn -[Navigation.js_index Z.ltb bool_decide]; try done.

(** Case analysis on what the browser does with the command the run is
    suspended at. *)
Ltac on_reply :=
  match goal with
  | |- context [Cdp.reply ?env ?n ?A ?c] =>
      destruct (Cdp.reply env n A c) as [? | ? |]; run_on
  end.

Ltac on_event :=
  match goal with
  | |- context [Cdp.fires ?env ?n] => destruct (Cdp.fires env n); run_on
  end.

Section AgentNavigation.
Import Cdp ChromeAgent AgentSpec.

Variable env : Env.
Variable a : Agent.

Lemma refs_deliver evs : refs (deliver evs a) = refs a.
Proof. done. Qed.

Lemma currentTabId_deliver evs : currentTabId (deliver evs a) = currentTabId a.
Proof. done. Qed.

Lemma navigate_refs url :
  cleared_or_kept a (Cdp.run deliver env (navigate url) a).
Proof.
  unfold cleared_or_kept, Cdp.run, navigate, Navigation.navigate. run_on.
  do 2 on_reply. destruct (Js.truthy _); run_on. on_event. on_reply.
Qed.

Lemma back_refs : cleared_or_kept a (Cdp.run deliver env back a).
Proof.
  unfold cleared_or_kept, Cdp.run, back, Navigation.goBack. run_on. on_reply.
  match goal with |- context [(0 <? ?i)%Z] => destruct (0 <? i)%Z end; run_on.
  match goal with |- context [Navigation.js_index ?l ?i] =>
    destruct (Navigation.js_index l i) as [entry |] end; run_on.
  on_reply.
Qed.

Lemma forward_refs : cleared_or_kept a (Cdp.run deliver env forward a).
Proof.
  unfold cleared_or_kept, Cdp.run, forward, Navigation.goForward. run_on. on_reply.
  match goal with |- context [(?i <? ?j)%Z] => destruct (i <? j)%Z end; run_on.
  match goal with |- context [Navigation.js_index ?l ?i] =>
    destruct (Navigation.js_index l i) as [entry |] end; run_on.
  on_reply.
Qed.

Lemma reload_refs : cleared_or_kept a (Cdp.run deliver env reload a).
Proof.
  unfold cleared_or_kept, Cdp.run, reload, Navigation.reload. run_on.
  do 2 on_reply. on_event.
Qed.

Lemma switchTab_refs tabId :
  cleared_or_kept a (Cdp.run deliver env (switchTab tabId) a).
Proof.
  unfold cleared_or_kept, Cdp.run, switchTab. run_on.
  destruct (TabManager.getTab (tabs a) tabId); run_on.
Qed.

(** [closeTab] on a target that is the current tab: [closeTab()], or
    [closeTab(id)] with the id of the current tab. *)
Lemma closeTab_target_refs (target : option string) :
  match target with Some t => Some t | None => currentTabId a end = currentTabId a →
  cleared_or_kept a (Cdp.run deliver env (closeTab target) a).
Proof.
  intros Ht. unfold cleared_or_kept, Cdp.run, closeTab. run_on. rewrite Ht.
  destruct (currentTabId a) as [t |] eqn:Hcur; run_on.
  destruct (Js.nonEmpty t); run_on.
  unfold TabManager.closeTab. run_on. on_reply.
  rewrite Hcur. by rewrite bool_decide_eq_true_2.
Qed.

Lemma closeTab_current_refs (explicit : bool) :
  cleared_or_kept a
    (Cdp.run deliver env (closeTab (if explicit then currentTabId a else None)) a).
Proof.
  destruct explicit; apply closeTab_target_refs; [by destruct (currentTabId a) | done].
Qed.

(** C5 (amended).  For every agent state and every navigation-class
    operation on the current tab - navigate, back, forward, reload, switching
    tabs, closing the current tab - the reference map is empty when the
    operation completes, so that no reference token is valid afterwards; when
    the operation fails or never completes, the reference map is as it was
    before the operation. *)
Theorem C5_navigation_clears_refs (op : NavigationOp) :
  let r := Cdp.run deliver env (perform op a) a in
  match outcome r with
  | Done _ => refs (final r) = ∅ ∧ ∀ token, refs (final r) !! token = None
  | Failed _ | Pending => refs (final r) = refs a
  end.
Proof.
  intros r.
  assert (H : cleared_or_kept a r).
  { unfold r. destruct op; simpl perform;
      auto using navigate_refs, back_refs, forward_refs, reload_refs,
                 switchTab_refs, closeTab_current_refs. }
  unfold cleared_or_kept in H. destruct (outcome r); [| done | done].
  split; [done |]. intros token. by rewrite H.
Qed.

End AgentNavigation.

Section AgentNavigationExamples.
Import Cdp ChromeAgent AgentSpec.

(** C5 fails as stated: a navigation whose command answers with an error
    text fails, and the reference map still holds the token it held. *)
Lemma C5_counterexample :
  let a := mkAgent ∅ (Some "S1") (Some "T1") {[ "e1" := 7%Z ]} in
  let r := Cdp.run deliver navigate_error (perform (Navigate "http://nowhere.invalid") a) a in
  outcome r = Failed (NavigationFailed "net::ERR_NAME_NOT_RESOLVED")
  ∧ refs (final r) !! "e1" = Some 7%Z.
Proof. split; reflexivity. Qed.

End AgentNavigationExamples.

(** ** C1 and C2: the correlator and the teardown of the transport *)

Section ClientMaps.
Import CdpClient.

Lemma map_get_set_eq k v m : map_get k (map_set k v m) = Some v.
Proof.
  unfold map_get. induction m as [| [k' v'] m IH]; simpl.
  - by rewrite Z.eqb_refl.
  - destruct (k' =? k)%Z eqn:Hk; simpl.
    + by rewrite Z.eqb_refl.
    + by rewrite Hk.
Qed.

Lemma map_get_set_ne k k' v m : k ≠ k' → map_get k' (map_set k v m) = map_get k' m.
Proof.
  intros Hne. unfold map_get. induction m as [| [k0 v0] m IH]; simpl.
  - by rewrite (proj2 (Z.eqb_neq k k')).
  - destruct (k0 =? k)%Z eqn:Hk; simpl.
    + apply Z.eqb_eq in Hk. subst k0.
      by rewrite (proj2 (Z.eqb_neq k k')).
    + destruct (k0 =? k')%Z; [done | apply IH].
Qed.

Lemma map_get_delete_eq k m : map_get k (map_delete k m) = None.
Proof.
  unfold map_get, map_delete. induction m as [| [k0 v0] m IH]; simpl; [done |].
  destruct (k0 =? k)%Z eqn:Hk; simpl; [done |]. by rewrite Hk.
Qed.

Lemma map_get_delete_ne k k' m :
  k ≠ k' → map_get k' (map_delete k m) = map_get k' m.
Proof.
  intros Hne. unfold map_get, map_delete.
  induction m as [| [k0 v0] m IH]; simpl; [done |].
  destruct (k0 =? k)%Z eqn:Hk; simpl.
  - apply Z.eqb_eq in Hk. subst k0. by rewrite (proj2 (Z.eqb_neq k k')).
  - destruct (k0 =? k')%Z; [done | apply IH].
Qed.

Lemma settle_length p v ps : length (settle p v ps) = length ps.
Proof.
  unfold settle. destruct (ps !! p) as [[] |]; try done. by rewrite length_insert.
Qed.

Lemma settle_ne p q v ps : p ≠ q → settle p v ps !! q = ps !! q.
Proof.
  intros Hne. unfold settle. destruct (ps !! p) as [[] |]; try done.
  by rewrite list_lookup_insert_ne.
Qed.

Lemma settle_waiting p v ps : ps !! p = Some Waiting → settle p v ps !! p = Some v.
Proof.
  intros H. unfold settle. rewrite H.
  apply list_lookup_insert_eq. by eapply lookup_lt_Some.
Qed.

Lemma settle_settled p q v w ps :
  ps !! q = Some w → w ≠ Waiting → settle p v ps !! q = Some w.
Proof.
  intros H Hw. destruct (decide (p = q)) as [-> | Hne].
  - unfold settle. rewrite H. by destruct w.
  - by rewrite settle_ne.
Qed.

Lemma reject_all_settled err m ps q w :
  ps !! q = Some w → w ≠ Waiting → reject_all err m ps !! q = Some w.
Proof.
  unfold reject_all. revert ps. induction m as [| e m IH]; intros ps H Hw; simpl; [done |].
  apply IH; [| done]. by apply settle_settled.
Qed.

(** Every waiting promise of a pending command is rejected with [err]. *)
Lemma reject_all_pending err m ps k p :
  (k, p) ∈ m → ps !! p = Some Waiting →
  reject_all err m ps !! p = Some (RejectedWith err).
Proof.
  unfold reject_all. revert ps. induction m as [| e m IH]; intros ps Hin H; simpl.
  - by apply not_elem_of_nil in Hin.
  - destruct (decide (snd e = p)) as [He | He].
    + apply (reject_all_settled err m); [| done]. rewrite He. by apply settle_waiting.
    + apply elem_of_cons in Hin as [Heq | Hin]; [by subst e |].
      apply IH; [done |]. by rewrite settle_ne.
Qed.

(** A promise of no pending command is left as it is. *)
Lemma reject_all_other err m ps q :
  (∀ k, (k, q) ∉ m) → reject_all err m ps !! q = ps !! q.
Proof.
  unfold reject_all. revert ps. induction m as [| [k p] m IH]; intros ps Hq; simpl; [done |].
  rewrite IH.
  - apply settle_ne. intros ->. apply (Hq k). left.
  - intros k' Hin. apply (Hq k'). by right.
Qed.

End ClientMaps.

Section ClientInvariant.
Import CdpClient ClientInv.

Lemma run_snoc c evs ev : run c (evs ++ [ev]) = step (run c evs) ev.
Proof. unfold run. by rewrite foldl_app. Qed.

Lemma wf_create rs : wf (create rs).
Proof. split; simpl; intros; done. Qed.

Lemma wf_send c method params ses : wf c → wf (send c method params ses).
Proof.
  intros [Hids Hwait Hinj]. unfold send.
  destruct (bool_decide (readyState c = OPEN)); simpl.
  - split; simpl.
    + intros k p H. destruct (decide (nextId c = k)) as [<- | Hne].
      * rewrite map_get_set_eq in H. injection H as <-.
        rewrite length_app. simpl. lia.
      * rewrite map_get_set_ne in H by done. destruct (Hids k p H).
        rewrite length_app. simpl. lia.
    + intros k p H. destruct (decide (nextId c = k)) as [<- | Hne].
      * rewrite map_get_set_eq in H. injection H as <-.
        rewrite lookup_app_r by lia. by rewrite Nat.sub_diag.
      * rewrite map_get_set_ne in H by done.
        rewrite lookup_app_l by (by destruct (Hids k p H)). by eapply Hwait.
    + intros k1 k2 p H1 H2.
      destruct (decide (nextId c = k1)) as [<- | Hne1];
        destruct (decide (nextId c = k2)) as [<- | Hne2]; [done | | |].
      * rewrite map_get_set_eq in H1. injection H1 as <-.
        rewrite map_get_set_ne in H2 by done. destruct (Hids _ _ H2). lia.
      * rewrite map_get_set_eq in H2. injection H2 as <-.
        rewrite map_get_set_ne in H1 by done. destruct (Hids _ _ H1). lia.
      * rewrite map_get_set_ne in H1, H2 by done. by eapply Hinj.
  - split; simpl.
    + intros k p H. destruct (Hids k p H). rewrite length_app. simpl. lia.
    + intros k p H. rewrite lookup_app_l by (by destruct (Hids k p H)). by eapply Hwait.
    + done.
Qed.

Lemma wf_onMessage c data : wf c → wf (onMessage c data).
Proof.
  intros Hwf. pose proof Hwf as [Hids Hwait Hinj]. unfold onMessage.
  destruct data as [msg |]; [| done].
  destruct (msg_id msg) as [id |].
  - destruct (map_get id (pending c)) as [p |] eqn:Hp; [| done].
    set (outcome := match msg_error msg with
                    | Some (Some message) =>
                        if Js.nonEmpty message then RejectedWith (Cdp.ProtocolError message)
                        else Fulfilled (msg_result msg)
                    | _ => Fulfilled (msg_result msg)
                    end).
    split; simpl.
    + intros k q H. destruct (decide (id = k)) as [<- | Hne].
      * by rewrite map_get_delete_eq in H.
      * rewrite map_get_delete_ne in H by done. rewrite settle_length. by apply Hids.
    + intros k q H. destruct (decide (id = k)) as [<- | Hne].
      * by rewrite map_get_delete_eq in H.
      * rewrite map_get_delete_ne in H by done.
        rewrite settle_ne; [by eapply Hwait |].
        intros <-. apply Hne. by eapply Hinj.
    + intros k1 k2 q H1 H2.
      destruct (decide (id = k1)) as [<- | Hne1];
        [by rewrite map_get_delete_eq in H1 |].
      destruct (decide (id = k2)) as [<- | Hne2];
        [by rewrite map_get_delete_eq in H2 |].
      rewrite map_get_delete_ne in H1, H2 by done. by eapply Hinj.
  - destruct (msg_method msg) as [method |]; [| done].
    destruct (Js.nonEmpty method); [| done].
    unfold dispatchEvent. destruct (listeners c !! method); [| done].
    split; simpl; done.
Qed.

Lemma wf_no_pending c' :
  pending c' = [] → wf c'.
Proof. intros H. split; rewrite H; done. Qed.

Lemma wf_step c ev : wf c → wf (step c ev).
Proof.
  intros Hwf. destruct ev; simpl.
  - by apply wf_send.
  - destruct Hwf. split; simpl; done.
  - unfold off. destruct (listeners c !! event); [| done].
    destruct Hwf. split; simpl; done.
  - by apply wf_no_pending.
  - destruct (bool_decide (readyState c = CONNECTING)); [| done].
    destruct Hwf. split; simpl; done.
  - by apply wf_onMessage.
  - by apply wf_no_pending.
  - by apply wf_no_pending.
Qed.

Lemma wf_run c evs : wf c → wf (run c evs).
Proof.
  induction evs as [| ev evs IH] using rev_ind; [done |].
  intros H. rewrite run_snoc. by apply wf_step, IH.
Qed.

(** A pending command stays pending, with its promise, through every event
    that is neither a teardown nor a response to it. *)
Lemma pending_step c ev n p :
  wf c → map_get n (pending c) = Some p →
  ¬ teardown ev → ¬ response_to n ev →
  map_get n (pending (step c ev)) = Some p.
Proof.
  intros [Hids _ _] Hn Ht Hr. destruct ev; simpl in *; try done.
  - unfold send. destruct (bool_decide (readyState c = OPEN)); simpl; [| done].
    rewrite map_get_set_ne; [done |]. destruct (Hids n p Hn). lia.
  - unfold off. by destruct (listeners c !! event).
  - by destruct (bool_decide (readyState c = CONNECTING)).
  - unfold onMessage. destruct data as [msg |]; [| done].
    destruct (msg_id msg) as [id |].
    + destruct (map_get id (pending c)); [| done]. simpl.
      rewrite map_get_delete_ne; [done | congruence].
    + destruct (msg_method msg) as [method |]; [| done].
      destruct (Js.nonEmpty method); [| done].
      unfold dispatchEvent. by destruct (listeners c !! method).
Qed.

Lemma pending_run evs : ∀ c n p,
  wf c → map_get n (pending c) = Some p →
  Forall (fun ev => ¬ teardown ev ∧ ¬ response_to n ev) evs →
  map_get n (pending (run c evs)) = Some p.
Proof.
  induction evs as [| ev evs IH] using rev_ind; intros c n p Hwf Hn Hall; [done |].
  apply Forall_app in Hall as [Hall Hev]. apply Forall_singleton in Hev as [Ht Hr].
  rewrite run_snoc. apply pending_step; [by apply wf_run | by apply IH | done | done].
Qed.

Lemma outcome_of_code msg :
  match msg_error msg with
  | Some (Some message) =>
      if Js.nonEmpty message then RejectedWith (Cdp.ProtocolError message)
      else Fulfilled (msg_result msg)
  | _ => Fulfilled (msg_result msg)
  end = outcome_of msg.
Proof.
  unfold outcome_of. destruct (msg_error msg) as [[message |] |]; try done.
  destruct (decide (message = "")) as [-> | Hne]; [done |]. by destruct message.
Qed.

Lemma closed_step c ev : closed c → closed (step c ev).
Proof.
  unfold closed. intros H. destruct ev; simpl.
  - unfold send. by destruct (bool_decide (readyState c = OPEN)).
  - done.
  - unfold off. by destruct (listeners c !! event).
  - destruct H as [-> | ->]; simpl; auto.
  - rewrite bool_decide_eq_false_2; [done |]. destruct H as [-> | ->]; done.
  - unfold onMessage. destruct data as [msg |]; [| done].
    destruct (msg_id msg) as [id |].
    + by destruct (map_get id (pending c)).
    + destruct (msg_method msg) as [method |]; [| done].
      destruct (Js.nonEmpty method); [| done].
      unfold dispatchEvent. by destruct (listeners c !! method).
  - destruct H as [-> | ->]; simpl; auto.
  - simpl; auto.
Qed.

Lemma closed_run c evs : closed c → closed (run c evs).
Proof.
  induction evs as [| ev evs IH] using rev_ind; [done |].
  intros H. rewrite run_snoc. by apply closed_step, IH.
Qed.

Lemma closed_send c method params ses :
  closed c → send c method params ses = rejected_send c.
Proof.
  intros H. unfold send. rewrite bool_decide_eq_false_2; [done |].
  destruct H as [H | H]; rewrite H; done.
Qed.

Lemma closed_step_quiet c ev :
  closed c →
  transmitted (step c ev) = transmitted c ∧ nextId (step c ev) = nextId c.
Proof.
  intros H. destruct ev; simpl; try done.
  - by rewrite closed_send.
  - unfold off. by destruct (listeners c !! event).
  - by destruct (bool_decide (readyState c = CONNECTING)).
  - unfold onMessage. destruct data as [msg |]; [| done].
    destruct (msg_id msg) as [id |].
    + by destruct (map_get id (pending c)).
    + destruct (msg_method msg) as [method |]; [| done].
      destruct (Js.nonEmpty method); [| done].
      unfold dispatchEvent. by destruct (listeners c !! method).
Qed.

Lemma closed_run_quiet c evs :
  closed c →
  transmitted (run c evs) = transmitted c ∧ nextId (run c evs) = nextId c.
Proof.
  intros H. induction evs as [| ev evs [IH1 IH2]] using rev_ind; [done |].
  rewrite run_snoc.
  destruct (closed_step_quiet (run c evs) ev (closed_run c evs H)) as [H1 H2].
  split; congruence.
Qed.

Lemma teardown_closed c ev : teardown ev → closed (step c ev).
Proof.
  unfold closed. destruct ev; simpl; try done; intros _.
  - destruct (readyState c); simpl; auto.
  - destruct (readyState c); simpl; auto.
  - auto.
Qed.

End ClientInvariant.

Section ClientClaims.
Import CdpClient ClientInv.

(** C1 (amended).  Take any connection, created on any socket, after any
    events [before]; let it be open, and let a call of [send] be made: it is
    assigned the id [n], its frame is transmitted and it returns the promise
    [p], which waits.  After any further events [after] - calls of [send],
    [on] and [off], responses to other commands in any order, events - that
    hold no teardown and no response to [n], the promise [p] still waits, and
    a response [msg] with id [n] settles exactly [p]: it rejects [p] with the
    message of the protocol when it carries an error payload with a non-empty
    message, and fulfils [p] with the result otherwise; every other promise
    and every other pending command is left as it was, and nothing is
    transmitted.  A response whose id matches no pending command leaves the
    client as it was. *)
Theorem C1_response_correlation
    (rs : ReadyState) (before after : list Event)
    (method : string) (params : option Json) (sessionId : option string)
    (msg : CdpMessage) :
  let c1 := run (create rs) before in
  let n := nextId c1 in
  let p := length (promises c1) in
  let c2 := send c1 method params sessionId in
  let c3 := run c2 after in
  let c4 := onMessage c3 (Some msg) in
  readyState c1 = OPEN →
  Forall (fun ev => ¬ teardown ev ∧ ¬ response_to n ev) after →
  msg_id msg = Some n →
  (transmitted c2 =
     transmitted c1
       ++ [mkFrame n method params (if Js.truthy sessionId then sessionId else None)]
   ∧ map_get n (pending c2) = Some p
   ∧ promises c2 = promises c1 ++ [Waiting])
  ∧ (map_get n (pending c3) = Some p ∧ promises c3 !! p = Some Waiting)
  ∧ (promises c4 !! p = Some (outcome_of msg)
     ∧ (∀ q : nat, q ≠ p → promises c4 !! q = promises c3 !! q)
     ∧ map_get n (pending c4) = None
     ∧ (∀ m : Z, m ≠ n → map_get m (pending c4) = map_get m (pending c3))
     ∧ transmitted c4 = transmitted c3
     ∧ calls c4 = calls c3)
  ∧ (∀ (c : Client) (m : Z) (other : CdpMessage),
       msg_id other = Some m → map_get m (pending c) = None →
       onMessage c (Some other) = c).
Proof.
  intros c1 n p c2 c3 c4 Hopen Hafter Hid.
  assert (Hwf1 : wf c1) by apply wf_run, wf_create.
  assert (Hc2 : c2 = mkClient (readyState c1) (n + 1)
                       (map_set n p (pending c1)) (listeners c1)
                       (promises c1 ++ [Waiting])
                       (transmitted c1 ++ [mkFrame n method params
                          (if Js.truthy sessionId then sessionId else None)])
                       (calls c1)).
  { unfold c2, send. by rewrite Hopen. }
  assert (Hwf2 : wf c2) by apply wf_send, Hwf1.
  assert (Hp2 : map_get n (pending c2) = Some p).
  { rewrite Hc2. simpl. apply map_get_set_eq. }
  assert (Hwf3 : wf c3) by apply wf_run, Hwf2.
  assert (Hp3 : map_get n (pending c3) = Some p) by by apply pending_run.
  assert (Hw3 : promises c3 !! p = Some Waiting) by by eapply (wf_waiting c3 Hwf3).
  split; [| split; [done | split]].
  - rewrite Hc2 in *. done.
  - unfold c4, onMessage. rewrite Hid, Hp3, outcome_of_code. simpl.
    split; [by apply settle_waiting |].
    split; [intros q Hq; by apply settle_ne |].
    split; [apply map_get_delete_eq |].
    split; [intros m Hm; by apply map_get_delete_ne | done].
  - intros c m other Hm Hnone. unfold onMessage. by rewrite Hm, Hnone.
Qed.

(** A run of C1: a socket that opens, a first command, then a second
    command and its response, and last the response to the first. *)
Lemma C1_response_correlation_witness :
  let c1 := run (create CONNECTING) [SocketOpen] in
  let after :=
    [CallSend "Page.navigate" (Some "{}") None;
     SocketMessage (Some (mkMessage (Some 2%Z) None None None (Some "{}") None))] in
  let msg := mkMessage (Some 1%Z) None None None (Some "{}") None in
  let c3 := run (send c1 "Page.enable" None None) after in
  readyState c1 = OPEN
  ∧ Forall (fun ev => ¬ teardown ev ∧ ¬ response_to 1%Z ev) after
  ∧ msg_id msg = Some (nextId c1)
  ∧ promises c3 !! 0%nat = Some Waiting
  ∧ promises (onMessage c3 (Some msg)) !! 0%nat = Some (Fulfilled (Some "{}")).
Proof.
  intros c1 after msg c3.
  assert (H1 : readyState c1 = OPEN) by reflexivity.
  assert (H2 : Forall (fun ev => ¬ teardown ev ∧ ¬ response_to (nextId c1) ev) after).
  { repeat constructor; simpl; try tauto. intros H. discriminate H. }
  assert (H3 : msg_id msg = Some (nextId c1)) by reflexivity.
  pose proof (C1_response_correlation CONNECTING [SocketOpen] after
                "Page.enable" None None msg H1 H2 H3) as (_ & [_ Hw] & [Hs _] & _).
  split; [exact H1 |]. split; [exact H2 |]. split; [exact H3 |].
  split; [exact Hw | exact Hs].
Defined.

(** C1 fails as stated: a response that carries an error payload without a
    message, or with the empty message, fulfils the promise of its command. *)
Lemma C1_counterexample :
  let c := send (create OPEN) "Page.enable" None None in
  let no_message := mkMessage (Some 1%Z) None None None None (Some None) in
  let empty_message := mkMessage (Some 1%Z) None None None None (Some (Some "")) in
  map_get 1%Z (pending c) = Some 0%nat
  ∧ promises c !! 0%nat = Some Waiting
  ∧ promises (onMessage c (Some no_message)) !! 0%nat = Some (Fulfilled None)
  ∧ promises (onMessage c (Some empty_message)) !! 0%nat = Some (Fulfilled None).
Proof. repeat split. Qed.

(** C2 (amended).  For every client: a socket close rejects every command
    pending at that moment with the socket-closed error, and a socket error
    rejects it with the error of the socket, and the promises of other
    commands are left as they are; each of the three teardowns - a
    socket close, a socket error, a call of [close] - empties the map of
    pending commands, keeps the registrations of listeners, and leaves the
    socket closing or closed; after a teardown and any further events the
    socket is still closing or closed, nothing more has been transmitted and
    no id has been assigned, and a call of [send] only returns a promise
    rejected with the socket-not-open error. *)
Theorem C2_teardown (c : Client) :
  (∀ (k : Z) (p : nat), (k, p) ∈ pending c → promises c !! p = Some Waiting →
     promises (step c SocketCloseEvent) !! p = Some (RejectedWith Cdp.SocketClosed)
     ∧ ∀ err, promises (step c (SocketErrorEvent err)) !! p
              = Some (RejectedWith (Cdp.SocketError err)))
  ∧ (∀ q : nat, (∀ k, (k, q) ∉ pending c) →
       promises (step c SocketCloseEvent) !! q = promises c !! q
       ∧ ∀ err, promises (step c (SocketErrorEvent err)) !! q = promises c !! q)
  ∧ (∀ ev, teardown ev →
       pending (step c ev) = []
       ∧ listeners (step c ev) = listeners c
       ∧ closed (step c ev)
       ∧ transmitted (step c ev) = transmitted c)
  ∧ (∀ ev evs, teardown ev →
       let c' := run (step c ev) evs in
       closed c'
       ∧ transmitted c' = transmitted c
       ∧ nextId c' = nextId c
       ∧ ∀ method params sessionId,
           send c' method params sessionId = rejected_send c').
Proof.
  split; [| split; [| split]].
  - intros k p Hin Hw. split; [| intros err]; simpl; by eapply reject_all_pending.
  - intros q Hq. split; [| intros err]; simpl; by apply reject_all_other.
  - intros ev Hev. split; [| split; [| split]].
    + by destruct ev.
    + by destruct ev.
    + by apply teardown_closed.
    + by destruct ev.
  - intros ev evs Hev c'.
    assert (Hc : closed (step c ev)) by by apply teardown_closed.
    assert (Hc' : closed c') by by apply closed_run.
    destruct (closed_run_quiet (step c ev) evs Hc) as [Ht Hn].
    split; [done |]. split; [| split].
    + unfold c'. rewrite Ht. by destruct ev.
    + unfold c'. rewrite Hn. by destruct ev.
    + intros method params ses. by apply closed_send.
Qed.

(** C2 fails as stated.  On a client with a listener registered and a
    command pending: a socket close keeps the registration; a call of
    [close] leaves the promise of the pending command waiting, and it still
    waits after the socket close that follows; a socket error rejects the
    promise with the error of the socket, not with the socket-closed error. *)
Lemma C2_counterexample :
  let c := send (on (create OPEN) "Page.loadEventFired" 0) "Page.enable" None None in
  pending c = [(1%Z, 0%nat)]
  ∧ promises c = [Waiting]
  ∧ listeners (step c SocketCloseEvent) !! "Page.loadEventFired" = Some [0%nat]
  ∧ promises (step c CallClose) = [Waiting]
  ∧ promises (run c [CallClose; SocketCloseEvent]) = [Waiting]
  ∧ promises (step c (SocketErrorEvent "ECONNRESET"))
    = [RejectedWith (Cdp.SocketError "ECONNRESET")].
Proof. repeat split. Qed.

End ClientClaims.

(** ** Further properties of the client *)

Section ClientIds.
Import CdpClient ClientInv ClientProps.

Lemma numbered_step c ev : numbered c → numbered (step c ev).
Proof.
  intros [Hids Hnext]. destruct ev; simpl; try done.
  - unfold send. destruct (bool_decide (readyState c = OPEN)); simpl; [| done].
    unfold numbered. simpl. split.
    + rewrite List.map_app, length_app, Hids. simpl.
      rewrite Nat.add_1_r, List.seq_S, List.map_app. simpl. rewrite Hnext.
      do 3 f_equal. lia.
    + rewrite length_app. simpl. lia.
  - unfold off. by destruct (listeners c !! event).
  - by destruct (bool_decide (readyState c = CONNECTING)).
  - unfold onMessage. destruct data as [msg |]; [| done].
    destruct (msg_id msg) as [id |].
    + by destruct (map_get id (pending c)).
    + destruct (msg_method msg) as [method |]; [| done].
      destruct (Js.nonEmpty method); [| done].
      unfold dispatchEvent. by destruct (listeners c !! method).
Qed.

(** X1.  Command ids count up from 1: on every connection, after any calls and
    socket events, the frames transmitted carry the ids 1, 2, 3, ... in
    order, and the id the next [send] will use is one more than their
    number. *)
Theorem frame_ids_count_up (rs : ReadyState) (evs : list Event) :
  let c := run (create rs) evs in
  map frame_id (transmitted c) = map Z.of_nat (seq 1 (length (transmitted c)))
  ∧ nextId c = (Z.of_nat (length (transmitted c)) + 1)%Z.
Proof.
  intros c. change (numbered c). unfold c.
  induction evs as [| ev evs IH] using rev_ind; [done |].
  rewrite run_snoc. by apply numbered_step.
Qed.

(** X2.  An id is never reused while it is pending: on every connection, after
    any calls and socket events, the id the next [send] will use is not
    pending, every pending id was assigned before, the promise of a pending
    command waits, and two pending ids never share a promise. *)
Theorem pending_ids_fresh (rs : ReadyState) (evs : list Event) :
  let c := run (create rs) evs in
  map_get (nextId c) (pending c) = None
  ∧ (∀ k p, map_get k (pending c) = Some p →
       (k < nextId c)%Z ∧ promises c !! p = Some Waiting)
  ∧ (∀ k1 k2 p, map_get k1 (pending c) = Some p →
       map_get k2 (pending c) = Some p → k1 = k2).
Proof.
  intros c. assert (Hwf : wf c) by apply wf_run, wf_create.
  destruct Hwf as [Hids Hwait Hinj]. split; [| split].
  - destruct (map_get (nextId c) (pending c)) as [p |] eqn:Hp; [| done].
    destruct (Hids _ _ Hp). lia.
  - intros k p Hk. split; [by destruct (Hids k p Hk) | by eapply Hwait].
  - exact Hinj.
Qed.

End ClientIds.

Section ClientPromises.
Import CdpClient ClientInv ClientProps.

Lemma settled_step c ev (p : nat) v :
  promises c !! p = Some v → v ≠ Waiting → promises (step c ev) !! p = Some v.
Proof.
  intros Hp Hv. destruct ev; simpl; try done.
  - unfold send. destruct (bool_decide (readyState c = OPEN)); simpl;
      by apply lookup_app_l_Some.
  - unfold off. by destruct (listeners c !! event).
  - by destruct (bool_decide (readyState c = CONNECTING)).
  - unfold onMessage. destruct data as [msg |]; [| done].
    destruct (msg_id msg) as [id |].
    + destruct (map_get id (pending c)) as [q |]; [| done]. simpl.
      by apply settle_settled.
    + destruct (msg_method msg) as [method |]; [| done].
      destruct (Js.nonEmpty method); [| done].
      unfold dispatchEvent. by destruct (listeners c !! method).
  - by apply reject_all_settled.
  - by apply reject_all_settled.
Qed.

(** X3.  A promise is settled at most once: once a promise returned by [send] is
    fulfilled or rejected, no later call or socket event changes it. *)
Theorem settled_is_final (c : Client) (evs : list Event) (p : nat) (v : Promise) :
  promises c !! p = Some v → v ≠ Waiting →
  promises (run c evs) !! p = Some v.
Proof.
  intros Hp Hv. induction evs as [| ev evs IH] using rev_ind; [done |].
  rewrite run_snoc. by apply settled_step.
Qed.

Lemma settled_is_final_witness :
  let c := onMessage (send (create OPEN) "Page.enable" None None)
             (Some (mkMessage (Some 1%Z) None None None (Some "{}") None)) in
  let evs := [SocketMessage (Some (mkMessage (Some 1%Z) None None None None
                                     (Some (Some "late"))));
              SocketCloseEvent] in
  promises c !! 0%nat = Some (Fulfilled (Some "{}"))
  ∧ promises (run c evs) !! 0%nat = Some (Fulfilled (Some "{}")).
Proof.
  intros c evs.
  assert (H : promises c !! 0%nat = Some (Fulfilled (Some "{}"))) by reflexivity.
  split; [exact H |].
  apply (settled_is_final c evs 0 (Fulfilled (Some "{}")) H). discriminate.
Defined.

Lemma torn_down_step c ev :
  torn_down c →
  torn_down (step c ev)
  ∧ ∀ (p : nat) v, promises c !! p = Some v → promises (step c ev) !! p = Some v.
Proof.
  intros [Hc Hp]. split; [split |].
  - by apply closed_step.
  - destruct ev; simpl; try done.
    + by rewrite closed_send.
    + unfold off. by destruct (listeners c !! event).
    + by destruct (bool_decide (readyState c = CONNECTING)).
    + unfold onMessage. destruct data as [msg |]; [| done].
      destruct (msg_id msg) as [id |].
      * rewrite Hp. done.
      * destruct (msg_method msg) as [method |]; [| done].
        destruct (Js.nonEmpty method); [| done].
        unfold dispatchEvent. by destruct (listeners c !! method).
  - intros p v Hv. destruct ev; simpl; try done.
    + rewrite closed_send by done. simpl. by apply lookup_app_l_Some.
    + unfold off. by destruct (listeners c !! event).
    + by destruct (bool_decide (readyState c = CONNECTING)).
    + unfold onMessage. destruct data as [msg |]; [| done].
      destruct (msg_id msg) as [id |].
      * rewrite Hp. done.
      * destruct (msg_method msg) as [method |]; [| done].
        destruct (Js.nonEmpty method); [| done].
        unfold dispatchEvent. by destruct (listeners c !! method).
    + by rewrite Hp.
    + by rewrite Hp.
Qed.

Lemma teardown_torn_down c ev : teardown ev → torn_down (step c ev).
Proof.
  intros H. split; [by apply teardown_closed | by destruct ev].
Qed.

(** X4.  A teardown is final and happens once: after a socket close, a socket
    error or a call of [close], whatever follows - further socket errors and
    closes, late responses, calls of [send] - no command is pending again
    and no promise that existed at the teardown changes; in particular the
    promises left waiting by [close] wait for ever. *)
Theorem teardown_is_final (c : Client) (ev : Event) (evs : list Event) :
  teardown ev →
  let c' := step c ev in
  pending (run c' evs) = []
  ∧ ∀ (p : nat) v, promises c' !! p = Some v → promises (run c' evs) !! p = Some v.
Proof.
  intros Hev c'. assert (H0 : torn_down c') by by apply teardown_torn_down.
  assert (H : torn_down (run c' evs)
              ∧ ∀ (p : nat) v, promises c' !! p = Some v →
                               promises (run c' evs) !! p = Some v).
  { induction evs as [| e evs [IH1 IH2]] using rev_ind; [done |].
    rewrite run_snoc. destruct (torn_down_step (run c' evs) e IH1) as [H1 H2].
    split; [done |]. intros p v Hp. by apply H2, IH2. }
  destruct H as [[_ Hp] Hs]. done.
Qed.

Lemma teardown_is_final_witness :
  let c := send (create OPEN) "Page.enable" None None in
  let evs := [SocketCloseEvent;
              SocketMessage (Some (mkMessage (Some 1%Z) None None None (Some "{}") None));
              CallSend "Page.reload" None None] in
  teardown CallClose
  ∧ promises (step c CallClose) !! 0%nat = Some Waiting
  ∧ pending (run (step c CallClose) evs) = []
  ∧ promises (run (step c CallClose) evs) !! 0%nat = Some Waiting.
Proof.
  intros c evs.
  destruct (teardown_is_final c CallClose evs I) as [H1 H2].
  split; [exact I |]. split; [reflexivity |]. split; [exact H1 |].
  apply H2. reflexivity.
Defined.

End ClientPromises.

Section ClientListeners.
Import CdpClient ClientInv ClientProps.




(** X6.  The registry of listeners is a set per event: after [on(event, h)] the
    handler is registered for the event, and registering it again changes
    nothing; after [off(event, h)] it is not registered; neither call changes
    the registration of another handler or for another event. *)
Theorem on_off_registry (c : Client) (event : string) (h : nat) :
  registered (on c event h) event h
  ∧ on (on c event h) event h = on c event h
  ∧ ¬ registered (off c event h) event h
  ∧ (∀ event' h', (event', h') ≠ (event, h) →
       (registered (on c event h) event' h' ↔ registered c event' h')
       ∧ (registered (off c event h) event' h' ↔ registered c event' h')).
Proof.
  assert (Hon : ∀ hs, listeners (on c event h) !! event = Some hs →
                  ∀ x, x ∈ hs ↔ x = h ∨ registered c event x).
  { intros hs. unfold on, registered. simpl. rewrite lookup_insert_eq.
    intros [= <-] x. destruct (listeners c !! event) as [set |] eqn:Hset.
    - destruct (bool_decide (h ∈ set)) eqn:Hin.
      + apply bool_decide_eq_true in Hin. split.
        * intros Hx. right. by exists set.
        * intros [-> | (s' & [= <-] & Hx)]; done.
      + rewrite elem_of_app, list_elem_of_singleton. split.
        * intros [Hx | ->]; [right; by exists set | by left].
        * intros [-> | (s' & [= <-] & Hx)]; [by right | by left].
    - simpl. rewrite list_elem_of_singleton. split.
      + intros ->. by left.
      + intros [-> | (s' & [=] & _)]. done. }
  assert (Hlk : ∃ hs, listeners (on c event h) !! event = Some hs).
  { unfold on. simpl. rewrite lookup_insert_eq. by eexists. }
  split; [| split; [| split]].
  - destruct Hlk as [hs Hhs]. exists hs. split; [done |].
    apply (Hon hs Hhs). by left.
  - destruct Hlk as [hs Hhs]. pose proof (proj2 (Hon hs Hhs h) (or_introl eq_refl)) as Hin.
    unfold on at 1. rewrite Hhs. rewrite bool_decide_eq_true_2 by done.
    unfold on in *. simpl in *. rewrite lookup_insert_eq in Hhs.
    injection Hhs as Hhs. rewrite Hhs. by rewrite insert_insert_eq.
  - unfold registered, off. intros (hs & Hhs & Hin).
    destruct (listeners c !! event) as [set |] eqn:Hset.
    + simpl in Hhs. rewrite lookup_insert_eq in Hhs. injection Hhs as <-.
      apply list_elem_of_In, List.filter_In in Hin as [_ Hin].
      by rewrite Nat.eqb_refl in Hin.
    + rewrite Hset in Hhs. done.
  - intros event' h' Hne. split.
    + destruct (decide (event = event')) as [<- | Hev].
      * destruct Hlk as [hs Hhs]. split.
        -- intros (hs' & Hhs' & Hin). rewrite Hhs in Hhs'. injection Hhs' as <-.
           apply (Hon hs Hhs) in Hin as [-> | Hin]; [done | done].
        -- intros Hr. exists hs. split; [done |]. apply (Hon hs Hhs). by right.
      * unfold registered, on. simpl. by rewrite lookup_insert_ne.
    + unfold registered, off.
      destruct (listeners c !! event) as [set |] eqn:Hset; [| done]. simpl.
      destruct (decide (event = event')) as [<- | Hev].
      * rewrite lookup_insert_eq, Hset. split.
        -- intros (hs & [= <-] & Hin). exists set. split; [done |].
           apply list_elem_of_In, List.filter_In in Hin as [Hin _].
           by apply list_elem_of_In.
        -- intros (hs & [= <-] & Hin). eexists. split; [done |].
           apply list_elem_of_In, List.filter_In. split; [by apply list_elem_of_In |].
           apply negb_true_iff, Nat.eqb_neq. congruence.
      * by rewrite lookup_insert_ne.
Qed.

End ClientListeners.

(** ** Further properties of the tab manager *)

Section TabEvents.
Import Cdp TabManager TabProps.

Lemma handle_source ev (tabs : Tabs) k t' :
  handle ev tabs !! k = Some t' →
  ∃ t, tabs !! k = Some t ∧ tabId t' = tabId t ∧ sessionId t' = sessionId t.
Proof.
  destruct ev as [i | info]; simpl.
  - unfold onTargetDestroyed. destruct i as [i |]; [| by eauto].
    destruct (Js.nonEmpty i); [| by eauto].
    destruct (decide (i = k)) as [-> | Hne].
    + by rewrite lookup_delete_eq.
    + rewrite lookup_delete_ne by done. eauto.
  - unfold onTargetInfoChanged. destruct info as [[[[i |] u] ti] |]; try by eauto.
    destruct (Js.nonEmpty i); [| by eauto].
    destruct (tabs !! i) as [tab |] eqn:Htab; [| by eauto].
    destruct (decide (i = k)) as [-> | Hne].
    + rewrite lookup_insert_eq. intros [= <-]. exists tab.
      split; [done |]. by destruct u, ti.
    + rewrite lookup_insert_ne by done. eauto.
Qed.

(** X7.  The listeners of the tab manager only remove records and update the url
    and the title of a record: every record of the table after any events was
    in the table before them, under the same key, with the same tab id and
    the same session id. *)
Theorem events_add_nothing (evs : list TargetEvent) (tabs : Tabs)
    (k : string) (t' : TabInfo) :
  deliver evs tabs !! k = Some t' →
  ∃ t, tabs !! k = Some t ∧ tabId t' = tabId t ∧ sessionId t' = sessionId t.
Proof.
  unfold deliver. revert tabs t'.
  induction evs as [| ev evs IH] using rev_ind; intros tabs t' H.
  - simpl in H. eauto.
  - rewrite foldl_app in H. simpl in H.
    apply handle_source in H as (t1 & H1 & Hid & Hs).
    apply IH in H1 as (t & Ht & Hid' & Hs'). exists t.
    split; [done |]. split; congruence.
Qed.

Lemma events_add_nothing_witness :
  let tabs : Tabs := {[ "T1" := mkTab "T1" "S1" "" "" ]} in
  let evs := [TargetInfoChanged (Some (Some "T1", Some "http://a.test/", None));
              TargetInfoChanged (Some (Some "T2", Some "http://b.test/", None));
              TargetDestroyed (Some "T9")] in
  deliver evs tabs !! "T1" = Some (mkTab "T1" "S1" "http://a.test/" "")
  ∧ ∃ t, tabs !! "T1" = Some t ∧ "T1" = tabId t ∧ "S1" = sessionId t.
Proof.
  intros tabs evs.
  assert (H : deliver evs tabs !! "T1" = Some (mkTab "T1" "S1" "http://a.test/" ""))
    by reflexivity.
  split; [exact H |].
  exact (events_add_nothing evs tabs "T1" _ H).
Defined.

Lemma deliver_keyed evs tabs : keyed tabs → keyed (deliver evs tabs).
Proof.
  intros Hk. unfold deliver.
  induction evs as [| ev evs IH] using rev_ind; [done |].
  rewrite foldl_app. simpl. intros k t' H.
  apply handle_source in H as (t & Ht & Hid & _).
  rewrite Hid. by apply IH.
Qed.

Lemma insert_keyed (tabs : Tabs) k t :
  keyed tabs → tabId t = k → keyed (<[k := t]> tabs).
Proof.
  intros Hk Ht k' t'. destruct (decide (k = k')) as [<- | Hne].
  - rewrite lookup_insert_eq. by intros [= <-].
  - rewrite lookup_insert_ne by done. apply Hk.
Qed.

Lemma delete_keyed (tabs : Tabs) k : keyed tabs → keyed (delete k tabs).
Proof.
  intros Hk k' t'. destruct (decide (k = k')) as [<- | Hne].
  - by rewrite lookup_delete_eq.
  - rewrite lookup_delete_ne by done. apply Hk.
Qed.

(** X8.  The table stays keyed by tab id: if every record is stored under its own
    tab id, this is still so after [attach], [createTab] or [closeTab],
    whatever the browser answers and whatever events arrive meanwhile. *)
Theorem table_stays_keyed (env : Env) (tabs : Tabs) (id : string)
    (url : option string) :
  keyed tabs →
  keyed (final (Cdp.run deliver env (attach id) tabs))
  ∧ keyed (final (Cdp.run deliver env (createTab url) tabs))
  ∧ keyed (final (Cdp.run deliver env (closeTab id) tabs)).
Proof.
  intros Hk. split; [| split].
  - unfold Cdp.run, attach. run_on.
    destruct (reply env 0 _ (Target_attachToTarget id)) as [[s |] | e |]; run_on;
      try by apply deliver_keyed.
    destruct (Js.nonEmpty s); run_on; [| by apply deliver_keyed].
    apply insert_keyed; [by apply deliver_keyed | done].
  - unfold Cdp.run, createTab, attach. run_on.
    destruct (reply env 0 _ (Target_createTarget _)) as [[t |] | e |]; run_on;
      try by apply deliver_keyed.
    destruct (Js.nonEmpty t); run_on; [| by apply deliver_keyed].
    destruct (reply env 1 _ (Target_attachToTarget t)) as [[s |] | e |]; run_on;
      try by do 2 apply deliver_keyed.
    destruct (Js.nonEmpty s); run_on; [| by do 2 apply deliver_keyed].
    rewrite lookup_insert_eq. run_on.
    apply insert_keyed; [| done]. apply insert_keyed; [| done].
    by do 2 apply deliver_keyed.
  - unfold Cdp.run, closeTab. run_on.
    destruct (reply env 0 _ (Target_closeTarget id)) as [[] | e |]; run_on;
      try by apply deliver_keyed.
    by apply delete_keyed, deliver_keyed.
Qed.

Lemma table_stays_keyed_witness :
  let tabs : Tabs := {[ "T1" := mkTab "T1" "S1" "" "" ]} in
  keyed tabs
  ∧ keyed (final (Cdp.run deliver quiet (closeTab "T1") tabs)).
Proof.
  intros tabs.
  assert (H : keyed tabs).
  { intros k t Hkt. apply lookup_singleton_Some in Hkt as [<- <-]. reflexivity. }
  split; [exact H |].
  exact (proj2 (proj2 (table_stays_keyed quiet tabs "T1" None H))).
Defined.

(** X9.  [createTab] creates, attaches and records: when it completes with tab id
    [t], it has sent the create-target command for the url (about:blank when
    none is given) and then the attach command for [t], and the table holds
    under [t] the record of [t] with the session id the browser answered, that
    url and an empty title. *)
Theorem createTab_records (env : Env) (tabs : Tabs) (url : option string)
    (t : string) :
  let r := Cdp.run deliver env (createTab url) tabs in
  outcome r = Done t →
  ∃ s, reply env 0 _ (Target_createTarget (url_or_blank url)) = Resolved (Some t)
       ∧ reply env 1 _ (Target_attachToTarget t) = Resolved (Some s)
       ∧ t ≠ "" ∧ s ≠ ""
       ∧ sent r = [sent_command None (Target_createTarget (url_or_blank url));
                   sent_command None (Target_attachToTarget t)]
       ∧ getTab (final r) t = Some (mkTab t s (url_or_blank url) "").
Proof.
  intros r. unfold r, Cdp.run, createTab, attach. run_on.
  fold (url_or_blank url).
  destruct (reply env 0 _ (Target_createTarget (url_or_blank url)))
    as [[t0 |] | e |]; run_on.
  destruct (Js.nonEmpty t0) eqn:Ht0; run_on.
  destruct (reply env 1 _ (Target_attachToTarget t0)) as [[s |] | e |] eqn:Hs; run_on.
  destruct (Js.nonEmpty s) eqn:Hs0; run_on.
  rewrite lookup_insert_eq. run_on. intros [= <-].
  exists s. rewrite Hs. apply nonEmpty_true in Ht0, Hs0.
  repeat (split; [done |]). unfold getTab. by rewrite lookup_insert_eq.
Qed.

Lemma createTab_records_witness :
  let r := Cdp.run deliver creating (createTab None) ∅ in
  outcome r = Done "T7"
  ∧ getTab (final r) "T7" = Some (mkTab "T7" "S7" "about:blank" "").
Proof.
  intros r.
  assert (H : outcome r = Done "T7") by reflexivity.
  split; [exact H |].
  destruct (createTab_records creating ∅ None "T7" H) as (s & _ & Hs & _ & _ & _ & Hg).
  injection Hs as <-. exact Hg.
Defined.

(** X10.  [createTab] without a target: when the create-target command is answered
    without a tab id, or with the empty one, [createTab] fails with the
    no-target-id error, sends no attach command and adds no record. *)
Theorem createTab_without_target (env : Env) (tabs : Tabs) (url : option string)
    (answer : option string) :
  let r := Cdp.run deliver env (createTab url) tabs in
  reply env 0 _ (Target_createTarget (url_or_blank url)) = Resolved answer →
  Js.truthy answer = false →
  outcome r = Failed NoTargetId
  ∧ sent r = [sent_command None (Target_createTarget (url_or_blank url))]
  ∧ final r = deliver (events env 0) tabs.
Proof.
  intros r Hr Ha. unfold r, Cdp.run, createTab. run_on.
  fold (url_or_blank url). rewrite Hr. run_on.
  destruct answer as [t0 |]; run_on. simpl in Ha. rewrite Ha. run_on.
Qed.

Lemma createTab_without_target_witness :
  let r := Cdp.run deliver quiet (createTab (Some "http://a.test/")) ∅ in
  outcome r = Failed NoTargetId ∧ final r = ∅.
Proof.
  intros r.
  destruct (createTab_without_target quiet ∅ (Some "http://a.test/") None
              eq_refl eq_refl) as (H1 & _ & H3).
  split; [exact H1 | exact H3].
Defined.

End TabEvents.

(** ** Further properties of the snapshot and of reference tokens *)

Section TokenText.
Import Accessibility SnapshotSpec RefSpec SnapshotProps.

Lemma pretty_N_char_digit x : Js.isDigit (pretty_N_char x) = true.
Proof.
  unfold pretty_N_char. repeat case_match; reflexivity.
Qed.

Lemma pretty_N_go_digits x : ∀ s,
  Js.allDigits s = true → Js.allDigits (pretty_N_go x s) = true.
Proof.
  induction (N.lt_wf_0 x) as [x _ IH]. intros s Hs.
  destruct (decide (x = 0)%N) as [-> | Hx]; [by rewrite pretty_N_go_0 |].
  rewrite pretty_N_go_step by lia. apply IH.
  - apply N.div_lt; lia.
  - simpl. by rewrite pretty_N_char_digit.
Qed.

Lemma pretty_N_go_nonEmpty x : ∀ s,
  Js.nonEmpty s = true → Js.nonEmpty (pretty_N_go x s) = true.
Proof.
  induction (N.lt_wf_0 x) as [x _ IH]. intros s Hs.
  destruct (decide (x = 0)%N) as [-> | Hx]; [by rewrite pretty_N_go_0 |].
  rewrite pretty_N_go_step by lia. apply IH; [apply N.div_lt; lia | done].
Qed.

(** The decimal text of a number: digits, and at least one. *)
Lemma pretty_nat_digits (k : nat) :
  Js.allDigits (pretty k) = true ∧ Js.nonEmpty (pretty k) = true.
Proof.
  change (pretty k) with (pretty_N (N.of_nat k)).
  generalize (N.of_nat k). intros x. unfold pretty_N.
  destruct (decide (x = 0)%N) as [-> | Hk]; [done |].
  split.
  - by apply pretty_N_go_digits.
  - rewrite pretty_N_go_step by lia. by apply pretty_N_go_nonEmpty.
Qed.

Lemma token_is_token k : is_token (token k).
Proof.
  destruct (pretty_nat_digits k) as [Hd Hn].
  exists (pretty k). split; [done |]. split.
  - by apply nonEmpty_true.
  - by apply allDigits_spec.
Qed.

Lemma digit_not_space c : Js.isDigit c = true → Js.isWhiteSpace c = false.
Proof.
  unfold Js.isDigit, Js.isWhiteSpace. cbv zeta.
  rewrite andb_true_iff, !Nat.leb_le. intros [H1 H2].
  rewrite !orb_false_iff, andb_false_iff, !Nat.leb_gt, !Nat.eqb_neq. lia.
Qed.

Lemma allDigits_solid ds : Js.allDigits ds = true → solid ds = true.
Proof.
  induction ds as [| c ds IH]; [done |]. simpl.
  rewrite !andb_true_iff. intros [Hc Hds].
  rewrite (digit_not_space c Hc). auto.
Qed.

Lemma is_token_solid t : is_token t → solid t = true ∧ first_char t = Some "e"%char.
Proof.
  intros (ds & -> & _ & Hd). split; [| done]. simpl.
  apply allDigits_solid. by apply allDigits_spec.
Qed.

Lemma trimEnd_solid s : solid s = true → Js.trimEnd s = s.
Proof.
  induction s as [| c s IH]; [done |]. simpl.
  rewrite andb_true_iff, negb_true_iff. intros [Hc Hs].
  rewrite (IH Hs). destruct s; [by rewrite Hc | done].
Qed.

Lemma trim_solid s : solid s = true → Js.trim s = s.
Proof.
  intros Hs. unfold Js.trim.
  assert (Js.trimStart s = s) as ->; [| by apply trimEnd_solid].
  destruct s as [| c s]; [done |]. simpl in *.
  apply andb_true_iff in Hs as [Hc _]. apply negb_true_iff in Hc. by rewrite Hc.
Qed.

Lemma normalize_token t : is_token t → normalize t = t.
Proof.
  intros Ht. destruct (is_token_solid t Ht) as [Hs Hf].
  unfold normalize. rewrite (trim_solid t Hs).
  destruct t as [| c t]; [done |]. simpl in *. injection Hf as ->. done.
Qed.

Lemma normalize_marked_token t : is_token t → normalize ("@" +:+ t) = t.
Proof.
  intros Ht. destruct (is_token_solid t Ht) as [Hs _].
  unfold normalize. rewrite trim_solid; [done |]. simpl. done.
Qed.

(** X11.  [parseRef] returns a normal form: a token it returns is accepted again
    and returned as it is, with or without a leading [@], and trimming leaves
    it unchanged. *)
Theorem parseRef_normal_form (raw t : string) :
  parseRef raw = Some t →
  parseRef t = Some t ∧ parseRef ("@" +:+ t) = Some t ∧ Js.trim t = t.
Proof.
  intros H. apply parseRef_spec in H as [_ Ht]. split; [| split].
  - apply parseRef_spec. split; [| done]. symmetry. by apply normalize_token.
  - apply parseRef_spec. split; [| done]. symmetry. by apply normalize_marked_token.
  - apply trim_solid. by apply is_token_solid.
Qed.

Lemma parseRef_normal_form_witness :
  parseRef "  @e42 " = Some "e42"
  ∧ parseRef "e42" = Some "e42" ∧ parseRef ("@" +:+ "e42") = Some "e42"
  ∧ Js.trim "e42" = "e42".
Proof.
  split; [reflexivity |].
  exact (parseRef_normal_form "  @e42 " "e42" eq_refl).
Defined.

(** A key of the reference map of a snapshot is a token. *)
Lemma snapshot_key_is_token (axNodes : list AriaSnapshotNode.t) key h :
  snd (buildSnapshot axNodes) !! key = Some h → is_token key.
Proof.
  intros Hk. destruct (build_loop_inv axNodes) as [_ _ _ _ Hdom].
  destruct (Hdom key h Hk) as (i & nd & _ & _ & _ & ->).
  apply token_is_token.
Qed.

(** A token that is a key of a map resolves to what the map holds, with or
    without a leading [@]. *)
Lemma resolveRef_token key (refs : RefMap) h :
  is_token key → refs !! key = Some h →
  Actions.resolveRef key refs = inr h
  ∧ Actions.resolveRef ("@" +:+ key) refs = inr h.
Proof.
  intros Ht Hk. split.
  - apply resolveRef_found; rewrite normalize_token; done.
  - apply resolveRef_found; rewrite normalize_marked_token; done.
Qed.

(** X12.  Every reference shown in a snapshot resolves: a key of the reference map
    built by [buildSnapshot] is accepted by [parseRef] as it is, and
    [resolveRef] on the key, with or without a leading [@], returns the handle
    the map holds for it. *)
Theorem snapshot_refs_resolve (axNodes : list AriaSnapshotNode.t)
    (key : string) (h : Z) :
  let refs := snd (buildSnapshot axNodes) in
  refs !! key = Some h →
  parseRef key = Some key
  ∧ Actions.resolveRef key refs = inr h
  ∧ Actions.resolveRef ("@" +:+ key) refs = inr h.
Proof.
  intros refs Hk. pose proof (snapshot_key_is_token axNodes key h Hk) as Ht.
  split; [| by apply resolveRef_token].
  apply parseRef_spec. split; [| done]. symmetry. by apply normalize_token.
Qed.

Lemma snapshot_refs_resolve_witness :
  let axNodes := [AriaSnapshotNode.mk "ax1" "link" "Home" None None (Some 9%Z) 0] in
  snd (buildSnapshot axNodes) !! "e1" = Some 9%Z
  ∧ Actions.resolveRef "@e1" (snd (buildSnapshot axNodes)) = inr 9%Z.
Proof.
  intros axNodes.
  assert (H : snd (buildSnapshot axNodes) !! "e1" = Some 9%Z) by reflexivity.
  split; [exact H |].
  exact (proj2 (proj2 (snapshot_refs_resolve axNodes "e1" 9%Z H))).
Defined.

End TokenText.

Section SnapshotText.
Import Accessibility SnapshotSpec SnapshotProps.

Lemma first_char_app a b c :
  first_char a = Some c → first_char (a +:+ b) = Some c.
Proof. destruct a; [done |]. intros H. exact H. Qed.

Lemma first_char_join sep l ls c :
  first_char l = Some c → first_char (Js.join sep (l :: ls)) = Some c.
Proof.
  intros H. destruct ls as [| l' ls]; [done |].
  change (Js.join sep (l :: l' :: ls)) with (l +:+ sep +:+ Js.join sep (l' :: ls)).
  by apply first_char_app.
Qed.

(** A line starts with the dash of its bullet or with the indentation. *)
Lemma first_char_base_line nd :
  first_char (base_line nd) = Some "-"%char ∨ first_char (base_line nd) = Some " "%char.
Proof.
  assert (H : ∃ c, (c = "-"%char ∨ c = " "%char)
                   ∧ first_char (Js.repeat "  " (AriaSnapshotNode.depth nd) +:+ "- "
                                 +:+ Js.toLowerCase (AriaSnapshotNode.role nd)) = Some c).
  { destruct (AriaSnapshotNode.depth nd) as [| d].
    - exists "-"%char. split; [by left | done].
    - exists " "%char. split; [by right | done]. }
  destruct H as (c & Hc & H).
  assert (first_char (base_line nd) = Some c) as ->; [| by destruct Hc as [-> | ->]; auto].
  unfold base_line. cbv zeta.
  destruct (Js.nonEmpty (AriaSnapshotNode.name nd));
    destruct (AriaSnapshotNode.value nd) as [v |]; try destruct (Js.nonEmpty v);
    first [ exact H
          | apply first_char_app; exact H
          | do 2 apply first_char_app; exact H ].
Qed.

(** X13.  The text of a snapshot is the placeholder [(empty page)] exactly when no
    node is emitted: the lines of emitted nodes never spell the placeholder. *)
Theorem empty_page_iff_nothing_emitted (axNodes : list AriaSnapshotNode.t) :
  fst (buildSnapshot axNodes) = "(empty page)" ↔ emitted axNodes = [].
Proof.
  destruct (build_loop_inv axNodes) as [_ Hl Hline _ _].
  unfold buildSnapshot. cbv zeta. cbn [fst].
  destruct (emitted axNodes) as [| nd em] eqn:Hem.
  - split; [done | intros _].
    destruct (lines (build_loop axNodes)); [done | discriminate Hl].
  - split; [| done]. intros H. exfalso.
    specialize (Hline 0%nat nd eq_refl).
    destruct (lines (build_loop axNodes)) as [| l ls]; [discriminate Hl |].
    simpl in Hline. injection Hline as Hline.
    assert (Hc : first_char l = Some "-"%char ∨ first_char l = Some " "%char).
    { rewrite Hline. destruct (first_char_base_line nd) as [Hb | Hb];
        destruct (decide (eligible nd)); auto using first_char_app. }
    assert (Hj : ∃ c, (c = "-"%char ∨ c = " "%char)
                      ∧ first_char (Js.join (String (ascii_of_nat 10) EmptyString) (l :: ls)) = Some c).
    { destruct Hc as [Hc | Hc]; eexists; (split; [| by apply first_char_join]); auto. }
    destruct Hj as (c & Hc' & Hj).
    destruct (Js.join (String (ascii_of_nat 10) EmptyString) (l :: ls)) as [| c' s'];
      [discriminate Hj |].
    simpl in H, Hj. injection Hj as ->. injection H as H _.
    destruct Hc' as [-> | ->]; discriminate H.
Qed.

Lemma token_number_pos (em : list AriaSnapshotNode.t) (i : nat) :
  (1 ≤ token_number em i)%nat.
Proof. unfold token_number. lia. Qed.

(** A key of the map after the loop is a token of a number up to the
    counter. *)
Lemma refs_key_bound axNodes key h :
  refs (build_loop axNodes) !! key = Some h →
  ∃ k : nat, key = token k ∧ (1 ≤ k ≤ refCounter (build_loop axNodes))%nat.
Proof.
  intros H. destruct (build_loop_inv axNodes) as [Hc _ _ _ Hdom].
  destruct (Hdom key h H) as (i & nd & Hi & He & _ & ->).
  eexists. split; [done |]. rewrite Hc.
  split; [apply token_number_pos | by eapply token_number_bound].
Qed.

(** The loop of [buildSnapshot] never overwrites a reference: the map holds
    one entry per count, under the tokens [e1] to [e<counter>]. *)
Lemma build_loop_count axNodes :
  size (refs (build_loop axNodes)) = refCounter (build_loop axNodes)
  ∧ ∀ k : nat, (1 ≤ k ≤ refCounter (build_loop axNodes))%nat →
        is_Some (refs (build_loop axNodes) !! token k).
Proof.
  induction axNodes as [| x l IH] using rev_ind.
  - split; [done | simpl; lia].
  - destruct IH as [IHs IHk]. rewrite build_loop_snoc.
    unfold build_step. destruct (skipped x); [by split |].
    destruct (shouldHaveRef x); [| by split].
    destruct (AriaSnapshotNode.backendDOMNodeId x) as [h |]; [| by split].
    cbn [refs refCounter]. fold (token (S (refCounter (build_loop l)))).
    assert (Hfresh : refs (build_loop l) !! token (S (refCounter (build_loop l))) = None).
    { destruct (refs (build_loop l) !! token (S (refCounter (build_loop l))))
        as [h' |] eqn:Hk; [| done].
      apply refs_key_bound in Hk as (k & Hk & Hb). apply token_inj in Hk. lia. }
    split.
    + rewrite map_size_insert_None by done. by rewrite IHs.
    + intros k Hk. destruct (decide (k = S (refCounter (build_loop l)))) as [-> | Hne].
      * rewrite lookup_insert_eq. by eexists.
      * rewrite lookup_insert_ne by (intros Heq%token_inj; lia).
        apply IHk. lia.
Qed.

(** X14.  The reference map of a snapshot holds one entry per eligible emitted
    node, no two of them under the same token, and its keys are the tokens
    [e1] to [e<n>] without a gap, [n] being the number of entries; there are
    no more entries than lines. *)
Theorem references_are_e1_to_en (axNodes : list AriaSnapshotNode.t) :
  let refs := snd (buildSnapshot axNodes) in
  size refs = length (filter eligible (emitted axNodes))
  ∧ (size refs ≤ length (emitted axNodes))%nat
  ∧ ∀ key, is_Some (refs !! key) ↔ ∃ k : nat, key = token k ∧ (1 ≤ k ≤ size refs)%nat.
Proof.
  cbn [buildSnapshot snd]. cbv zeta.
  destruct (build_loop_count axNodes) as [Hs Hk].
  destruct (build_loop_inv axNodes) as [Hc _ _ _ _].
  split; [congruence |]. split.
  - rewrite Hs, Hc. apply length_filter.
  - intros key. rewrite Hs. split.
    + intros [h Hh]. by eapply refs_key_bound.
    + intros (k & -> & Hb). by apply Hk.
Qed.

End SnapshotText.

(** ** Further properties of the flattened tree *)

Section FlattenedTree.
Import Accessibility SnapshotSpec TraversalSpec SnapshotProps.

Lemma node_by_id_elem nodes i n :
  node_by_id nodes i = Some n → n ∈ nodes ∧ RawAXNode.nodeId n = Some i.
Proof.
  unfold node_by_id. destruct (decide (i = "")); [done |]. intros H.
  apply last_Some_elem_of in H. by apply list_elem_of_filter in H as [H1 H2].
Qed.

(** Every node of a visit is a node of the list, reached under its own id. *)
Lemma preorder_elem nodes (h : nat) : ∀ i d n d',
  (n, d') ∈ preorder h nodes i d → n ∈ nodes ∧ (d ≤ d')%nat.
Proof.
  induction h as [| h IH]; intros i d n d' H; [by apply not_elem_of_nil in H |].
  cbn [preorder] in H. destruct (node_by_id nodes i) as [m |] eqn:Hm;
    [| by apply not_elem_of_nil in H].
  apply elem_of_cons in H as [[= -> ->] | H].
  - split; [by apply node_by_id_elem in Hm as [? _] | done].
  - apply list_elem_of_In, in_flat_map in H as (c & _ & H).
    apply list_elem_of_In, IH in H as [? ?]. split; [done | lia].
Qed.

Lemma steps_weaken (l : list nat) : ∀ prev prev' : nat,
  (prev ≤ prev')%nat → steps prev l → steps prev' l.
Proof.
  destruct l as [| d l]; [done |]. simpl. intros prev prev' Hle [Hd Hl].
  split; [lia | done].
Qed.

(** Two runs of depths chain when every depth of the first is at least [lo]
    and the second chains after any depth that is at least [lo]. *)
Lemma steps_app (lo : nat) (l1 l2 : list nat) : ∀ prev : nat,
  (lo ≤ prev)%nat → Forall (fun d => (lo ≤ d)%nat) l1 →
  steps prev l1 → (∀ prev' : nat, (lo ≤ prev')%nat → steps prev' l2) →
  steps prev (l1 ++ l2).
Proof.
  induction l1 as [| d l1 IH]; intros prev Hprev Hlo H1 H2; [by apply H2 |].
  apply Forall_cons in Hlo as [Hd Hlo]. destruct H1 as [Hd' H1].
  simpl. split; [done |]. by apply IH.
Qed.

Lemma steps_take (k : nat) : ∀ (l : list nat) (prev : nat),
  steps prev l → steps prev (take k l).
Proof.
  induction k as [| k IH]; intros [| d l] prev H; try done.
  destruct H as [Hd H]. simpl. split; [done | by apply IH].
Qed.

Lemma preorder_depths_lower nodes h i d :
  Forall (fun d' => (d ≤ d')%nat) (visit_depths (preorder h nodes i d)).
Proof.
  apply Forall_forall. intros d' H. unfold visit_depths in H.
  apply list_elem_of_fmap in H as ([n d''] & -> & H).
  by apply preorder_elem in H as [_ H].
Qed.

(** In a visit each depth is at most one more than the depth before it. *)
Lemma preorder_steps nodes (h : nat) : ∀ i (d prev : nat),
  (d ≤ S prev)%nat → steps prev (visit_depths (preorder h nodes i d)).
Proof.
  induction h as [| h IH]; intros i d prev Hd; [done |].
  cbn [preorder]. destruct (node_by_id nodes i) as [n |]; [| done].
  unfold visit_depths. cbn [map snd]. split; [done |].
  assert (Hcs : ∀ (cs : list string) (prev' : nat), (d ≤ prev')%nat →
            steps prev' (map snd (flat_map (fun c => preorder h nodes c (d + 1)) cs))).
  { induction cs as [| c cs IHcs]; intros prev' Hp; [done |].
    cbn [flat_map]. rewrite List.map_app. apply (steps_app d).
    - done.
    - eapply Forall_impl; [apply (preorder_depths_lower nodes h c (d + 1)) |].
      simpl. intros; lia.
    - apply IH. lia.
    - intros prev'' Hp'. by apply IHcs. }
  by apply Hcs.
Qed.

Lemma number_depths len visit :
  map AriaSnapshotNode.depth (number len visit) = visit_depths visit.
Proof.
  revert len. induction visit as [| [n d] visit IH]; intros len; [done |].
  cbn [number map]. unfold visit_depths. cbn [map snd]. f_equal. apply IH.
Qed.

Lemma number_lookup visit : ∀ (len i : nat) nd,
  number len visit !! i = Some nd →
  ∃ n, visit !! i = Some (n, AriaSnapshotNode.depth nd)
       ∧ nd = flatten_node (len + i) n (AriaSnapshotNode.depth nd).
Proof.
  induction visit as [| [n d] visit IH]; intros len i nd H; [done |].
  cbn [number] in H. destruct i as [| i].
  - injection H as <-. exists n. by rewrite Nat.add_0_r.
  - simpl in H. apply IH in H as (m & Hm & Hnd). exists m.
    split; [done |]. by rewrite Nat.add_succ_r.
Qed.

(** What [formatAriaSnapshot] returns, as a numbered visit. *)
Lemma formatAriaSnapshot_visit nodes limit out :
  formatAriaSnapshot nodes limit = Some out →
  ∃ visit,
    out = number 0 visit
    ∧ (match visit with
       | [] => True
       | (_, d) :: _ => d = 0%nat
       end)
    ∧ steps 0 (visit_depths visit)
    ∧ (∀ n d, (n, d) ∈ visit → n ∈ nodes).
Proof.
  intros H. unfold formatAriaSnapshot in H.
  rewrite (formatAriaSnapshot_fuel_spec nodes limit _ (Z.to_nat limit)) in H by lia.
  injection H as <-. eexists. split; [reflexivity |].
  destruct (root_id nodes) as [i |].
  2: { rewrite take_nil. split; [done |]. split; [done |].
       intros n d Hin. by apply not_elem_of_nil in Hin. }
  split; [| split].
  - destruct (Z.to_nat limit) as [| k]; [done |]. cbn [preorder].
    by destruct (node_by_id nodes i).
  - unfold visit_depths. rewrite <- firstn_map. apply steps_take.
    apply preorder_steps. lia.
  - intros n d Hin. apply elem_of_take in Hin as (j & Hj & _).
    apply list_elem_of_lookup_2 in Hj. by apply preorder_elem in Hj as [? _].
Qed.

(** X15.  The flattened list is an outline: its first node has depth 0, and the
    depth of each other node is at most one more than the depth of the node
    before it. *)
Theorem flattened_depths_outline (nodes : list RawAXNode.t) (limit : Z)
    (out : list AriaSnapshotNode.t) :
  formatAriaSnapshot nodes limit = Some out →
  outline (map AriaSnapshotNode.depth out).
Proof.
  intros H. apply formatAriaSnapshot_visit in H as (visit & -> & H0 & Hs & _).
  rewrite number_depths. destruct visit as [| [n d] visit]; [done |].
  subst d. unfold visit_depths in *. simpl in *. by destruct Hs as [_ Hs].
Qed.

Lemma flattened_depths_outline_witness :
  ∃ out, formatAriaSnapshot sample_tree 500 = Some out
         ∧ map AriaSnapshotNode.depth out = [0; 1; 1]%nat
         ∧ outline (map AriaSnapshotNode.depth out).
Proof.
  eexists. split; [vm_compute; reflexivity |]. split; [reflexivity |].
  apply (flattened_depths_outline sample_tree 500). vm_compute. reflexivity.
Defined.

(** X16.  Every node of the flattened list is made from a node of the raw list: the
    [i]-th node, counting from 0, is the flattening of a raw node of the list
    under the name [ax<i+1>]; its role is never empty and its DOM handle is
    that of the raw node. *)
Theorem flattened_from_raw (nodes : list RawAXNode.t) (limit : Z)
    (out : list AriaSnapshotNode.t) (i : nat) (nd : AriaSnapshotNode.t) :
  formatAriaSnapshot nodes limit = Some out →
  out !! i = Some nd →
  ∃ n, n ∈ nodes
       ∧ nd = flatten_node i n (AriaSnapshotNode.depth nd)
       ∧ AriaSnapshotNode.ref nd = "ax" +:+ pretty (i + 1)%nat
       ∧ AriaSnapshotNode.role nd ≠ ""
       ∧ AriaSnapshotNode.backendDOMNodeId nd = RawAXNode.backendDOMNodeId n.
Proof.
  intros H Hi. apply formatAriaSnapshot_visit in H as (visit & -> & _ & _ & Hin).
  apply number_lookup in Hi as (n & Hn & Hnd). exists n.
  split; [by eapply Hin, list_elem_of_lookup_2 |]. split; [done |].
  rewrite Hnd. unfold flatten_node. cbn.
  split; [done |]. split; [| done].
  destruct (Js.nonEmpty (axValue (RawAXNode.role n))) eqn:Hr; [| done].
  by apply nonEmpty_true.
Qed.

Lemma flattened_from_raw_witness :
  ∃ out nd, formatAriaSnapshot sample_tree 500 = Some out
            ∧ out !! 1%nat = Some nd
            ∧ AriaSnapshotNode.ref nd = "ax2"
            ∧ AriaSnapshotNode.backendDOMNodeId nd = Some 11%Z.
Proof.
  eexists. eexists.
  assert (H1 : formatAriaSnapshot sample_tree 500
               = Some (number 0 [(sample_page, 0%nat); (sample_link, 1%nat);
                                 (sample_text, 1%nat)]))
    by (vm_compute; reflexivity).
  split; [exact H1 |].
  assert (H2 : number 0 [(sample_page, 0%nat); (sample_link, 1%nat);
                         (sample_text, 1%nat)] !! 1%nat
               = Some (flatten_node 1 sample_link 1)) by reflexivity.
  split; [exact H2 |].
  destruct (flattened_from_raw sample_tree 500 _ 1 _ H1 H2) as (n & _ & _ & Hr & _ & _).
  split; [exact Hr | reflexivity].
Defined.

(** A handle in the reference map built from the flattened tree is the
    handle of a raw node. *)
Lemma format_handle_source (nodes : list RawAXNode.t) (limit : Z)
    (out : list AriaSnapshotNode.t) key h :
  formatAriaSnapshot nodes limit = Some out →
  snd (buildSnapshot out) !! key = Some h →
  ∃ n, n ∈ nodes ∧ RawAXNode.backendDOMNodeId n = Some h.
Proof.
  intros H Hk.
  destruct (build_loop_inv out) as [_ _ _ _ Hdom].
  destruct (Hdom key h Hk) as (i & nd & Hi & _ & Hh & _).
  apply list_elem_of_lookup_2 in Hi.
  apply list_elem_of_In, List.filter_In in Hi as [Hi _].
  apply list_elem_of_In, list_elem_of_lookup_1 in Hi as [j Hj].
  apply formatAriaSnapshot_visit in H as (visit & -> & _ & _ & Hin).
  apply number_lookup in Hj as (n & Hn & Hnd). exists n.
  split; [by eapply Hin, list_elem_of_lookup_2 |].
  rewrite Hnd in Hh. exact Hh.
Qed.

(** The reference map holds no more references than the list has nodes. *)
Lemma refs_at_most_nodes (out : list AriaSnapshotNode.t) :
  (size (snd (buildSnapshot out)) ≤ length out)%nat.
Proof.
  destruct (build_loop_count out) as [Hs _].
  destruct (build_loop_inv out) as [Hc _ _ _ _].
  cbn [buildSnapshot snd]. cbv zeta. rewrite Hs, Hc.
  etransitivity; [apply length_filter |]. unfold emitted.
  apply List.filter_length_le.
Qed.

(** X17.  From the raw tree to the reference map: every handle in the reference
    map of the snapshot built from the flattened tree is the DOM handle of a
    node of the raw list, and the map holds at most as many references as the
    flattened list has nodes. *)
Theorem snapshot_handles_from_raw (nodes : list RawAXNode.t) (limit : Z)
    (out : list AriaSnapshotNode.t) :
  formatAriaSnapshot nodes limit = Some out →
  let refs := snd (buildSnapshot out) in
  (∀ key h, refs !! key = Some h →
     ∃ n, n ∈ nodes ∧ RawAXNode.backendDOMNodeId n = Some h)
  ∧ (size refs ≤ length out)%nat.
Proof.
  intros H refs. split.
  - intros key h Hk. by eapply format_handle_source.
  - apply refs_at_most_nodes.
Qed.

Lemma snapshot_handles_from_raw_witness :
  ∃ out, formatAriaSnapshot sample_tree 500 = Some out
         ∧ snd (buildSnapshot out) !! "e1" = Some 11%Z
         ∧ (size (snd (buildSnapshot out)) ≤ length out)%nat.
Proof.
  eexists.
  assert (H1 : formatAriaSnapshot sample_tree 500
               = Some (number 0 [(sample_page, 0%nat); (sample_link, 1%nat);
                                 (sample_text, 1%nat)]))
    by (vm_compute; reflexivity).
  split; [exact H1 |]. split; [reflexivity |].
  exact (proj2 (snapshot_handles_from_raw sample_tree 500 _ H1)).
Defined.

End FlattenedTree.

(** ** Further properties of the network-idle wait *)

Section IdleMachine.
Import Cdp Navigation IdleSpec IdleProps.

Variables idle tmo t0 : N.

Lemma reachable_start : reachable idle tmo t0 (start idle tmo t0).
Proof.
  split; simpl; try done; try lia.
  intros d [= <-]. split; [done | lia].
Qed.

Lemma reachable_elapse dt w :
  reachable idle tmo t0 w → reachable idle tmo t0 (elapse dt w).
Proof.
  intros [Ht Hc Hn Hi Hr]. unfold elapse.
  destruct (resolved w) as [t |] eqn:Hres.
  - split; simpl; try done; try lia.
    intros t' Ht'. destruct (Hr t' Ht') as (? & ? & ? & ?).
    split; [lia |]. done.
  - destruct (due w (now w + dt)) as [d |] eqn:Hd.
    + split; simpl; try done; try lia.
      intros t [= <-]. unfold due in Hd.
      destruct (timer w) as [i |] eqn:Htimer.
      * destruct (N.min i (timeout w) <=? now w + dt)%N eqn:Hle; [| done].
        injection Hd as <-. apply N.leb_le in Hle.
        destruct (Hi i eq_refl) as [Hz Hlow]. rewrite Ht in *.
        split; [done |]. split; [lia |]. split; [lia |].
        intros Hlt. split; [done | lia].
      * destruct (timeout w <=? now w + dt)%N eqn:Hle; [| done].
        injection Hd as <-. apply N.leb_le in Hle. rewrite Ht in *.
        split; [done |]. split; [lia |]. split; [lia |]. lia.
    + split; simpl; try done; lia.
Qed.

Lemma reachable_dispatch ev w :
  reachable idle tmo t0 w → reachable idle tmo t0 (dispatch idle ev w).
Proof.
  intros Hw. pose proof Hw as [Ht Hc Hn Hi Hr]. unfold dispatch.
  destruct (resolved w) as [t |] eqn:Hres; [done |].
  assert (Hfin : reachable idle tmo t0 (onFinish idle w)).
  { unfold onFinish, checkIdle. simpl.
    destruct (Z.max 0 (inflight w - 1) <=? 0)%Z eqn:Hz; split; simpl;
      try done; try lia; try (by rewrite Hres).
    intros d [= <-]. apply Z.leb_le in Hz. split; lia. }
  destruct ev; [| done | done].
  unfold onRequest. split; simpl; try done; try lia. by rewrite Hres.
Qed.

Lemma reachable_run trace :
  reachable idle tmo t0 (run_wait idle trace (start idle tmo t0)).
Proof.
  induction trace as [| e trace IH] using rev_ind; [apply reachable_start |].
  rewrite run_wait_snoc. unfold step.
  by apply reachable_dispatch, reachable_elapse.
Qed.

Lemma requests_snoc trace e :
  requests (trace ++ [e])
  = (requests trace + match snd e with RequestWillBeSent => 1 | _ => 0 end)%nat.
Proof.
  unfold requests. rewrite List.filter_app, length_app. simpl.
  by destruct (snd e).
Qed.

Lemma inflight_run_bound trace :
  (inflight (run_wait idle trace (start idle tmo t0)) ≤ Z.of_nat (requests trace))%Z.
Proof.
  induction trace as [| e trace IH] using rev_ind; [done |].
  rewrite run_wait_snoc, requests_snoc.
  pose proof (reachable_elapse (fst e) _ (reachable_run trace)) as [_ _ Hn _ _].
  destruct (elapse_fields (fst e) (run_wait idle trace (start idle tmo t0)))
    as (_ & _ & Hi).
  unfold step, dispatch.
  destruct (resolved (elapse (fst e) (run_wait idle trace (start idle tmo t0)))).
  - rewrite Hi. lia.
  - destruct (snd e); unfold onRequest, onFinish, checkIdle; simpl;
      try destruct (_ <=? 0)%Z; simpl; lia.
Qed.

End IdleMachine.

Section IdleWait.
Import Cdp Navigation IdleSpec IdleProps.



(** X19.  The counter of requests in flight is never negative and never more than
    the number of request-start events received. *)
Theorem inflight_counter_bounds (idle tmo t0 : N) (trace : list (N * NetEvent)) :
  let w := run_wait idle trace (start idle tmo t0) in
  (0 ≤ inflight w)%Z ∧ (inflight w ≤ Z.of_nat (requests trace))%Z.
Proof.
  intros w. split.
  - by destruct (reachable_run idle tmo t0 trace).
  - apply inflight_run_bound.
Qed.

End IdleWait.

(** ** Further properties of the actions and of the agent *)

Section Procs.
Import Cdp ProcProps.

Context {St : Type} (deliver : list TargetEvent → St → St) (env : Env).

Lemma sends_bind {A B} (P : Sent → Prop) (p : Proc St A) (f : A → Proc St B) :
  sends P p → (∀ a, sends P (f a)) → sends P (bind p f).
Proof.
  intros Hp Hf. induction Hp; simpl; try (constructor; auto); auto.
Qed.

Lemma reads_only_bind {A B} (p : Proc St A) (f : A → Proc St B) :
  reads_only p → (∀ a, reads_only (f a)) → reads_only (bind p f).
Proof.
  intros Hp Hf. induction Hp; simpl; try (constructor; auto); auto.
Qed.

(** What a function sends in a run is what it can send. *)
Lemma sends_run {R} (P : Sent → Prop) (p : Proc St R) :
  sends P p → ∀ n s log, Forall P log →
  Forall P (sent (run_from deliver env p n s log)).
Proof.
  induction 1 as [r | e | A ses c k Hc Hk IH | ev k Hk IH | k Hk IH | s' k Hk IH];
    intros n s log Hlog; simpl; auto.
  - assert (Hlog' : Forall P (log ++ [sent_command ses c])).
    { apply Forall_app. split; [done |]. by apply Forall_cons. }
    destruct (reply env n A c); simpl; auto.
  - destruct (fires env n); simpl; auto.
Qed.

(** A function that never writes the state leaves it as the listeners leave
    it: what they preserve holds at the end. *)
Lemma reads_only_run {R} (I : St → Prop) (p : Proc St R) :
  (∀ evs s, I s → I (deliver evs s)) →
  reads_only p → ∀ n s log, I s → I (final (run_from deliver env p n s log)).
Proof.
  intros Hd. induction 1 as [r | e | A ses c k Hk IH | ev k Hk IH | k Hk IH];
    intros n s log Hs; simpl; auto.
  - destruct (reply env n A c); simpl; auto.
  - destruct (fires env n); simpl; auto.
Qed.

End Procs.

(** One step of a proof that a function sends only what it may. *)
Ltac sends_step :=
  first [ apply ProcProps.sends_ret
        | apply ProcProps.sends_throw
        | apply ProcProps.sends_send; [done | intros ?]
        | apply ProcProps.sends_wait
        | apply ProcProps.sends_put
        | apply ProcProps.sends_get; intros ? ].

Ltac sends_auto :=
  repeat (cbn -[Navigation.js_index Z.ltb bool_decide];
          first [ sends_step
                | match goal with
                  | |- ProcProps.sends _ ?p =>
                      match p with
                      | context [match ?x with _ => _ end] => destruct x
                      end
                  end ]).

Ltac reads_step :=
  first [ apply ProcProps.reads_ret
        | apply ProcProps.reads_throw
        | apply ProcProps.reads_send; intros ?
        | apply ProcProps.reads_wait
        | apply ProcProps.reads_get; intros ? ].

Ltac reads_auto :=
  repeat (cbn -[Navigation.js_index Z.ltb bool_decide];
          first [ reads_step
                | match goal with
                  | |- ProcProps.reads_only ?p =>
                      match p with
                      | context [match ?x with _ => _ end] => destruct x
                      end
                  end ]).

Section ActionCommands.
Import Cdp ProcProps Actions.

Context {St : Type}.

Lemma sends_weaken {R} (P Q : Sent → Prop) (p : Proc St R) :
  (∀ s, P s → Q s) → sends P p → sends Q p.
Proof. intros HPQ. induction 1; constructor; auto. Qed.

Lemma clickRef_sends ref refs ses h :
  resolveRef ref refs = inr h →
  sends (St := St) (fun s => sent_session s = ses ∧ about h s) (clickRef ref refs ses).
Proof. intros H. unfold clickRef, getClickPoint. rewrite H. sends_auto. Qed.

Lemma typeIntoRef_sends ref text refs ses h :
  resolveRef ref refs = inr h →
  sends (St := St) (fun s => sent_session s = ses ∧ about h s)
        (typeIntoRef ref text refs ses).
Proof. intros H. unfold typeIntoRef, resolveObject. rewrite H. sends_auto. Qed.

Lemma selectOption_sends ref values refs ses h :
  resolveRef ref refs = inr h →
  sends (St := St) (fun s => sent_session s = ses ∧ about h s)
        (selectOption ref values refs ses).
Proof. intros H. unfold selectOption, resolveObject. rewrite H. sends_auto. Qed.

Lemma checkRef_sends ref checked refs ses h :
  resolveRef ref refs = inr h →
  sends (St := St) (fun s => sent_session s = ses ∧ about h s)
        (checkRef ref checked refs ses).
Proof.
  intros H. unfold checkRef, resolveObject. rewrite H.
  cbn -[clickRef]. apply sends_send; [done |]. intros [o |]; [| sends_auto].
  destruct (Js.nonEmpty o); [| sends_auto].
  cbn -[clickRef]. apply sends_send; [done |]. intros v.
  destruct (negb _); [by apply clickRef_sends | sends_auto].
Qed.

Lemma clickRef_reads ref refs ses : reads_only (St := St) (clickRef ref refs ses).
Proof.
  unfold clickRef, getClickPoint. destruct (resolveRef ref refs); reads_auto.
Qed.

Lemma typeIntoRef_reads ref text refs ses :
  reads_only (St := St) (typeIntoRef ref text refs ses).
Proof.
  unfold typeIntoRef, resolveObject. destruct (resolveRef ref refs); reads_auto.
Qed.

Lemma selectOption_reads ref values refs ses :
  reads_only (St := St) (selectOption ref values refs ses).
Proof.
  unfold selectOption, resolveObject. destruct (resolveRef ref refs); reads_auto.
Qed.

Lemma checkRef_reads ref checked refs ses :
  reads_only (St := St) (checkRef ref checked refs ses).
Proof.
  unfold checkRef, resolveObject. destruct (resolveRef ref refs); [reads_auto |].
  cbn -[clickRef]. apply reads_send. intros [o |]; [| reads_auto].
  destruct (Js.nonEmpty o); [| reads_auto].
  cbn -[clickRef]. apply reads_send. intros v.
  destruct (negb _); [apply clickRef_reads | reads_auto].
Qed.

End ActionCommands.

Section AgentActions.
Import Cdp ProcProps Actions ChromeAgent AgentProps.

Lemma act_sends (a : Agent) action ref h :
  resolveRef ref (refs a) = inr h →
  ∃ p : Proc Agent unit,
    (∀ env, Cdp.run deliver env (act action ref) a = Cdp.run deliver env p a)
    ∧ sends (fun s => sent_session s = currentSessionId a ∧ about h s) p
    ∧ reads_only p.
Proof.
  intros H. destruct action as [| text | values | checked].
  - exists (clickRef ref (refs a) (currentSessionId a)).
    split; [done |]. split; [by apply clickRef_sends | apply clickRef_reads].
  - exists (typeIntoRef ref text (refs a) (currentSessionId a)).
    split; [done |]. split; [by apply typeIntoRef_sends | apply typeIntoRef_reads].
  - exists (selectOption ref values (refs a) (currentSessionId a)).
    split; [done |]. split; [by apply selectOption_sends | apply selectOption_reads].
  - exists (checkRef ref checked (refs a) (currentSessionId a)).
    split; [done |]. split; [by apply checkRef_sends | apply checkRef_reads].
Qed.

(** X20.  An action on a reference that resolves to the handle [h] sends its
    commands to the current session only, names no DOM node but [h], and
    sends nothing but DOM, script and input commands; it leaves the reference
    map, the current tab and the current session of the agent as they were,
    whatever the browser answers and whatever events arrive meanwhile. *)
Theorem actions_touch_only_their_node (env : Env) (a : Agent)
    (action : Action) (ref : string) (h : Z) :
  resolveRef ref (refs a) = inr h →
  let r := Cdp.run deliver env (act action ref) a in
  Forall (fun s => sent_session s = currentSessionId a ∧ about h s) (sent r)
  ∧ refs (final r) = refs a
  ∧ currentTabId (final r) = currentTabId a
  ∧ currentSessionId (final r) = currentSessionId a.
Proof.
  intros H r. destruct (act_sends a action ref h H) as (p & Hp & Hs & Hr).
  unfold r. rewrite Hp. unfold Cdp.run. split.
  - by apply sends_run.
  - apply (reads_only_run deliver env
             (fun s => refs s = refs a ∧ currentTabId s = currentTabId a
                       ∧ currentSessionId s = currentSessionId a)); done.
Qed.

Lemma actions_touch_only_their_node_witness :
  let r := Cdp.run deliver (clickable false) (act (DoCheck true) "@e1") on_first_tab in
  outcome r = Done tt
  ∧ length (sent r) = 6%nat
  ∧ Forall (fun s => sent_session s = Some "S1" ∧ about 7 s) (sent r)
  ∧ refs (final r) = {[ "e1" := 7%Z ]}.
Proof.
  intros r. split; [reflexivity |]. split; [reflexivity |].
  destruct (actions_touch_only_their_node (clickable false) on_first_tab
              (DoCheck true) "@e1" 7 eq_refl) as (Hs & Hr & _ & _).
  split; [exact Hs | exact Hr].
Defined.

End AgentActions.

Section CheckRef.
Import Cdp ProcProps Actions.

Context {St : Type} (deliver : list TargetEvent → St → St).

(** A run that resumes at suspension [k] is a run from the start in the
    environment seen from [k] on. *)
Lemma run_from_shift {R} (env : Env) (p : Proc St R) (k : nat) :
  ∀ (n : nat) (s : St) (pre log : list Sent),
    run_from deliver env p (k + n) s (pre ++ log)
    = let r := run_from deliver (shift k env) p n s log in
      mkResult (outcome r) (final r) (pre ++ sent r).
Proof.
  induction p as [r | e | A ses c f IH | ev f IH | f IH | s' f IH];
    intros n s pre log; simpl; try done.
  - rewrite <- app_assoc.
    destruct (reply env (k + n) A c); simpl; [| done | done].
    rewrite <- Nat.add_succ_r. apply IH.
  - destruct (fires env (k + n)); simpl; [| done].
    rewrite <- Nat.add_succ_r. apply IH.
Qed.

(** X21.  [checkRef] clicks only to change the state.  Once the node is resolved
    to an object and its state is read: when the state read (false when the
    answer holds none) is the state asked for, [checkRef] completes having
    sent these two commands and no other; when it differs, [checkRef] goes on
    exactly as [clickRef] on the same reference, and ends as it ends. *)
Theorem checkRef_clicks_on_mismatch (env : Env) (ref : string) (checked : bool)
    (refs : Accessibility.RefMap) (sessionId : option string) (s : St)
    (h : Z) (objectId : string) (value : option bool) :
  resolveRef ref refs = inr h →
  reply env 0 _ (DOM_resolveNode h) = Resolved (Some objectId) →
  objectId ≠ "" →
  reply env 1 _ (Runtime_readChecked objectId) = Resolved value →
  let state := match value with Some b => b | None => false end in
  let r := Cdp.run deliver env (checkRef ref checked refs sessionId) s in
  let read := [sent_command sessionId (DOM_resolveNode h);
               sent_command sessionId (Runtime_readChecked objectId)] in
  let s2 := deliver (events env 1) (deliver (events env 0) s) in
  let click := Cdp.run deliver (shift 2 env) (clickRef ref refs sessionId) s2 in
  if Bool.eqb state checked
  then outcome r = Done tt ∧ sent r = read ∧ ¬ Exists is_mouse_event (sent r)
  else outcome r = outcome click ∧ sent r = read ++ sent click
       ∧ final r = final click.
Proof.
  intros Href Hobj Hne Hval state r read s2 click.
  assert (Hr : r = if Bool.eqb state checked
                   then mkResult (Done tt) s2 read
                   else run_from deliver env (clickRef ref refs sessionId) 2 s2 read).
  { unfold r, Cdp.run, checkRef, resolveObject. rewrite Href.
    cbn -[clickRef]. rewrite Hobj. cbn -[clickRef].
    destruct objectId as [| c o]; [done |]. cbn -[clickRef].
    rewrite Hval. cbn -[clickRef]. fold state.
    by destruct (Bool.eqb state checked). }
  rewrite Hr. destruct (Bool.eqb state checked).
  - split; [done |]. split; [done |]. simpl.
    intros Hex. apply Exists_cons in Hex as [[] | Hex].
    apply Exists_cons in Hex as [[] | Hex]. by apply Exists_nil in Hex.
  - pose proof (run_from_shift env (clickRef ref refs sessionId) 2 0 s2 read []) as Hsh.
    rewrite app_nil_r, Nat.add_0_r in Hsh. rewrite Hsh. by simpl.
Qed.

End CheckRef.

Section CheckRefExamples.
Import Cdp ProcProps Actions ChromeAgent AgentProps.

Lemma checkRef_clicks_on_mismatch_witness :
  let r := Cdp.run no_state (clickable true) (checkRef "e1" true {[ "e1" := 7%Z ]} None) tt in
  outcome r = Done tt
  ∧ sent r = [sent_command None (DOM_resolveNode 7);
              sent_command None (Runtime_readChecked "obj-1")].
Proof.
  intros r.
  pose proof (checkRef_clicks_on_mismatch no_state (clickable true) "e1" true
                {[ "e1" := 7%Z ]} None tt 7 "obj-1" (Some true)
                eq_refl eq_refl ltac:(discriminate) eq_refl) as H.
  simpl in H. destruct H as (H1 & H2 & _). split; [exact H1 | exact H2].
Defined.

End CheckRefExamples.

Section AgentSessions.
Import Cdp ProcProps ChromeAgent AgentProps.

Lemma act_session (a : Agent) action ref :
  ∃ p : Proc Agent unit,
    (∀ env, Cdp.run deliver env (act action ref) a = Cdp.run deliver env p a)
    ∧ sends (fun s => sent_session s = currentSessionId a) p.
Proof.
  destruct (Actions.resolveRef ref (refs a)) as [e | h] eqn:H.
  - exists (Throw e). split; [| constructor].
    intros env. by rewrite (act_throws env a action ref e H).
  - destruct (act_sends a action ref h H) as (p & Hp & Hs & _).
    exists p. split; [done |].
    eapply sends_weaken; [| exact Hs]. by intros s [? _].
Qed.

(** What a call runs once it has read the state [a]. *)
Lemma call_sends (a : Agent) (c : Call) :
  ∃ p : Proc Agent unit,
    (∀ env, Cdp.run deliver env (call c) a = Cdp.run deliver env p a)
    ∧ sends (fun s => sent_session s = session_of a c) p.
Proof.
  destruct c as [url | | action ref | url | tabId | tabId | | |];
    try apply act_session.
  - exists (Navigation.navigate url (currentSessionId a) ≫= fun _ => clear_refs).
    split; [done |]. unfold Navigation.navigate, clear_refs. sends_auto.
  - exists (axSnapshot (currentSessionId a) None ≫= fun result =>
              get ≫= fun a' => put (set_refs (snd result) a') ≫= fun _ => mret tt).
    split; [done |]. unfold axSnapshot.
    cbn -[Accessibility.formatAriaSnapshot Accessibility.buildSnapshot
          Accessibility.snapshot_limit].
    apply sends_send; [done |]. intros _.
    apply sends_send; [done |]. intros nodes.
    apply sends_get. intros a'. apply sends_put. constructor.
  - exists (call (CallNewTab url)). split; [done |].
    unfold call, newTab, on_tabs, TabManager.createTab, TabManager.attach.
    sends_auto.
  - exists (call (CallSwitchTab tabId)). split; [done |].
    unfold call, switchTab. sends_auto.
  - exists (call (CallCloseTab tabId)). split; [done |].
    unfold call, closeTab, on_tabs, TabManager.closeTab. sends_auto.
  - exists (Navigation.goBack (currentSessionId a) ≫= fun _ => clear_refs).
    split; [done |]. unfold Navigation.goBack, clear_refs. sends_auto.
  - exists (Navigation.goForward (currentSessionId a) ≫= fun _ => clear_refs).
    split; [done |]. unfold Navigation.goForward, clear_refs. sends_auto.
  - exists (Navigation.reload (currentSessionId a) ≫= fun _ => clear_refs).
    split; [done |]. unfold Navigation.reload, clear_refs. sends_auto.
Qed.

(** X22.  Every command of a call goes to the session the call is meant for:
    [newTab], [switchTab] and [closeTab] talk to the browser, without a
    session, and every other method sends all its commands to the session
    that was current when it was called, whatever happens to the table of
    tabs meanwhile. *)
Theorem calls_use_their_session (env : Env) (a : Agent) (c : Call) :
  Forall (fun s => sent_session s = session_of a c)
         (sent (Cdp.run deliver env (call c) a)).
Proof.
  destruct (call_sends a c) as (p & Hp & Hs). rewrite Hp.
  by apply sends_run.
Qed.

End AgentSessions.

Section AgentTabs.
Import Cdp ProcProps ChromeAgent AgentProps.

Lemma descends_refl tabs : descends tabs tabs.
Proof. intros k t H. by exists t. Qed.

Lemma descends_deliver evs tabs tabs' :
  descends tabs tabs' → descends tabs (TabManager.deliver evs tabs').
Proof.
  intros H. unfold TabManager.deliver.
  induction evs as [| ev evs IH] using rev_ind; [done |].
  rewrite foldl_app. simpl. intros k t' Hk.
  apply handle_source in Hk as (t1 & H1 & _ & Hs).
  apply IH in H1 as (t & Ht & Hs'). exists t. split; [done | congruence].
Qed.

Lemma descends_delete i tabs tabs' :
  descends tabs tabs' → descends tabs (delete i tabs').
Proof.
  intros H k t' Hk. apply lookup_delete_Some in Hk as [_ Hk]. by apply H.
Qed.

Lemma coherent_same (a a' : Agent) :
  coherent a → currentTabId a' = currentTabId a →
  currentSessionId a' = currentSessionId a → descends (tabs a) (tabs a') →
  coherent a'.
Proof.
  unfold coherent. intros H -> -> Hd.
  destruct (currentTabId a) as [t |]; [| done].
  destruct H as (s & Hs & Ht). exists s. split; [done |].
  intros tab Htab. apply Hd in Htab as (tab0 & H0 & ->). by apply Ht.
Qed.

Lemma coherent_deliver evs a : coherent a → coherent (deliver evs a).
Proof.
  intros H. apply (coherent_same a); try done.
  apply descends_deliver, descends_refl.
Qed.

End AgentTabs.

(** The state at the end of a run keeps the current tab and session of [a],
    and its table descends from that of [a]. *)
Ltac same_as a :=
  apply (coherent_same a); [done | reflexivity | reflexivity |];
  cbn [ChromeAgent.tabs];
  repeat first [ apply descends_refl | apply descends_deliver | apply descends_delete ].

Section AgentCoherence.
Import Cdp ProcProps ChromeAgent AgentProps.

Variable env : Env.
Variable a : Agent.
Hypothesis Ha : coherent a.

Ltac run_tabs :=
  cbn -[Navigation.js_index Z.ltb bool_decide coherent TabManager.deliver]; try done.

Ltac reply_tabs :=
  match goal with
  | |- context [Cdp.reply ?e ?n ?A ?c] =>
      destruct (Cdp.reply e n A c) as [? | ? |]; run_tabs
  end.

Ltac event_tabs :=
  match goal with
  | |- context [Cdp.fires ?e ?n] => destruct (Cdp.fires e n); run_tabs
  end.

Ltac kept := try (same_as a).

Lemma navigate_coherent url : coherent (final (Cdp.run deliver env (navigate url) a)).
Proof.
  unfold Cdp.run, navigate, Navigation.navigate. run_tabs.
  reply_tabs; kept. reply_tabs; kept.
  destruct (Js.truthy _); run_tabs; kept.
  event_tabs; kept. reply_tabs; kept.
Qed.

Lemma back_coherent : coherent (final (Cdp.run deliver env back a)).
Proof.
  unfold Cdp.run, back, Navigation.goBack. run_tabs. reply_tabs; kept.
  destruct (0 <? _)%Z; run_tabs; kept.
  destruct (Navigation.js_index _ _); run_tabs; kept. reply_tabs; kept.
Qed.

Lemma forward_coherent : coherent (final (Cdp.run deliver env forward a)).
Proof.
  unfold Cdp.run, forward, Navigation.goForward. run_tabs. reply_tabs; kept.
  destruct (_ <? _)%Z; run_tabs; kept.
  destruct (Navigation.js_index _ _); run_tabs; kept. reply_tabs; kept.
Qed.

Lemma reload_coherent : coherent (final (Cdp.run deliver env reload a)).
Proof.
  unfold Cdp.run, reload, Navigation.reload. run_tabs.
  reply_tabs; kept. reply_tabs; kept. event_tabs; kept.
Qed.

Lemma snapshot_coherent :
  coherent (final (Cdp.run deliver env (snapshot ≫= fun _ => mret tt) a)).
Proof.
  unfold Cdp.run, snapshot, axSnapshot.
  cbn -[coherent TabManager.deliver Accessibility.formatAriaSnapshot
        Accessibility.buildSnapshot Accessibility.snapshot_limit].
  destruct (reply env 0 unit Accessibility_enable) as [? | ? |];
    cbn -[coherent TabManager.deliver Accessibility.formatAriaSnapshot
          Accessibility.buildSnapshot Accessibility.snapshot_limit]; kept.
  destruct (reply env 1 _ Accessibility_getFullAXTree) as [? | ? |];
    cbn -[coherent TabManager.deliver Accessibility.formatAriaSnapshot
          Accessibility.buildSnapshot Accessibility.snapshot_limit]; kept.
Qed.

Lemma act_coherent action ref :
  coherent (final (Cdp.run deliver env (act action ref) a)).
Proof.
  destruct (Actions.resolveRef ref (refs a)) as [e | h] eqn:H.
  - by rewrite (act_throws env a action ref e H).
  - destruct (act_sends a action ref h H) as (p & -> & _ & Hr).
    apply (reads_only_run deliver env coherent); [| done | done].
    intros evs s. apply coherent_deliver.
Qed.

Lemma switchTab_coherent tabId :
  coherent (final (Cdp.run deliver env (switchTab tabId) a)).
Proof.
  unfold Cdp.run, switchTab, TabManager.getTab. run_tabs.
  destruct (tabs a !! tabId) as [tab |] eqn:Htab; run_tabs.
  unfold coherent. simpl. exists (TabManager.sessionId tab).
  split; [done |]. intros tab' Htab'. congruence.
Qed.

Lemma newTab_coherent url :
  coherent (final (Cdp.run deliver env (newTab url ≫= fun _ => mret tt) a)).
Proof.
  unfold Cdp.run, newTab, on_tabs, TabManager.createTab, TabManager.attach,
    TabManager.getTab.
  run_tabs. reply_tabs; kept.
  match goal with |- context [match ?o with Some _ => _ | None => _ end] =>
    destruct o as [t |]; run_tabs; kept end.
  destruct (Js.nonEmpty t); run_tabs; kept.
  reply_tabs; kept.
  match goal with |- context [match ?o with Some _ => _ | None => _ end] =>
    destruct o as [sid |]; run_tabs; kept end.
  destruct (Js.nonEmpty sid); run_tabs; kept.
  rewrite lookup_insert_eq. run_tabs. rewrite lookup_insert_eq. run_tabs.
  unfold coherent. simpl. exists sid. split; [done |].
  rewrite lookup_insert_eq. by intros tab [= <-].
Qed.

Lemma closeTab_coherent tabId :
  coherent (final (Cdp.run deliver env (closeTab tabId) a)).
Proof.
  unfold Cdp.run, closeTab, on_tabs, TabManager.closeTab. run_tabs.
  destruct (match tabId with Some t => Some t | None => currentTabId a end)
    as [t |]; run_tabs.
  destruct (Js.nonEmpty t); run_tabs.
  reply_tabs; kept.
  case_bool_decide; run_tabs; kept.
Qed.

(** X23.  Every call keeps the current session that of the current tab: if, before
    the call, there is a current session exactly when there is a current tab
    and it is the session recorded for that tab, the same holds after the
    call, however it ends and whatever events arrive meanwhile. *)
Theorem calls_keep_session_of_tab (c : Call) :
  coherent (final (Cdp.run deliver env (call c) a)).
Proof.
  destruct c; simpl call.
  - apply navigate_coherent.
  - apply snapshot_coherent.
  - apply act_coherent.
  - apply newTab_coherent.
  - apply switchTab_coherent.
  - apply closeTab_coherent.
  - apply back_coherent.
  - apply forward_coherent.
  - apply reload_coherent.
Qed.

End AgentCoherence.

Section AgentTabCalls.
Import Cdp ProcProps ChromeAgent AgentProps TabProps.

Lemma on_first_tab_coherent : coherent on_first_tab.
Proof.
  exists "S1". split; [reflexivity |]. intros tab H.
  vm_compute in H. by injection H as <-.
Qed.

Lemma calls_keep_session_of_tab_witness :
  let r := Cdp.run deliver opening (call (CallNewTab None)) on_first_tab in
  coherent on_first_tab
  ∧ currentTabId (final r) = Some "T2"
  ∧ currentSessionId (final r) = Some "S2"
  ∧ coherent (final r).
Proof.
  intros r. split; [exact on_first_tab_coherent |].
  split; [reflexivity |]. split; [reflexivity |].
  exact (calls_keep_session_of_tab opening on_first_tab on_first_tab_coherent
           (CallNewTab None)).
Defined.

Ltac run_tabs :=
  cbn -[Navigation.js_index Z.ltb bool_decide TabManager.deliver]; try done.

Ltac reply_tabs :=
  match goal with
  | |- context [Cdp.reply ?e ?n ?A ?c] =>
      destruct (Cdp.reply e n A c) as [? | ? |]; run_tabs
  end.

(** X24.  [newTab] makes the new tab current exactly when it completes: then the
    current tab is the tab returned, the table holds its record, with the url
    asked for, the current session is that of the record, and the reference
    map is empty.  When [newTab] fails or never completes, the current tab,
    the current session and the reference map are as before. *)
Theorem newTab_makes_current (env : Env) (a : Agent) (url : option string) :
  let r := Cdp.run deliver env (newTab url) a in
  match outcome r with
  | Done t =>
      currentTabId (final r) = Some t
      ∧ refs (final r) = ∅
      ∧ ∃ tab, TabManager.getTab (tabs (final r)) t = Some tab
               ∧ currentSessionId (final r) = Some (TabManager.sessionId tab)
               ∧ TabManager.tabId tab = t
               ∧ TabManager.url tab = url_or_blank url
  | Failed _ | Pending =>
      currentTabId (final r) = currentTabId a
      ∧ currentSessionId (final r) = currentSessionId a
      ∧ refs (final r) = refs a
  end.
Proof.
  unfold Cdp.run, newTab, on_tabs, TabManager.createTab, TabManager.attach,
    TabManager.getTab.
  run_tabs. reply_tabs.
  match goal with |- context [match ?o with Some _ => _ | None => _ end] =>
    destruct o as [t |]; run_tabs end.
  destruct (Js.nonEmpty t); run_tabs.
  reply_tabs.
  match goal with |- context [match ?o with Some _ => _ | None => _ end] =>
    destruct o as [sid |]; run_tabs end.
  destruct (Js.nonEmpty sid); run_tabs.
  rewrite lookup_insert_eq. run_tabs. rewrite lookup_insert_eq. run_tabs.
  split; [done |]. split; [done |]. eexists.
  rewrite lookup_insert_eq. split; [reflexivity |]. by destruct url.
Qed.

(** X25.  [closeTab] gives up the current tab only when it closed it.  When it
    completes, the tab it was asked to close (the current one when none is
    named) has no record in the table; if that tab is the current tab, there
    is no current tab and no current session afterwards and the reference map
    is empty; if it is another tab, the current tab, the current session and
    the reference map are as before.  They are also as before when
    [closeTab] fails or never completes. *)
Theorem closeTab_gives_up_current (env : Env) (a : Agent) (tabId : option string) :
  let target := match tabId with Some t => Some t | None => currentTabId a end in
  let r := Cdp.run deliver env (closeTab tabId) a in
  match outcome r with
  | Done _ =>
      ∃ t, target = Some t ∧ t ≠ ""
           ∧ TabManager.getTab (tabs (final r)) t = None
           ∧ if bool_decide (currentTabId a = Some t)
             then currentTabId (final r) = None
                  ∧ currentSessionId (final r) = None
                  ∧ refs (final r) = ∅
             else currentTabId (final r) = currentTabId a
                  ∧ currentSessionId (final r) = currentSessionId a
                  ∧ refs (final r) = refs a
  | Failed _ | Pending =>
      currentTabId (final r) = currentTabId a
      ∧ currentSessionId (final r) = currentSessionId a
      ∧ refs (final r) = refs a
  end.
Proof.
  intros target. unfold Cdp.run, closeTab, on_tabs, TabManager.closeTab,
    TabManager.getTab. run_tabs. fold target.
  destruct target as [t |]; run_tabs.
  destruct (Js.nonEmpty t) eqn:Ht; run_tabs.
  reply_tabs.
  destruct (decide (currentTabId a = Some t)) as [Hc | Hc].
  - rewrite bool_decide_eq_true_2 by done. run_tabs.
    exists t. split; [done |]. split; [by apply nonEmpty_true |].
    split; [apply lookup_delete_eq |]. by rewrite bool_decide_eq_true_2.
  - rewrite bool_decide_eq_false_2 by done. run_tabs.
    exists t. split; [done |]. split; [by apply nonEmpty_true |].
    split; [apply lookup_delete_eq |]. by rewrite bool_decide_eq_false_2.
Qed.

End AgentTabCalls.

(** ** Further properties of navigate and reload *)

Section PageLoads.
Import Cdp Navigation.

(** X26.  [navigate] and [reload] wait for the page to load.
    [navigate] sends the enable command, then the navigate command, then the
    bring-to-front command, each in the given session and each only once the
    one before is answered.  An answer to the navigate command with a
    non-empty error text makes it fail with that text, before it waits and
    without bringing the tab to the front.  The bring-to-front command is
    sent only after the load event has fired, and [navigate] completes only
    then.  [reload] sends the enable and the reload command, and completes
    exactly when both are answered and the load event fires. *)
Theorem loads_are_awaited (env : Env) (sessionId : option string) (url : string) :
  let r := Cdp.run no_state env (navigate url sessionId) tt in
  let r' := Cdp.run no_state env (reload sessionId) tt in
  let enable := sent_command sessionId Page_enable in
  let go := sent_command sessionId (Page_navigate url) in
  let front := sent_command sessionId Page_bringToFront in
  (sent r = [enable] ∨ sent r = [enable; go] ∨ sent r = [enable; go; front])
  ∧ (∀ u text, reply env 0 _ Page_enable = Resolved u →
       reply env 1 _ (Page_navigate url) = Resolved (Some text) → text ≠ "" →
       outcome r = Failed (NavigationFailed text) ∧ sent r = [enable; go])
  ∧ (sent r = [enable; go; front] → fires env 2 = true)
  ∧ (outcome r = Done tt → sent r = [enable; go; front])
  ∧ sent r' `prefix_of` [enable; sent_command sessionId Page_reload]
  ∧ (outcome r' = Done tt ↔
       (∃ u, reply env 0 _ Page_enable = Resolved u)
       ∧ (∃ u, reply env 1 _ Page_reload = Resolved u)
       ∧ fires env 2 = true).
Proof.
  intros r r' enable go front.
  split; [| split; [| split; [| split; [| split]]]].
  - unfold r, Cdp.run, navigate. run_on. on_reply; [| by left | by left].
    on_reply; [| by (right; left) | by (right; left)].
    destruct (Js.truthy _); run_on; [by (right; left) |].
    on_event; [| by (right; left)]. on_reply; by (right; right).
  - intros u text H0 H1 Hne. unfold r, Cdp.run, navigate. run_on.
    rewrite H0. run_on. rewrite H1. run_on.
    destruct text as [| c text]; [done |]. run_on.
  - unfold r, Cdp.run, navigate. run_on. on_reply. on_reply.
    destruct (Js.truthy _); run_on. on_event.
  - unfold r, Cdp.run, navigate. run_on. on_reply. on_reply.
    destruct (Js.truthy _); run_on. on_event. on_reply.
  - unfold r', Cdp.run, reload. run_on.
    on_reply; try (by exists [sent_command sessionId Page_reload]).
    on_reply; try on_event; by exists [].
  - unfold r', Cdp.run, reload. run_on.
    destruct (reply env 0 unit Page_enable) as [u0 | e0 |]; run_on;
      try (split; [done | by intros ([u Hu] & _)]).
    destruct (reply env 1 unit Page_reload) as [u1 | e1 |]; run_on;
      try (split; [done | by intros (_ & [u Hu] & _)]).
    destruct (fires env 2); run_on.
    + split; [intros _ | done]. split; [by exists u0 |]. split; [by exists u1 | done].
    + split; [done | by intros (_ & _ & ?)].
Qed.

End PageLoads.

(** ** Properties of the web chat channel *)

Section Trim.

Lemma trimStart_head s :
  match Js.trimStart s with
  | EmptyString => True
  | String c _ => Js.isWhiteSpace c = false
  end.
Proof.
  induction s as [| c s IH]; [done |]. simpl.
  destruct (Js.isWhiteSpace c) eqn:Hc; [done | simpl; done].
Qed.

Lemma trimStart_fixed s :
  match s with
  | EmptyString => True
  | String c _ => Js.isWhiteSpace c = false
  end → Js.trimStart s = s.
Proof. destruct s as [| c s]; [done |]. simpl. by intros ->. Qed.

Lemma trimEnd_head s :
  match s with
  | EmptyString => True
  | String c _ => Js.isWhiteSpace c = false
  end →
  match Js.trimEnd s with
  | EmptyString => s = EmptyString
  | String c _ => Js.isWhiteSpace c = false
  end.
Proof.
  destruct s as [| c s]; [done |]. simpl. intros Hc.
  destruct (Js.trimEnd s); [by rewrite Hc | done].
Qed.

Lemma trimEnd_idem s : Js.trimEnd (Js.trimEnd s) = Js.trimEnd s.
Proof.
  induction s as [| c s IH]; [done |]. simpl.
  destruct (Js.trimEnd s) as [| c' t] eqn:Ht.
  - destruct (Js.isWhiteSpace c) eqn:Hc; [done |]. simpl. by rewrite Hc.
  - change (Js.trimEnd (String c (String c' t)))
      with (match Js.trimEnd (String c' t) with
            | EmptyString => if Js.isWhiteSpace c then EmptyString else String c EmptyString
            | t' => String c t'
            end).
    by rewrite IH.
Qed.

(** Trimming a trimmed string changes nothing. *)
Lemma trim_idem s : Js.trim (Js.trim s) = Js.trim s.
Proof.
  unfold Js.trim.
  rewrite (trimStart_fixed (Js.trimEnd (Js.trimStart s))).
  - apply trimEnd_idem.
  - pose proof (trimEnd_head (Js.trimStart s) (trimStart_head s)) as H.
    by destruct (Js.trimEnd (Js.trimStart s)).
Qed.

End Trim.

Section Inbound.
Import WebChannel WebProps.

(** X27.  The handler of a socket message calls [onMessage] exactly when the data
    parses to an object whose type is [message] and whose text is a string
    that is not blank.  The content handed over is the text trimmed: it is
    not empty and trimming it again changes nothing.  The message is
    addressed to the chat of the web channel, a chat that the channel owns,
    and is marked as coming neither from the assistant nor from a bot. *)
Theorem inbound_is_trimmed_and_owned (parsed : ParseResult) (amb : Ambient) :
  (is_Some (onSocketMessage parsed amb) ↔
     ∃ text, parsed = Parsed (Some "message") (Some text) ∧ Js.trim text ≠ "")
  ∧ ∀ m, onSocketMessage parsed amb = Some m →
      (∃ text, parsed = Parsed (Some "message") (Some text)
               ∧ content m = Js.trim text)
      ∧ content m ≠ ""
      ∧ Js.trim (content m) = content m
      ∧ ownsJid (chat_jid m) = true
      ∧ is_from_me m = false ∧ is_bot_message m = false.
Proof.
  unfold onSocketMessage. split.
  - split.
    + intros [m Hm]. destruct parsed as [| [type |] [text |]]; try done.
      destruct (String.eqb type "message") eqn:Ht; [| done].
      apply String.eqb_eq in Ht as ->.
      destruct (Js.nonEmpty (Js.trim text)) eqn:Hn; [| done].
      exists text. split; [done |]. by apply nonEmpty_true.
    + intros (text & -> & Hne). apply nonEmpty_true in Hne.
      rewrite Hne. by eexists.
  - intros m Hm. destruct parsed as [| [type |] [text |]]; try done.
    destruct (String.eqb type "message") eqn:Ht; [| done].
    apply String.eqb_eq in Ht as ->.
    destruct (Js.nonEmpty (Js.trim text)) eqn:Hn; [| done].
    injection Hm as <-. cbn [content chat_jid is_from_me is_bot_message].
    split; [by exists text |]. split; [by apply nonEmpty_true |].
    split; [apply trim_idem |]. done.
Qed.

End Inbound.

Section Clients.
Import WebChannel WebProps.

Lemma after_snoc evs ev : after (evs ++ [ev]) = onSocketEvent (after evs) ev.
Proof. unfold after. by rewrite foldl_app. Qed.

Lemma connected_after_snoc evs ev ws :
  connected_after (evs ++ [ev]) ws ↔
  if decide (subject ev = ws)
  then (∃ w, ev = Connection w)
  else connected_after evs ws.
Proof.
  unfold connected_after. rewrite filter_app.
  destruct (decide (subject ev = ws)) as [He | He].
  - rewrite filter_cons_True, filter_nil by done. rewrite last_snoc.
    destruct ev; split; try done; eauto. by intros [w [=]].
  - rewrite filter_cons_False, filter_nil by done. by rewrite app_nil_r.
Qed.

Lemma after_spec evs :
  NoDup (after evs) ∧ ∀ ws, ws ∈ after evs ↔ connected_after evs ws.
Proof.
  induction evs as [| ev evs [IHn IHm]] using rev_ind.
  - split; [constructor |]. intros ws. unfold connected_after. simpl.
    split; [by intros ?%not_elem_of_nil | done].
  - rewrite after_snoc. split.
    + destruct ev as [w | w]; simpl.
      * unfold add. case_bool_decide; [done |].
        apply NoDup_app. split; [done |]. split; [| apply NoDup_singleton].
        intros x Hx ->%list_elem_of_singleton. done.
      * unfold delete. by apply NoDup_filter.
    + intros ws. rewrite connected_after_snoc.
      destruct ev as [w | w]; simpl.
      * unfold add. destruct (decide (w = ws)) as [-> | Hne].
        -- split; [by eauto |]. intros _.
           case_bool_decide; [done |]. apply elem_of_app. right. by left.
        -- rewrite <- IHm. case_bool_decide; [done |].
           rewrite elem_of_app, list_elem_of_singleton.
           split; [by intros [? | ?] | by left].
      * unfold delete. rewrite list_elem_of_filter.
        destruct (decide (w = ws)) as [-> | Hne].
        -- split; [by intros [? _] | by intros [w' [=]]].
        -- rewrite <- IHm. split; [by intros [_ ?] | by intros ?].
Qed.

(** X28.  The set of clients holds each connected socket once: after any
    connections and closes, a socket is in the set exactly when the last
    event about it is its connection, and no socket is in it twice.  So
    [/health] counts the connected sockets, and [sendMessage] and
    [setTyping] send one frame, with the payload given, to each socket of the
    set that is open, and none to any other socket. *)
Theorem broadcast_reaches_open_clients (evs : list SocketEvent)
    (readyState : nat → ReadyState) (payload : Payload) :
  let clients := after evs in
  let frames := broadcast readyState payload clients in
  NoDup clients
  ∧ (∀ ws, ws ∈ clients ↔ connected_after evs ws)
  ∧ NoDup (map fst frames)
  ∧ (∀ ws p, (ws, p) ∈ frames ↔
       connected_after evs ws ∧ readyState ws = OPEN ∧ p = payload)
  ∧ (length frames ≤ health clients)%nat.
Proof.
  intros clients frames. destruct (after_spec evs) as [Hn Hm].
  fold clients in Hn, Hm.
  assert (Hfst : map fst frames = filter (fun ws => readyState ws = OPEN) clients).
  { unfold frames, broadcast. rewrite List.map_map. simpl. apply List.map_id. }
  split; [done |]. split; [done |]. split; [| split].
  - rewrite Hfst. by apply NoDup_filter.
  - intros ws p. unfold frames, broadcast. rewrite list_elem_of_fmap.
    split.
    + intros (w & [= -> ->] & Hw). apply list_elem_of_filter in Hw as [Ho Hw].
      by rewrite <- Hm.
    + intros (Hc & Ho & ->). exists ws. split; [done |].
      apply list_elem_of_filter. by rewrite Hm.
  - unfold frames, broadcast, health. rewrite length_map. apply length_filter.
Qed.

End Clients.

(** ** From a snapshot to an action *)

Section SnapshotCalls.
Import Cdp Accessibility ChromeAgent AgentProps.

(** X29.  After a snapshot that completes, every reference the agent holds can be
    acted on: its key is a token, [resolveRef] on the key, with or without a
    leading [@], gives its handle, and the handle is the DOM handle of a node
    of the tree that the browser returned for this snapshot.  The agent holds
    at most 500 references. *)
Theorem snapshot_refs_are_actionable (env : Env) (a : Agent) (text : string) :
  let r := Cdp.run deliver env snapshot a in
  outcome r = Done text →
  ∃ nodes,
    reply env 1 _ Accessibility_getFullAXTree = Resolved nodes
    ∧ (size (refs (final r)) ≤ 500)%nat
    ∧ ∀ key h, refs (final r) !! key = Some h →
        Actions.resolveRef key (refs (final r)) = inr h
        ∧ Actions.resolveRef ("@" +:+ key) (refs (final r)) = inr h
        ∧ ∃ n, n ∈ (match nodes with Some l => l | None => [] end)
               ∧ RawAXNode.backendDOMNodeId n = Some h.
Proof.
  unfold Cdp.run, snapshot, axSnapshot.
  cbn -[formatAriaSnapshot buildSnapshot snapshot_limit].
  destruct (reply env 0 unit Accessibility_enable) as [? | ? |];
    cbn -[formatAriaSnapshot buildSnapshot snapshot_limit]; [| done | done].
  destruct (reply env 1 _ Accessibility_getFullAXTree) as [nodes | ? |];
    cbn -[formatAriaSnapshot buildSnapshot snapshot_limit]; [| done | done].
  intros _. exists nodes. split; [done |].
  set (raw := match nodes with Some l => l | None => [] end).
  destruct (formatAriaSnapshot raw (snapshot_limit None)) as [out |] eqn:Hout.
  - split.
    + etransitivity; [apply refs_at_most_nodes |].
      unfold formatAriaSnapshot in Hout.
      rewrite (formatAriaSnapshot_fuel_spec raw _ _ (Z.to_nat (snapshot_limit None)))
        in Hout by lia.
      injection Hout as <-. rewrite length_number, length_take.
      change (Z.to_nat (snapshot_limit None)) with 500%nat. lia.
    + intros key h Hk.
      destruct (resolveRef_token key _ h (snapshot_key_is_token out key h Hk) Hk)
        as [H1 H2].
      split; [done |]. split; [done |]. by eapply format_handle_source.
  - unfold formatAriaSnapshot in Hout.
    rewrite (formatAriaSnapshot_fuel_spec raw _ _ (Z.to_nat (snapshot_limit None)))
      in Hout by lia.
    discriminate Hout.
Qed.

Lemma snapshot_refs_are_actionable_witness :
  let r := Cdp.run deliver showing_sample snapshot on_first_tab in
  refs (final r) !! "e1" = Some 11%Z
  ∧ Actions.resolveRef "@e1" (refs (final r)) = inr 11%Z.
Proof.
  intros r.
  destruct (snapshot_refs_are_actionable showing_sample on_first_tab
              (fst (buildSnapshot
                      (match formatAriaSnapshot SnapshotProps.sample_tree 500 with
                       | Some l => l
                       | None => []
                       end)))
              eq_refl) as (nodes & _ & _ & H).
  assert (Hk : refs (final r) !! "e1" = Some 11%Z) by reflexivity.
  split; [exact Hk |]. exact (proj1 (proj2 (H "e1" 11%Z Hk))).
Defined.

End SnapshotCalls.

